(** * Substreams sink: the streaming session manager

    A shallow embedding of [sinker.go] (the [Sinker] type, its constructor
    [New], the lifecycle [Run], the retry loop [run], [adjustedEndBlock] and
    the receive loop [doRequest]), followed by the properties of the
    specification that are settled against it.

    Conventions.
    - [uint64] values are [Z] in [0, 2^64); every addition and subtraction
      of the source is followed by [wrap64].
    - A pointer that the source compares with [nil] or dereferences is an
      [option].
    - The logger, the process-wide metrics, the calls made to the user's
      handler, the requests sent and the sleeps taken are kept as explicit
      state, in the order in which the source produces them.
    - What the network, the caller's context and the handler do is given by
      a script: the model is a function of the script. *)

From Stdlib Require Import ZArith Lia Bool List String Ascii.
From stdpp Require Import base decidable option list strings gmap pretty.
Import ListNotations.
Open Scope string_scope.
Open Scope list_scope.
Open Scope Z_scope.

(** ** Machine integers *)

Definition MaxUint64 : Z := 2 ^ 64 - 1.

(** Arithmetic on [uint64] wraps around. *)
Definition wrap64 (z : Z) : Z := z mod 2 ^ 64.

(** The conversion [uint64(i)] of a (signed, 64-bit) [int]. *)
Definition uint64_of_int (i : Z) : Z := wrap64 i.

(** The conversion [uint32(i)] of an [int]. *)
Definition uint32_of_int (i : Z) : Z := i mod 2 ^ 32.

(** The conversion [int64(u)] of a [uint64]. *)
Definition int64_of_uint64 (u : Z) : Z := (u + 2 ^ 63) mod 2 ^ 64 - 2 ^ 63.

(** ** Errors

    Go error values, as far as the sinker tells them apart: the sentinels
    it compares with, gRPC status errors, the wrappers built by
    [fmt.Errorf] with one or two [%w] verbs and the retryable marker of
    package [derr]. *)

Module codes.

Inductive Code :=
| OK | Canceled | Unknown | InvalidArgument | DeadlineExceeded | NotFound
| AlreadyExists | PermissionDenied | ResourceExhausted | FailedPrecondition
| Aborted | OutOfRange | Unimplemented | Internal | Unavailable | DataLoss
| Unauthenticated.

#[global] Instance Code_eq_dec : EqDecision Code.
Proof. solve_decision. Defined.

End codes.

Inductive error :=
| io_EOF
| context_Canceled
| context_DeadlineExceeded
| ErrBackOffExpired
| status_Error (c : codes.Code) (msg : string)
| errors_New (msg : string)
| fmt_Errorf (msg : string) (err : error)
| fmt_Errorf2 (err1 err2 : error)
| RetryableError (err : error).

#[global] Instance error_eq_dec : EqDecision error.
Proof. solve_decision. Defined.

(** [errors.Is(err, target)]: [err] or an error it wraps equals [target]. *)
Fixpoint errors_Is (err target : error) : bool :=
  bool_decide (err = target) ||
  match err with
  | fmt_Errorf _ e | RetryableError e => errors_Is e target
  | fmt_Errorf2 e1 e2 => errors_Is e1 target || errors_Is e2 target
  | _ => false
  end.

(** [errors.As(err, &retryableError)] followed by [retryableError.Unwrap()]:
    the error inside the first retryable marker of the chain, in the
    depth-first order of [errors.As]. *)
Fixpoint errors_As_Retryable (err : error) : option error :=
  match err with
  | RetryableError e => Some e
  | fmt_Errorf _ e => errors_As_Retryable e
  | fmt_Errorf2 e1 e2 =>
      match errors_As_Retryable e1 with
      | Some c => Some c
      | None => errors_As_Retryable e2
      end
  | _ => None
  end.

(** [retryable(err)] *)
Definition retryable (err : error) : error := RetryableError err.

(** ** Messages of the RPC *)

Record Clock := { Clock_Id : string; Clock_Number : Z; Clock_Timestamp : Z }.

Record BlockScopedData := {
  bsd_Clock : Clock;
  bsd_Cursor : string;
  bsd_OutputName : string;
  bsd_OutputValue : list Z;
  bsd_FinalBlockHeight : Z }.

Record BlockRef := { ref_Id : string; ref_Number : Z }.

Record BlockUndoSignal := {
  LastValidBlock : BlockRef;
  LastValidCursor : string }.

Record BlockRange := { StartBlock : Z; EndBlock : Z }.

Record Stage := { Modules : list string; CompletedRanges : list BlockRange }.

Record Job := { job_Stage : Z; job_StartBlock : Z; ProcessedBlocks : Z }.

Record ModulesProgress := { RunningJobs : list Job; Stages : list Stage }.

Record SessionInit := {
  TraceId : string;
  ResolvedStartBlock : Z;
  LinearHandoffBlock : Z;
  MaxParallelWorkers : Z }.

(** The variants of [resp.Message]; [Response_Other] stands for a message
    that falls in the [default] branch of the type switch. *)
Inductive Response :=
| Response_Progress (Progress : ModulesProgress)
| Response_BlockScopedData (data : BlockScopedData)
| Response_BlockUndoSignal (undo : BlockUndoSignal)
| Response_DebugSnapshotData
| Response_DebugSnapshotComplete
| Response_Session (Session : SessionInit)
| Response_Other.

(** ** Collaborators that are outside these sources

    The cursor and the undo buffer of this package, [bstream.Range] and
    [dgrpc.AsGRPCError] are used by the sinker but defined elsewhere: they
    are taken as parameters, and every general theorem holds for any
    implementation of them.
    - [NewCursor] parses a cursor; [Cursor_String] is the [String] method,
      called on a cursor that may be [nil].
    - [Capacity], [buffer_HandleBlockScopedData] and
      [buffer_HandleBlockUndoSignal] are the methods of [blockDataBuffer];
      each returns the buffer as the call leaves it.
    - [Range_StartBlock] is called by [run] on a range that may be [nil];
      [Range_EndBlock] only on a range that is not.
    - [AsGRPCError] gives the code of the gRPC status an error carries. *)
Class Collaborators := {
  Cursor : Type;
  NewCursor : string -> Cursor + error;
  Cursor_String : option Cursor -> string;
  blockDataBuffer : Type;
  Capacity : blockDataBuffer -> Z;
  buffer_HandleBlockScopedData :
    blockDataBuffer -> BlockScopedData ->
    blockDataBuffer * (list BlockScopedData + error);
  buffer_HandleBlockUndoSignal :
    blockDataBuffer -> BlockUndoSignal -> blockDataBuffer * option error;
  Range : Type;
  Range_StartBlock : option Range -> Z;
  Range_EndBlock : Range -> option Z;
  AsGRPCError : error -> option codes.Code }.

(** ** Backoff policies (package [backoff])

    A [backoff.BackOff] is an object with a state and the two methods
    [NextBackOff] and [Reset]; a duration is a number of nanoseconds and
    [Stop] is [-1]. *)

Definition Stop : Z := -1.

Record BackOff := {
  bo_state : Type;
  bo_cur : bo_state;
  bo_next : bo_state -> Z * bo_state;
  bo_reset : bo_state -> bo_state }.

Definition NextBackOff (b : BackOff) : Z * BackOff :=
  let '(d, s) := bo_next b (bo_cur b) in
  (d, {| bo_cur := s; bo_next := bo_next b; bo_reset := bo_reset b |}).

Definition Reset (b : BackOff) : BackOff :=
  {| bo_cur := bo_reset b (bo_cur b);
     bo_next := bo_next b; bo_reset := bo_reset b |}.

(** [backoff.WithMaxRetries(b, max)]: the wrapper counts the calls in
    [numTries]; with [max = 0] it always stops, and once [max <= numTries]
    it stops until it is reset. *)
Definition maxRetries_next (b : BackOff) (max : Z)
    (st : Z * bo_state b) : Z * (Z * bo_state b) :=
  let '(numTries, s) := st in
  if max =? 0 then (Stop, st)
  else if max <=? numTries then (Stop, st)
  else let '(d, s') := bo_next b s in (d, (wrap64 (numTries + 1), s')).

Definition WithMaxRetries (b : BackOff) (max : Z) : BackOff :=
  {| bo_state := Z * bo_state b;
     bo_cur := (0, bo_cur b);
     bo_next := maxRetries_next b max;
     bo_reset := fun st => (0, bo_reset b (snd st)) |}.

(** [backoff.NewExponentialBackOff()] with [MaxElapsedTime = 0]: the
    interval starts at 500ms, grows by half at every call up to 60s, and
    the policy never stops. The random jitter of the library is left out. *)
Definition exponential_next (interval : Z) : Z * Z :=
  (interval * 1000000, Z.min 60000 (interval + interval / 2)).

Definition NewExponentialBackOff : BackOff :=
  {| bo_state := Z; bo_cur := 500;
     bo_next := exponential_next; bo_reset := fun _ => 500 |}.

(** ** Results that are not a return

    A call of the source either returns, panics on a [nil] pointer, or
    ends the process through [log.Fatalf]. *)
Inductive outcome (A : Type) :=
| Ret (a : A)
| Panic (what : string)
| Fatal (what : string).
Arguments Ret {A} a.
Arguments Panic {A} what.
Arguments Fatal {A} what.

(** How far a call has come when the script ends: it has returned, the
    process has exited through [log.Fatalf], or the loop is still running. *)
Inductive ended (A : Type) :=
| Returned (a : A)
| Exited (what : string)
| Running.
Arguments Returned {A} a.
Arguments Exited {A} what.
Arguments Running {A}.

(** ** The logger and the metrics *)

Inductive Level := DebugLevel | InfoLevel | WarnLevel | ErrorLevel.

#[global] Instance Level_eq_dec : EqDecision Level.
Proof. solve_decision. Defined.

(** A [zap.Logger]: whether the debug level is enabled, and what was
    written so far (oldest entry first). The fields of an entry are left
    out, its level and message are kept. *)
Record Logger := {
  debugEnabled : bool;
  entries : list (Level * string) }.

Definition Logger_log (lvl : Level) (msg : string) (l : Logger) : Logger :=
  match lvl, debugEnabled l with
  | DebugLevel, false => l
  | _, _ => {| debugEnabled := debugEnabled l;
               entries := entries l ++ [(lvl, msg)] |}
  end.

(** The process-wide metrics: the value of each metric, by the name of its
    Go variable and its label (the empty label for a metric without one).
    The metrics fed with a wire size or with the wall clock
    ([MessageSizeBytes], [DataMessageSizeBytes], [HeadBlockTimeDrift]) are
    left out. *)
Definition Inc (name : string) (m : gmap (string * string) Z)
    : gmap (string * string) Z :=
  <[(name, EmptyString) := default 0 (m !! (name, EmptyString)) + 1]> m.

Definition SetUint64 (name : string) (v : Z) (label : string)
    (m : gmap (string * string) Z) : gmap (string * string) Z :=
  <[(name, label) := v]> m.

(** [stageString] *)
Definition stageString (i : Z) : string := "stage " +:+ pretty (Z.to_N i).

(** ** The sinker *)

Inductive SubstreamsMode := SubstreamsModeDevelopment | SubstreamsModeProduction.

#[global] Instance SubstreamsMode_eq_dec : EqDecision SubstreamsMode.
Proof. solve_decision. Defined.

(** The parts of a [pbsubstreams.Package] and of a [pbsubstreams.Module]
    that the sinker reads; [Modules] and [Output] are pointers. *)
Record ModuleOutput := { Output_Type : string }.
Record Module := { Name : string; Output : option ModuleOutput }.
Record Package := { pkg_Modules : option (list Module) }.

(** What [New] reads of a [client.SubstreamsClientConfig]. *)
Record SubstreamsClientConfig := {
  Endpoint : string; AuthToken : string; Insecure : bool; PlainText : bool }.

(** [hex.EncodeToString] *)
Definition hex_digit (d : Z) : ascii :=
  match d with
  | 0 => "0" | 1 => "1" | 2 => "2" | 3 => "3" | 4 => "4" | 5 => "5"
  | 6 => "6" | 7 => "7" | 8 => "8" | 9 => "9" | 10 => "a" | 11 => "b"
  | 12 => "c" | 13 => "d" | 14 => "e" | _ => "f"
  end%char.

Fixpoint hex_EncodeToString (bytes : list Z) : string :=
  match bytes with
  | [] => EmptyString
  | b :: rest =>
      String (hex_digit (b mod 256 / 16))
        (String (hex_digit (b mod 16)) (hex_EncodeToString rest))
  end.

(** ** [parseHeaders] *)

(** [strings.Split(s, ":")] *)
Fixpoint split_colon (s : string) : list string :=
  match s with
  | EmptyString => [EmptyString]
  | String c rest =>
      if Ascii.eqb c ":" then EmptyString :: split_colon rest
      else
        match split_colon rest with
        | part :: parts => String c part :: parts
        | [] => [String c EmptyString]
        end
  end.

(** [strings.TrimSpace]: the string without the white space of Unicode
    ([unicode.IsSpace]) at its start and at its end. A string is a sequence
    of bytes, read as UTF-8: the white space is the six ASCII characters
    tab, line feed, vertical tab, form feed, carriage return and space, the
    characters U+0085 and U+00A0, encoded on two bytes, and the characters
    U+1680, U+2000 to U+200A, U+2028, U+2029, U+202F, U+205F and U+3000,
    encoded on three bytes. A byte sequence that is not the encoding of
    one of them decodes to another character, or to [utf8.RuneError], and
    is kept. *)
Definition isSpace (c : ascii) : bool :=
  let n := N_of_ascii c in
  ((n =? 32) || ((9 <=? n) && (n <=? 13)))%N.

Definition isSpace2 (c1 c2 : ascii) : bool :=
  let b1 := N_of_ascii c1 in
  let b2 := N_of_ascii c2 in
  ((b1 =? 194) && ((b2 =? 133) || (b2 =? 160)))%N.

Definition isSpace3 (c1 c2 c3 : ascii) : bool :=
  let b1 := N_of_ascii c1 in
  let b2 := N_of_ascii c2 in
  let b3 := N_of_ascii c3 in
  (((b1 =? 225) && (b2 =? 154) && (b3 =? 128))
   || ((b1 =? 226) && (b2 =? 128)
       && (((128 <=? b3) && (b3 <=? 138))
           || (b3 =? 168) || (b3 =? 169) || (b3 =? 175)))
   || ((b1 =? 226) && (b2 =? 129) && (b3 =? 159))
   || ((b1 =? 227) && (b2 =? 128) && (b3 =? 128)))%N.

(** The white space is removed from the start, one character at a time. *)
Fixpoint trimLeft (s : string) : string :=
  match s with
  | EmptyString => EmptyString
  | String c1 r1 =>
      if isSpace c1 then trimLeft r1
      else
        match r1 with
        | EmptyString => s
        | String c2 r2 =>
            if isSpace2 c1 c2 then trimLeft r2
            else
              match r2 with
              | EmptyString => s
              | String c3 r3 => if isSpace3 c1 c2 c3 then trimLeft r3 else s
              end
        end
  end.

(** The same on the reversed string, in which the last byte of a
    character comes first: [utf8.DecodeLastRuneInString] goes back to the
    byte that starts the last character. *)
Fixpoint trimLeft_reversed (s : string) : string :=
  match s with
  | EmptyString => EmptyString
  | String c1 r1 =>
      if isSpace c1 then trimLeft_reversed r1
      else
        match r1 with
        | EmptyString => s
        | String c2 r2 =>
            if isSpace2 c2 c1 then trimLeft_reversed r2
            else
              match r2 with
              | EmptyString => s
              | String c3 r3 =>
                  if isSpace3 c3 c2 c1 then trimLeft_reversed r3 else s
              end
        end
  end.

Definition trimRight (s : string) : string :=
  String.rev (trimLeft_reversed (String.rev s)).

Definition TrimSpace (s : string) : string := trimRight (trimLeft s).

(** The loop of [parseHeaders]: a header that does not split in two parts
    at [":"] ends the process. *)
Fixpoint parseHeaders_loop (headers : list string)
    (result : gmap string string) : outcome (gmap string string) :=
  match headers with
  | [] => Ret result
  | header :: rest =>
      match split_colon header with
      | [k; v] => parseHeaders_loop rest (<[TrimSpace k := TrimSpace v]> result)
      | _ => Fatal "invalid header format"
      end
  end.

Definition parseHeaders (headers : option (list string))
    : outcome (option (gmap string string)) :=
  match headers with
  | None => Ret None
  | Some headers =>
      match parseHeaders_loop headers ∅ with
      | Ret result => Ret (Some result)
      | Panic w => Panic w
      | Fatal w => Fatal w
      end
  end.

(** [for k, v := range m { a = append(a, k, v) }], in the order in which
    the map is listed. *)
Definition appendPairs (m : option (gmap string string)) (a : list string)
    : list string :=
  a ++ flat_map (fun kv => [fst kv; snd kv]) (map_to_list (default ∅ m)).

Section Sinker.
Context `{Collaborators}.

Record Sinker := {
  (* Constructor (ordered) *)
  mode : SubstreamsMode;
  pkg : option Package;
  outputModule : option Module;
  outputModuleHash : string;
  clientConfig : option SubstreamsClientConfig;
  logger : Logger;
  tracer : bool;
  (* Options *)
  backOff : BackOff;
  buffer : option blockDataBuffer;
  blockRange : option Range;
  infiniteRetry : bool;
  finalBlocksOnly : bool;
  livenessChecker : option (Clock -> bool);
  extraHeaders : option (list string);
  (* State; the statistics [stats] and the embedded [Shutter] are left out *)
  requestActiveStartBlock : Z }.

Definition set_logger (l : Logger) (s : Sinker) : Sinker :=
  {| mode := mode s; pkg := pkg s; outputModule := outputModule s;
     outputModuleHash := outputModuleHash s; clientConfig := clientConfig s;
     logger := l; tracer := tracer s; backOff := backOff s;
     buffer := buffer s; blockRange := blockRange s;
     infiniteRetry := infiniteRetry s; finalBlocksOnly := finalBlocksOnly s;
     livenessChecker := livenessChecker s; extraHeaders := extraHeaders s;
     requestActiveStartBlock := requestActiveStartBlock s |}.

Definition set_buffer (b : option blockDataBuffer) (s : Sinker) : Sinker :=
  {| mode := mode s; pkg := pkg s; outputModule := outputModule s;
     outputModuleHash := outputModuleHash s; clientConfig := clientConfig s;
     logger := logger s; tracer := tracer s; backOff := backOff s;
     buffer := b; blockRange := blockRange s;
     infiniteRetry := infiniteRetry s; finalBlocksOnly := finalBlocksOnly s;
     livenessChecker := livenessChecker s; extraHeaders := extraHeaders s;
     requestActiveStartBlock := requestActiveStartBlock s |}.

Definition set_requestActiveStartBlock (b : Z) (s : Sinker) : Sinker :=
  {| mode := mode s; pkg := pkg s; outputModule := outputModule s;
     outputModuleHash := outputModuleHash s; clientConfig := clientConfig s;
     logger := logger s; tracer := tracer s; backOff := backOff s;
     buffer := buffer s; blockRange := blockRange s;
     infiniteRetry := infiniteRetry s; finalBlocksOnly := finalBlocksOnly s;
     livenessChecker := livenessChecker s; extraHeaders := extraHeaders s;
     requestActiveStartBlock := b |}.

(** [s.logger.Debug(msg)] and the like. *)
Definition log (lvl : Level) (msg : string) (s : Sinker) : Sinker :=
  set_logger (Logger_log lvl msg (logger s)) s.

(** An [Option] is a function that updates the sinker under construction. *)
Definition Option := Sinker -> Sinker.

(** [New], up to the statement that logs the configuration: the sinker
    with the options applied and the undo buffer discarded if final blocks
    only are requested. *)
Definition New_sinker (mode' : SubstreamsMode) (pkg' : option Package)
    (outputModule' : option Module) (hash : list Z)
    (clientConfig' : option SubstreamsClientConfig) (logger' : Logger)
    (tracer' : bool) (opts : list Option) : Sinker :=
  let bo := NewExponentialBackOff in
  let s :=
    {| mode := mode'; pkg := pkg'; outputModule := outputModule';
       outputModuleHash := hex_EncodeToString hash;
       clientConfig := clientConfig'; logger := logger'; tracer := tracer';
       backOff := bo; buffer := None; blockRange := None;
       infiniteRetry := false; finalBlocksOnly := false;
       livenessChecker := None; extraHeaders := None;
       requestActiveStartBlock := 0 |} in
  let s := fold_left (fun s opt => opt s) opts s in
  if finalBlocksOnly s && bool_decide (is_Some (buffer s)) then
    set_buffer None
      (log DebugLevel
         "discarding undo buffer since final blocks only requested" s)
  else s.

(** [New]. The statement that logs the configuration reads
    [s.pkg.Modules.Modules], [s.outputModule.Name] and
    [s.outputModule.Output.Type]: it panics where one of these pointers is
    [nil]. The only [return] gives the sinker and a [nil] error. *)
Definition New (mode' : SubstreamsMode) (pkg' : option Package)
    (outputModule' : option Module) (hash : list Z)
    (clientConfig' : option SubstreamsClientConfig) (logger' : Logger)
    (tracer' : bool) (opts : list Option)
    : outcome (Sinker * option error) :=
  let s := New_sinker mode' pkg' outputModule' hash clientConfig' logger'
             tracer' opts in
  match pkg s with
  | None => Panic "nil pointer dereference: s.pkg"
  | Some p =>
      match pkg_Modules p with
      | None => Panic "nil pointer dereference: s.pkg.Modules"
      | Some _ =>
          match outputModule s with
          | None => Panic "nil pointer dereference: s.outputModule"
          | Some m =>
              match Output m with
              | None => Panic "nil pointer dereference: s.outputModule.Output"
              | Some _ => Ret (log InfoLevel "sinker configured" s, None)
              end
          end
      end
  end.

(** [adjustedEndBlock]: when an undo buffer is used, the request ends
    [Capacity] blocks after the configured end. *)
Definition adjustedEndBlock (s : Sinker) : Z :=
  match blockRange s with
  | None => 0
  | Some r =>
      match Range_EndBlock r with
      | None => 0
      | Some endBlock =>
          match buffer s with
          | Some b => wrap64 (endBlock + uint64_of_int (Capacity b))
          | None => endBlock
          end
      end
  end.

(** ** The handler

    The user's handler is known by the calls it receives. What a call
    returns may depend on the calls made before it ([respond]);
    [isCompletionHandler] tells whether the handler also implements
    [SinkerCompletionHandler]. *)
Inductive HandlerCall :=
| HandleBlockScopedData (data : BlockScopedData) (isLive : option bool)
    (cursor : Cursor)
| HandleBlockUndoSignal (undo : BlockUndoSignal) (cursor : Cursor)
| HandleBlockRangeCompletion (cursor : option Cursor).

Record SinkerHandler := {
  respond : list HandlerCall -> HandlerCall -> option error;
  isCompletionHandler : bool }.

(** The request sent for one session, with the headers added to its
    outgoing context. *)
Record Request := {
  StartBlockNum : Z;
  StopBlockNum : Z;
  StartCursor : string;
  FinalBlocksOnly : bool;
  req_Modules : option (list Module);
  OutputModule : string;
  ProductionMode : bool;
  outgoingHeaders : list string }.

(** ** The state of a run *)
Record State := {
  sinker : Sinker;
  metrics : gmap (string * string) Z;
  calls : list HandlerCall;
  requests : list Request;
  sleeps : list Z }.

Definition set_sinker (s : Sinker) (st : State) : State :=
  {| sinker := s; metrics := metrics st; calls := calls st;
     requests := requests st; sleeps := sleeps st |}.

Definition set_metrics (m : gmap (string * string) Z) (st : State) : State :=
  {| sinker := sinker st; metrics := m; calls := calls st;
     requests := requests st; sleeps := sleeps st |}.

Definition add_request (r : Request) (st : State) : State :=
  {| sinker := sinker st; metrics := metrics st; calls := calls st;
     requests := requests st ++ [r]; sleeps := sleeps st |}.

Definition add_sleep (d : Z) (st : State) : State :=
  {| sinker := sinker st; metrics := metrics st; calls := calls st;
     requests := requests st; sleeps := sleeps st ++ [d] |}.

Definition logSt (lvl : Level) (msg : string) (st : State) : State :=
  set_sinker (log lvl msg (sinker st)) st.

(** A debug message that the source writes only if [s.tracer.Enabled()]. *)
Definition traceSt (msg : string) (st : State) : State :=
  if tracer (sinker st) then logSt DebugLevel msg st else st.

(** A call of the handler: it is recorded, and its result is what the
    handler answers after the calls recorded before. *)
Definition call (h : SinkerHandler) (c : HandlerCall) (st : State)
    : State * option error :=
  ({| sinker := sinker st; metrics := metrics st; calls := calls st ++ [c];
      requests := requests st; sleeps := sleeps st |},
   respond h (calls st) c).

(** ** [doRequest]: the [Progress] message *)

(** The body of the loop over [msg.RunningJobs]. *)
Definition runningJob (acc : Z * gmap Z Z * gmap Z Z) (j : Job)
    : Z * gmap Z Z * gmap Z Z :=
  let '(totalProcessedBlocks, latestEndBlockPerStage, jobsPerStage) := acc in
  let totalProcessedBlocks := wrap64 (totalProcessedBlocks + ProcessedBlocks j) in
  let jobEndBlock := wrap64 (job_StartBlock j + ProcessedBlocks j) in
  let latestEndBlockPerStage :=
    match latestEndBlockPerStage !! job_Stage j with
    | Some prevEndBlock =>
        if jobEndBlock >? prevEndBlock
        then <[job_Stage j := jobEndBlock]> latestEndBlockPerStage
        else latestEndBlockPerStage
    | None => <[job_Stage j := jobEndBlock]> latestEndBlockPerStage
    end in
  let jobsPerStage :=
    <[job_Stage j := wrap64 (default 0 (jobsPerStage !! job_Stage j) + 1)]>
      jobsPerStage in
  (totalProcessedBlocks, latestEndBlockPerStage, jobsPerStage).

(** [for k, val := range perStage { metric.SetUint64(val, stageString(k)) }] *)
Definition setPerStage (name : string) (perStage : gmap Z Z)
    (m : gmap (string * string) Z) : gmap (string * string) Z :=
  map_fold (fun k val m => SetUint64 name val (stageString k) m) m perStage.

(** The loop over the completed ranges of stage [i], from range [j] on;
    [n] is [len(msg.Stages)]. *)
Fixpoint completedRanges (s : Sinker) (n i j : Z) (ranges : list BlockRange)
    (acc : gmap (string * string) Z * Z) : gmap (string * string) Z * Z :=
  match ranges with
  | [] => acc
  | r :: rest =>
      let '(m, totalProcessedBlocks) := acc in
      let m :=
        if bool_decide (mode s = SubstreamsModeProduction) && (i =? n - 1)
        then
          if (requestActiveStartBlock s <=? StartBlock r)
             && (EndBlock r >=? requestActiveStartBlock s)
          then SetUint64 "ProgressMessageLastContiguousBlock" (EndBlock r)
                 (stageString (uint32_of_int i)) m
          else m
        else
          if j =? 0
          then SetUint64 "ProgressMessageLastContiguousBlock" (EndBlock r)
                 (stageString (uint32_of_int i)) m
          else m in
      completedRanges s n i (j + 1) rest
        (m, wrap64 (totalProcessedBlocks
                    + wrap64 (EndBlock r - StartBlock r)))
  end.

(** The loop over [msg.Stages], from stage [i] on. *)
Fixpoint stagesLoop (s : Sinker) (n i : Z) (stages : list Stage)
    (acc : gmap (string * string) Z * Z) : gmap (string * string) Z * Z :=
  match stages with
  | [] => acc
  | stage :: rest =>
      stagesLoop s n (i + 1) rest
        (completedRanges s n i 0 (CompletedRanges stage) acc)
  end.

(** The [Response_Progress] case of [doRequest]. *)
Definition handleProgress (msg : ModulesProgress) (st : State) : State :=
  let '(totalProcessedBlocks, latestEndBlockPerStage, jobsPerStage) :=
    fold_left runningJob (RunningJobs msg) (0, ∅, ∅) in
  let m := setPerStage "ProgressMessageLastBlock" latestEndBlockPerStage
             (metrics st) in
  let m := setPerStage "ProgressMessageRunningJobs" jobsPerStage m in
  let '(m, totalProcessedBlocks) :=
    stagesLoop (sinker st) (Z.of_nat (length (Stages msg))) 0 (Stages msg)
      (m, totalProcessedBlocks) in
  let m := Inc "ProgressMessageCount" m in
  let m := SetUint64 "ProgressMessageTotalProcessedBlocks"
             totalProcessedBlocks EmptyString m in
  traceSt "received response Progress" (set_metrics m st).

(** ** [doRequest]: the other messages *)

(** The loop over [dataToProcess] of the [Response_BlockScopedData] case. *)
Fixpoint processData (h : SinkerHandler) (dataToProcess : list BlockScopedData)
    (st : State) : State * option error :=
  match dataToProcess with
  | [] => (st, None)
  | blockScopedData :: rest =>
      match NewCursor (bsd_Cursor blockScopedData) with
      | inr err =>
          (st, Some (fmt_Errorf "invalid received cursor, 'bstream' library in here is probably not up to date" err))
      | inl currentCursor =>
          let isLive :=
            match livenessChecker (sinker st) with
            | Some IsLive => Some (IsLive (bsd_Clock blockScopedData))
            | None => None
            end in
          match call h (HandleBlockScopedData blockScopedData isLive
                          currentCursor) st with
          | (st, Some err) =>
              (st, Some (fmt_Errorf "handle BlockScopedData message at block" err))
          | (st, None) => processData h rest st
          end
      end
  end.

(** The [Response_BlockScopedData] case: the state, the active cursor and
    the error returned, if the case returns from [doRequest]. *)
Definition handleBlockScopedData (h : SinkerHandler) (data : BlockScopedData)
    (activeCursor : option Cursor) (st : State)
    : State * option Cursor * option error :=
  let st := traceSt "received response BlockScopedData" st in
  let m := SetUint64 "HeadBlockNumber" (Clock_Number (bsd_Clock data)) EmptyString
             (metrics st) in
  let m := Inc "DataMessageCount" m in
  let m := SetUint64 "BackprocessingCompletion" 1 EmptyString m in
  let st := set_metrics m st in
  match NewCursor (bsd_Cursor data) with
  | inr err =>
      (st, activeCursor,
       Some (fmt_Errorf "invalid received cursor, 'bstream' library in here is probably not up to date" err))
  | inl cursor =>
      let activeCursor := Some cursor in
      match buffer (sinker st) with
      | None =>
          let '(st, err) := processData h [data] st in (st, activeCursor, err)
      | Some b =>
          match buffer_HandleBlockScopedData b data with
          | (b, inr err) =>
              (set_sinker (set_buffer (Some b) (sinker st)) st, activeCursor,
               Some (fmt_Errorf "buffer add block data" err))
          | (b, inl dataToProcess) =>
              let st := set_sinker (set_buffer (Some b) (sinker st)) st in
              let '(st, err) := processData h dataToProcess st in
              (st, activeCursor, err)
          end
      end
  end.

(** The [Response_BlockUndoSignal] case. *)
Definition handleBlockUndoSignal (h : SinkerHandler) (undo : BlockUndoSignal)
    (activeCursor : option Cursor) (st : State)
    : State * option Cursor * option error :=
  let st := traceSt "received response BlockUndoSignal" st in
  match NewCursor (LastValidCursor undo) with
  | inr err =>
      (st, activeCursor,
       Some (fmt_Errorf "invalid received cursor, 'bstream' library in here is probably not up to date" err))
  | inl cursor =>
      let activeCursor := Some cursor in
      let m := Inc "UndoMessageCount" (metrics st) in
      let m := SetUint64 "HeadBlockNumber" (ref_Number (LastValidBlock undo))
                 EmptyString m in
      let st := set_metrics m st in
      match buffer (sinker st) with
      | None =>
          match call h (HandleBlockUndoSignal undo cursor) st with
          | (st, Some err) =>
              (st, activeCursor, Some (fmt_Errorf "handle BlockUndoSignal" err))
          | (st, None) => (st, activeCursor, None)
          end
      | Some b =>
          match buffer_HandleBlockUndoSignal b undo with
          | (b, Some err) =>
              (set_sinker (set_buffer (Some b) (sinker st)) st, activeCursor,
               Some (fmt_Errorf "buffer undo block" err))
          | (b, None) =>
              (set_sinker (set_buffer (Some b) (sinker st)) st, activeCursor,
               None)
          end
      end
  end.

(** The [Response_Session] case. *)
Definition handleSession (r : SessionInit) (st : State) : State :=
  let st := logSt InfoLevel "session initialized with remote endpoint" st in
  set_sinker (set_requestActiveStartBlock (ResolvedStartBlock r) (sinker st))
    st.

(** The type switch on [resp.Message]. *)
Definition handleMessage (h : SinkerHandler) (resp : Response)
    (activeCursor : option Cursor) (st : State)
    : State * option Cursor * option error :=
  match resp with
  | Response_Progress msg => (handleProgress msg st, activeCursor, None)
  | Response_BlockScopedData data =>
      handleBlockScopedData h data activeCursor st
  | Response_BlockUndoSignal undo =>
      handleBlockUndoSignal h undo activeCursor st
  | Response_DebugSnapshotData | Response_DebugSnapshotComplete =>
      (logSt WarnLevel
         "received debug snapshot message, there is no reason to receive those here"
         st, activeCursor, None)
  | Response_Session r => (handleSession r st, activeCursor, None)
  | Response_Other =>
      (set_metrics (Inc "UnknownMessageCount" (metrics st))
         (logSt InfoLevel "received unknown type of message" st),
       activeCursor, None)
  end.

(** ** [doRequest]: the receive loop *)

(** What a session receives: [ssClient.Blocks] fails, or [stream.Recv]
    returns the messages [msgs], one per call, and then the error [err]. *)
Inductive Stream :=
| BlocksFailed (err : error)
| Receive (msgs : list Response) (err : error).

(** What [doRequest] returns for an error of [stream.Recv]. *)
Definition recvError (err : error) : error :=
  if errors_Is err io_EOF then err
  else
    match AsGRPCError err with
    | Some codes.Unauthenticated => fmt_Errorf "stream failure" err
    | Some codes.InvalidArgument => fmt_Errorf "stream invalid" err
    | _ => retryable err
    end.

(** The [for] loop of [doRequest]. *)
Fixpoint recvLoop (h : SinkerHandler) (msgs : list Response) (final : error)
    (activeCursor : option Cursor) (receivedMessage : bool) (st : State)
    : State * (option Cursor * bool * option error) :=
  let st := traceSt "substreams waiting to receive message" st in
  match msgs with
  | [] => (st, (activeCursor, receivedMessage, Some (recvError final)))
  | resp :: rest =>
      let receivedMessage := true in
      match handleMessage h resp activeCursor st with
      | (st, activeCursor, Some err) =>
          (st, (activeCursor, receivedMessage, Some err))
      | (st, activeCursor, None) =>
          recvLoop h rest final activeCursor receivedMessage st
      end
  end.

Definition doRequest (h : SinkerHandler) (activeCursor : option Cursor)
    (stream : Stream) (st : State)
    : State * (option Cursor * bool * option error) :=
  let st := logSt DebugLevel "launching substreams request" st in
  let receivedMessage := false in
  match stream with
  | BlocksFailed err =>
      (st, (activeCursor, receivedMessage,
            Some (retryable
                    (fmt_Errorf "call sf.substreams.rpc.v2.Stream/Blocks" err))))
  | Receive msgs final => recvLoop h msgs final activeCursor receivedMessage st
  end.

(** ** [run]: the retry loop *)

(** What happens around one session: the stream it receives, the value of
    [ctx.Err()] when the session has returned, and whether [ctx.Done()] is
    closed when the backoff is asked for the next delay
    ([backoff.WithContext] then answers [Stop]). *)
Record Attempt := {
  stream : Stream;
  ctxErr : option error;
  ctxDone : bool }.

(** [adjustedEndBlock] also writes a debug message when it adjusts. *)
Definition adjustedEndBlock_log (st : State) : State :=
  match blockRange (sinker st) with
  | Some r =>
      match Range_EndBlock r, buffer (sinker st) with
      | Some _, Some _ =>
          logSt DebugLevel "adjusted request end block for buffer" st
      | _, _ => st
      end
  | None => st
  end.

(** The request built at the top of the loop. *)
Definition newRequest (s : Sinker) (startBlock stopBlock : Z)
    (headersArray : list string) (activeCursor : option Cursor) : Request :=
  {| StartBlockNum := int64_of_uint64 startBlock;
     StopBlockNum := stopBlock;
     StartCursor := Cursor_String activeCursor;
     FinalBlocksOnly := finalBlocksOnly s;
     req_Modules := match pkg s with
                    | Some p => pkg_Modules p
                    | None => None
                    end;
     OutputModule := match outputModule s with
                     | Some m => Name m
                     | None => EmptyString
                     end;
     ProductionMode := bool_decide (mode s = SubstreamsModeProduction);
     outgoingHeaders := headersArray |}.

(** One session of the loop: the request is built and sent, and the
    backoff is reset if the session received at least one message. *)
Definition runSession (h : SinkerHandler) (startBlock stopBlock : Z)
    (headersArray : list string) (a : Attempt) (backOff : BackOff)
    (activeCursor : option Cursor) (st : State)
    : State * BackOff * option Cursor * option error :=
  let req := newRequest (sinker st) startBlock stopBlock headersArray
               activeCursor in
  let st := add_request req st in
  let '(st, (activeCursor, receivedMessage, err)) :=
    doRequest h activeCursor (stream a) st in
  (* If we received at least one message, we must reset the backoff *)
  let backOff := if receivedMessage then Reset backOff else backOff in
  (st, backOff, activeCursor, err).

(** [errors.Is(ctx.Err(), context.Canceled)] *)
Definition ctxCanceled (ctxErr : option error) : bool :=
  match ctxErr with
  | Some err => errors_Is err context_Canceled
  | None => false
  end.

(** The [for] loop of [run], one iteration for each attempt of the
    script; the loop is still [Running] if the script ends before it
    returns. *)
Fixpoint runLoop (h : SinkerHandler) (startBlock stopBlock : Z)
    (headersArray : list string) (script : list Attempt) (backOff : BackOff)
    (activeCursor : option Cursor) (st : State)
    : State * ended (option Cursor * option error) :=
  match script with
  | [] => (st, Running)
  | a :: script =>
      let '(st, backOff, activeCursor, err) :=
        runSession h startBlock stopBlock headersArray a backOff activeCursor
          st in
      match err with
      | None =>
          runLoop h startBlock stopBlock headersArray script backOff
            activeCursor st
      | Some err =>
          if errors_Is err io_EOF then (st, Returned (activeCursor, None))
          else if ctxCanceled (ctxErr a) then
            (logSt DebugLevel
               "substreams encountered an error but we are currently terminating, ignoring it"
               st, Returned (activeCursor, None))
          else
            (* Retryable or not, we increment the error counter *)
            let st := set_metrics (Inc "SubstreamsErrorCount" (metrics st)) st in
            match errors_As_Retryable err with
            | Some cause =>
                let st := logSt ErrorLevel
                            "substreams encountered a retryable error" st in
                let '(sleepFor, backOff) :=
                  if ctxDone a then (Stop, backOff) else NextBackOff backOff in
                if sleepFor =? Stop then
                  (st, Returned (activeCursor,
                                 Some (fmt_Errorf2 ErrBackOffExpired cause)))
                else
                  let st := logSt InfoLevel "sleeping before re-connecting" st in
                  runLoop h startBlock stopBlock headersArray script backOff
                    activeCursor (add_sleep sleepFor st)
            | None => (st, Returned (activeCursor, Some err))
            end
      end
  end.

(** What [client.NewSubstreamsClient] returns to [run]. *)
Record ClientResult := {
  clientErr : option error;
  clientHeaders : option (gmap string string) }.

(** The backoff used by the loop, before [backoff.WithContext]. *)
Definition run_backOff (s : Sinker) : BackOff :=
  if negb (infiniteRetry s) then WithMaxRetries (backOff s) 15 else backOff s.

(** The headers added to the context of every request: the extra headers
    of the sinker, then the headers of the client merged with them. *)
Definition run_headersArray (s : Sinker) (headers : option (gmap string string))
    : outcome (list string) :=
  if bool_decide (0 < length (default [] (extraHeaders s)))%nat
     || bool_decide (is_Some headers)
  then
    match parseHeaders (extraHeaders s) with
    | Ret parsed =>
        let headers := Some (default ∅ parsed ∪ default ∅ headers) in
        Ret (appendPairs headers (appendPairs parsed []))
    | Panic w => Panic w
    | Fatal w => Fatal w
    end
  else Ret [].

Definition run (h : SinkerHandler) (client : ClientResult)
    (script : list Attempt) (cursor : option Cursor) (st : State)
    : State * ended (option Cursor * option error) :=
  let activeCursor := cursor in
  match clientErr client with
  | Some err =>
      (st, Returned (activeCursor, Some (fmt_Errorf "new substreams client" err)))
  | None =>
      match run_headersArray (sinker st) (clientHeaders client) with
      | Panic w | Fatal w => (st, Exited w)
      | Ret headersArray =>
          let backOff := run_backOff (sinker st) in
          let st := logSt DebugLevel "configured default backoff" st in
          let st :=
            if negb (infiniteRetry (sinker st))
            then logSt DebugLevel "configured backoff to stop after 15 retries" st
            else st in
          let startBlock := Range_StartBlock (blockRange (sinker st)) in
          let stopBlock := adjustedEndBlock (sinker st) in
          let st := adjustedEndBlock_log st in
          runLoop h startBlock stopBlock headersArray script backOff
            activeCursor st
      end
  end.

(** ** [Run]

    [Run] ends by a call of [s.Shutdown]: the result is the error given to
    it. [ctxErrAtShutdown] is the value of [ctx.Err()] when [Run] reads it. *)
Definition Shutdown (err : option error) (st : State)
    : State * ended (option error) :=
  (logSt InfoLevel "sinker terminating" st, Returned err).

Definition Run (h : SinkerHandler) (client : ClientResult)
    (script : list Attempt) (ctxErrAtShutdown : option error)
    (cursor : option Cursor) (st : State) : State * ended (option error) :=
  let st :=
    if adjustedEndBlock (sinker st) =? 0 then adjustedEndBlock_log st
    else adjustedEndBlock_log (adjustedEndBlock_log st) in
  let st := logSt InfoLevel "starting sinker" st in
  match run h client script cursor st with
  | (st, Running) => (st, Running)
  | (st, Exited w) => (st, Exited w)
  | (st, Returned (lastCursor, err)) =>
      let shutdownErr :=
        if bool_decide (ctxErrAtShutdown = Some context_Canceled)
        then None else err in
      match err with
      | None =>
          let st := logSt InfoLevel
                      "substreams ended correctly, reached your stop block" st in
          if isCompletionHandler h then
            let st := logSt InfoLevel
                        "substreams handler has completion callback defined, calling it"
                        st in
            match call h (HandleBlockRangeCompletion lastCursor) st with
            | (st, Some err) =>
                Shutdown
                  (Some (fmt_Errorf "sinker completion handler error" err)) st
            | (st, None) => Shutdown shutdownErr st
            end
          else Shutdown shutdownErr st
      | Some _ => Shutdown shutdownErr st
      end
  end.

(** ** The options *)

(** Modelled from the spec: the options of the package ([options.go] is
    not part of these sources) set the field of their name, after the table
    of the configuration options. [configure] writes the fields that
    options set. *)
Definition configure (s : Sinker) (backOff' : BackOff)
    (buffer' : option blockDataBuffer) (blockRange' : option Range)
    (infiniteRetry' finalBlocksOnly' : bool)
    (livenessChecker' : option (Clock -> bool))
    (extraHeaders' : option (list string)) : Sinker :=
  {| mode := mode s; pkg := pkg s; outputModule := outputModule s;
     outputModuleHash := outputModuleHash s; clientConfig := clientConfig s;
     logger := logger s; tracer := tracer s; backOff := backOff';
     buffer := buffer'; blockRange := blockRange';
     infiniteRetry := infiniteRetry'; finalBlocksOnly := finalBlocksOnly';
     livenessChecker := livenessChecker'; extraHeaders := extraHeaders';
     requestActiveStartBlock := requestActiveStartBlock s |}.

(** Modelled from the spec: [WithBlockRange(range)] bounds the sink to the
    range. *)
Definition WithBlockRange (r : option Range) : Option := fun s =>
  configure s (backOff s) (buffer s) r (infiniteRetry s) (finalBlocksOnly s)
    (livenessChecker s) (extraHeaders s).

(** Modelled from the spec: [WithFinalBlocksOnly()] requests final blocks
    only. *)
Definition WithFinalBlocksOnly : Option := fun s =>
  configure s (backOff s) (buffer s) (blockRange s) (infiniteRetry s) true
    (livenessChecker s) (extraHeaders s).

(** Modelled from the spec: [WithInfiniteRetry()] removes the cap on the
    retries. *)
Definition WithInfiniteRetry : Option := fun s =>
  configure s (backOff s) (buffer s) (blockRange s) true (finalBlocksOnly s)
    (livenessChecker s) (extraHeaders s).

(** Modelled from the spec: [WithRetryBackOff(bo)] replaces the default
    backoff. *)
Definition WithRetryBackOff (bo : BackOff) : Option := fun s =>
  configure s bo (buffer s) (blockRange s) (infiniteRetry s)
    (finalBlocksOnly s) (livenessChecker s) (extraHeaders s).

(** Modelled from the spec: [WithLivenessChecker(lc)] enables the report
    of liveness for each block. *)
Definition WithLivenessChecker (IsLive : Clock -> bool) : Option := fun s =>
  configure s (backOff s) (buffer s) (blockRange s) (infiniteRetry s)
    (finalBlocksOnly s) (Some IsLive) (extraHeaders s).

(** Modelled from the spec: [WithExtraHeaders(kv...)] adds headers to each
    request. *)
Definition WithExtraHeaders (headers : list string) : Option := fun s =>
  configure s (backOff s) (buffer s) (blockRange s) (infiniteRetry s)
    (finalBlocksOnly s) (livenessChecker s) (Some headers).

(** Modelled from the spec: [WithBlockDataBuffer(N)] sets the undo buffer,
    given here as the buffer of capacity [N], or [None] for [N = 0], which
    disables buffering. *)
Definition WithBlockDataBuffer (b : option blockDataBuffer) : Option :=
  fun s =>
  configure s (backOff s) b (blockRange s) (infiniteRetry s)
    (finalBlocksOnly s) (livenessChecker s) (extraHeaders s).

(** The state in which a run starts. *)
Definition initial (s : Sinker) : State :=
  {| sinker := s; metrics := ∅; calls := []; requests := []; sleeps := [] |}.

End Sinker.

Arguments call : simpl never.
Arguments logSt : simpl never.
Arguments traceSt : simpl never.
Arguments handleProgress : simpl never.
Arguments handleMessage : simpl never.
Arguments doRequest : simpl never.
Arguments runSession : simpl never.

(** ** The earlier variant of the sinker

    The sources also hold an earlier [sinker.go]. It has no
    [adjustedEndBlock]: [run] takes the end of the range adjusted by
    [adjustStreamRange] and asks for [math.MaxUint64] when there is none. *)
Module Legacy.
Section Legacy.
Context `{Collaborators}.

(** The end of the range returned by [adjustStreamRange]. *)
Definition adjustStreamRange_EndBlock (s : Sinker) : option Z :=
  match buffer s, blockRange s with
  | Some b, Some r =>
      match Range_EndBlock r with
      | Some endBlock => Some (wrap64 (endBlock + uint64_of_int (Capacity b)))
      | None => None
      end
  | None, Some r => Range_EndBlock r
  | _, None => None
  end.

(** The [stopBlock] of [run]. *)
Definition stopBlock (s : Sinker) : Z :=
  match adjustStreamRange_EndBlock s with
  | Some endBlock => endBlock
  | None => MaxUint64
  end.

End Legacy.
End Legacy.

(** ** A simple implementation of the collaborators

    Used to run the model on concrete inputs. *)
Module Sample.

(** Modelled from the spec: the undo buffer ([buffer.go] is not part of
    these sources), a bounded queue of the blocks received. A new block is
    appended; if the buffer was full, the oldest block is released. An
    undo drops the blocks above the last valid block, and fails if none
    remains. *)
Record undoBuffer := { capacity : Z; blocks : list BlockScopedData }.

Definition undoBuffer_HandleBlockScopedData (b : undoBuffer)
    (d : BlockScopedData) : undoBuffer * (list BlockScopedData + error) :=
  match blocks b with
  | oldest :: rest =>
      if capacity b <=? Z.of_nat (length (blocks b))
      then ({| capacity := capacity b; blocks := rest ++ [d] |}, inl [oldest])
      else ({| capacity := capacity b; blocks := blocks b ++ [d] |}, inl [])
  | [] => ({| capacity := capacity b; blocks := [d] |}, inl [])
  end.

Definition undoBuffer_HandleBlockUndoSignal (b : undoBuffer)
    (u : BlockUndoSignal) : undoBuffer * option error :=
  let kept :=
    filter (fun d => Clock_Number (bsd_Clock d) <= ref_Number (LastValidBlock u))
      (blocks b) in
  match kept with
  | [] => (b, Some (errors_New "undo out of window"))
  | _ => ({| capacity := capacity b; blocks := kept |}, None)
  end.

(** Modelled from the spec: the block range, [start, end) with an optional
    end. On a [nil] range the start is taken to be [0]. *)
Record range := { startBlock : Z; endBlock : option Z }.

(** Modelled from the spec: the cursor, an opaque string; the strings that
    start with ["?"] stand for the ones that do not decode. *)
Definition parseCursor (s : string) : string + error :=
  match s with
  | String "?" _ => inr (errors_New "invalid cursor")
  | _ => inl s
  end.

(** The code of the first gRPC status of the chain of an error. *)
Fixpoint grpcCode (err : error) : option codes.Code :=
  match err with
  | status_Error c _ => Some c
  | fmt_Errorf _ e | RetryableError e => grpcCode e
  | _ => None
  end.

Definition collaborators : Collaborators :=
  {| Cursor := string;
     NewCursor := parseCursor;
     Cursor_String := default EmptyString;
     blockDataBuffer := undoBuffer;
     Capacity := capacity;
     buffer_HandleBlockScopedData := undoBuffer_HandleBlockScopedData;
     buffer_HandleBlockUndoSignal := undoBuffer_HandleBlockUndoSignal;
     Range := range;
     Range_StartBlock := fun r => from_option startBlock 0 r;
     Range_EndBlock := endBlock;
     AsGRPCError := grpcCode |}.

#[local] Existing Instance collaborators.

(** A package with one mapper module, a logger at the info level, and
    handlers that accept every call. *)
Definition mapper : Module :=
  {| Name := "map_events"; Output := Some {| Output_Type := "proto:events" |} |}.

Definition package : Package := {| pkg_Modules := Some [mapper] |}.

Definition infoLogger : Logger := {| debugEnabled := false; entries := [] |}.

Definition plainHandler : SinkerHandler :=
  {| respond := fun _ _ => None; isCompletionHandler := false |}.

Definition completionHandler : SinkerHandler :=
  {| respond := fun _ _ => None; isCompletionHandler := true |}.


Definition block (n : Z) (cursor : string) : BlockScopedData :=
  {| bsd_Clock := {| Clock_Id := cursor; Clock_Number := n;
                     Clock_Timestamp := 0 |};
     bsd_Cursor := cursor; bsd_OutputName := "map_events";
     bsd_OutputValue := []; bsd_FinalBlockHeight := 0 |}.

Definition okClient : ClientResult :=
  {| clientErr := None; clientHeaders := None |}.

(** The sinker that [New] builds from the sample package and the given
    options (the sinker with no fields set where [New] does not return). *)
Definition newSinker (mode : SubstreamsMode)
    (opts : list Option) : Sinker :=
  match New mode (Some package) (Some mapper) [] None infoLogger false opts with
  | Ret (s, _) => s
  | _ =>
      {| mode := mode; pkg := None; outputModule := None;
         outputModuleHash := EmptyString; clientConfig := None; logger := infoLogger;
         tracer := false; backOff := NewExponentialBackOff; buffer := None;
         blockRange := None; infiniteRetry := false; finalBlocksOnly := false;
         livenessChecker := None; extraHeaders := None;
         requestActiveStartBlock := 0 |}
  end.

(** *** Scenarios *)

Definition attempt (s : Stream) (ctxErr : option error) : Attempt :=
  {| stream := s; ctxErr := ctxErr; ctxDone := false |}.

(** The range [100, 105) and the sinkers that stream it. *)
Definition bounded : range := {| startBlock := 100; endBlock := Some 105 |}.

Definition unbounded : range := {| startBlock := 100; endBlock := None |}.

Definition boundedSinker : Sinker :=
  newSinker SubstreamsModeDevelopment [WithBlockRange (Some bounded)].

Definition unboundedSinker : Sinker :=
  newSinker SubstreamsModeDevelopment [WithBlockRange (Some unbounded)].

(** The range [150, 1000) in production mode. *)
Definition productionSinker : Sinker :=
  newSinker SubstreamsModeProduction
    [WithBlockRange (Some {| startBlock := 150; endBlock := Some 1000 |})].

(** The range [100, 103) behind an undo buffer of capacity 2. *)
Definition bufferedSinker : Sinker :=
  newSinker SubstreamsModeDevelopment
    [WithBlockRange (Some {| startBlock := 100; endBlock := Some 103 |});
     WithBlockDataBuffer (Some {| capacity := 2; blocks := [] |})].

(** An undo buffer is configured, and final blocks only are requested. *)
Definition finalOptions : list Option :=
  [WithBlockRange (Some bounded);
   WithBlockDataBuffer (Some {| capacity := 2; blocks := [] |});
   WithFinalBlocksOnly].

Definition finalSinker : Sinker :=
  newSinker SubstreamsModeDevelopment finalOptions.

(** The server sends an undo signal although final blocks only were
    requested. *)
Definition undoTo99 : BlockUndoSignal :=
  {| LastValidBlock := {| ref_Id := "c99"; ref_Number := 99 |};
     LastValidCursor := "c99" |}.

Definition undoStream : Stream :=
  Receive [Response_BlockUndoSignal undoTo99] io_EOF.

(** The range is consumed up to its last block. *)
Definition blocksStream : Stream :=
  Receive [Response_BlockScopedData (block 103 "c103");
           Response_BlockScopedData (block 104 "c104")] io_EOF.

(** The context is canceled after block 100: the stream fails with the
    gRPC status [Canceled]. *)
Definition canceled : error := status_Error codes.Canceled "context canceled".

Definition canceledStream : Stream :=
  Receive [Response_BlockScopedData (block 100 "c100")] canceled.

(** Two [Session] messages in one stream. *)
Definition session (resolved : Z) : SessionInit :=
  {| TraceId := "trace"; ResolvedStartBlock := resolved;
     LinearHandoffBlock := 0; MaxParallelWorkers := 10 |}.

Definition twoSessions : Stream :=
  Receive [Response_Session (session 10); Response_Session (session 20)] io_EOF.

(** The server resolves the start block to 150 and reports the progress of
    the only stage, the last one. *)
Definition progress (ranges : list BlockRange) : ModulesProgress :=
  {| RunningJobs := [];
     Stages := [{| Modules := ["map_events"]; CompletedRanges := ranges |}] |}.

Definition around150 : BlockRange := {| StartBlock := 100; EndBlock := 200 |}.
Definition from150 : BlockRange := {| StartBlock := 150; EndBlock := 200 |}.
Definition from300 : BlockRange := {| StartBlock := 300; EndBlock := 400 |}.

Definition progressStream (ranges : list BlockRange) : Stream :=
  Receive [Response_Session (session 150); Response_Progress (progress ranges)]
    io_EOF.

(** The gauge of the last contiguous block of stage 0 after a session. *)
Definition lastContiguousBlock0 (s : Sinker) (str : Stream) : option Z :=
  metrics (doRequest plainHandler None str (initial s)).1
    !! ("ProgressMessageLastContiguousBlock", stageString 0).

(** The server is unavailable: a failure that can be retried. *)
Definition unavailable : error := status_Error codes.Unavailable "unavailable".

Definition unavailableAttempt : Attempt := attempt (Receive [] unavailable) None.

(** The last failure of a row has another cause. *)
Definition reset : error := status_Error codes.Internal "connection reset".

Definition resetAttempt : Attempt := attempt (Receive [] reset) None.

End Sample.

(** * The rest of the package *)

(** ** Strings *)

(** [strings.HasPrefix] *)
Fixpoint HasPrefix (s prefix : string) {struct prefix} : bool :=
  match prefix, s with
  | EmptyString, _ => true
  | String p prefix, String c s => Ascii.eqb c p && HasPrefix s prefix
  | String _ _, EmptyString => false
  end.

(** [s[n:]] *)
Fixpoint dropString (n : nat) (s : string) : string :=
  match n, s with
  | O, _ => s
  | S n, String _ s => dropString n s
  | S _, EmptyString => EmptyString
  end.

(** [strings.TrimPrefix] *)
Definition TrimPrefix (s prefix : string) : string :=
  if HasPrefix s prefix then dropString (String.length prefix) s else s.

(** [strings.Split(s, sep)] for a separator of one character. *)
Fixpoint Split (sep : ascii) (s : string) : list string :=
  match s with
  | EmptyString => [EmptyString]
  | String c rest =>
      if Ascii.eqb c sep then EmptyString :: Split sep rest
      else
        match Split sep rest with
        | part :: parts => String c part :: parts
        | [] => [String c EmptyString]
        end
  end.

(** [strings.Count(s, sep)] for a separator of one character. *)
Fixpoint Count (sep : ascii) (s : string) : nat :=
  match s with
  | EmptyString => O
  | String c rest => (if Ascii.eqb c sep then 1 else 0) + Count sep rest
  end.

(** ** [manifest.go]: the output type of a module *)

Definition IgnoreOutputModuleType : string :=
  "@!##_IgnoreOutputModuleType_##!@".

Definition InferOutputModuleFromPackage : string :=
  "@!##_InferOutputModuleFromSpkg_##!@".

(** [sanitizeModuleType]: the unprefixed and the prefixed version of a
    type. *)
Definition sanitizeModuleType (in_ : string) : string * string :=
  if HasPrefix in_ "proto:" then (TrimPrefix in_ "proto:", in_)
  else (in_, "proto:" +:+ in_).

(** [sanitizeModuleTypes]: the same for each of the types of a list
    separated by commas. *)
Definition sanitizeModuleTypes (in_ : string) : list string * list string :=
  fold_left
    (fun acc in_ =>
       let '(unprefixedType, prefixedType) :=
         sanitizeModuleType (TrimSpace in_) in
       (fst acc ++ [unprefixedType], snd acc ++ [prefixedType]))
    (Split "," in_) ([], []).

(** [expectedModuleType.String] *)
Definition expectedModuleType_String (e : string) : string :=
  if String.eqb e IgnoreOutputModuleType then "<Ignored>" else e.

(** The validation of the output type in [ReadManifestAndModule]: the
    error returned, if any. [slices.Contains] is [existsb]. *)
Definition validateOutputType (expectedOutputModuleType actualType : string)
    : option error :=
  if negb (String.eqb expectedOutputModuleType IgnoreOutputModuleType)
     && negb (String.eqb expectedOutputModuleType EmptyString)
  then
    let '(unprefixedExpectedTypes, prefixedExpectedTypes) :=
      sanitizeModuleTypes expectedOutputModuleType in
    let '(unprefixedActualType, prefixedActualType) :=
      sanitizeModuleType actualType in
    if negb (existsb (String.eqb prefixedActualType) prefixedExpectedTypes)
    then Some (errors_New "sink only supports map module with output type")
    else None
  else None.

(** ** [manifest.go]: [ReadManifestAndModule]

    A module as the manifest library gives it ([mm_KindMap] tells whether
    [GetKindMap()] is not [nil]) and the package read, with its
    [SinkModule]. The reader, the module graph and the hashing of package
    [manifest] are parameters. *)
Record ManifestModule := { mm_Module : Module; mm_KindMap : bool }.

Record ManifestPackage := {
  mp_Modules : option (list ManifestModule);
  SinkModule : string }.

Class ManifestLibrary := {
  Reader : Type;
  ModuleGraph : Type;
  manifest_NewReader : string -> Reader + error;
  Reader_Read : Reader -> ManifestPackage + error;
  manifest_NewModuleGraph : list ManifestModule -> ModuleGraph + error;
  ModuleGraph_Module : ModuleGraph -> string -> ManifestModule + error;
  HashModule :
    list ManifestModule -> ManifestModule -> ModuleGraph -> list Z + error }.

Section Manifest.
Context `{ManifestLibrary}.

(** [ReadManifestAndModule]: the logger as the call leaves it, and the
    package, the module and its hash, or an error. The call panics if the
    package read has no modules or the module found has no output. *)
Definition ReadManifestAndModule (manifestPath outputModuleName
    expectedOutputModuleType : string) (zlog : Logger)
    : outcome (Logger
               * (ManifestPackage * ManifestModule * list Z + error)) :=
  let zlog := Logger_log InfoLevel "reading substreams manifest" zlog in
  match manifest_NewReader manifestPath with
  | inr err => Ret (zlog, inr (fmt_Errorf "manifest reader" err))
  | inl reader =>
  match Reader_Read reader with
  | inr err => Ret (zlog, inr (fmt_Errorf "read manifest" err))
  | inl pkg =>
  match mp_Modules pkg with
  | None => Panic "nil pointer dereference: pkg.Modules"
  | Some modules =>
  match manifest_NewModuleGraph modules with
  | inr err =>
      Ret (zlog, inr (fmt_Errorf "create substreams module graph" err))
  | inl graph =>
  let inferred := String.eqb outputModuleName InferOutputModuleFromPackage in
  let zlog :=
    if inferred
    then Logger_log DebugLevel
           "inferring module output name from package directly" zlog
    else zlog in
  if inferred && String.eqb (SinkModule pkg) EmptyString then
    Ret (zlog, inr (errors_New "sink module is required in sink config"))
  else
  let resolvedOutputModuleName :=
    if inferred then SinkModule pkg else outputModuleName in
  let zlog := Logger_log InfoLevel "finding output module" zlog in
  match ModuleGraph_Module graph resolvedOutputModuleName with
  | inr err => Ret (zlog, inr (fmt_Errorf "get output module" err))
  | inl module =>
  if negb (mm_KindMap module) then
    Ret (zlog, inr (errors_New "ouput module is *not* of  type 'Mapper'"))
  else
  match Output (mm_Module module) with
  | None => Panic "nil pointer dereference: module.Output"
  | Some output =>
  let zlog := Logger_log InfoLevel "validating output module type" zlog in
  match validateOutputType expectedOutputModuleType (Output_Type output) with
  | Some err => Ret (zlog, inr err)
  | None =>
  match HashModule modules module graph with
  | inr err => Ret (zlog, inr (fmt_Errorf "hash module" err))
  | inl outputModuleHash => Ret (zlog, inl (pkg, module, outputModuleHash))
  end end end end end end end end.

End Manifest.

(** ** The authenticators *)

Module client.

Inductive AuthType := None | JWT | ApiKey.

End client.

(** The environment of the process; [os.Getenv] gives the empty string for
    a variable that is not set. *)
Definition os_Getenv (env : gmap string string) (key : string) : string :=
  default EmptyString (env !! key).

Record authenticator := { apiKeyEnvVar : string; apiTokenEnvVar : string }.

(** [newAuthenticator] and [NewSubsAuthenticator] *)
Definition newAuthenticator (apiKeyEnvVar' apiTokenEnvVar' : string)
    : authenticator :=
  {| apiKeyEnvVar := apiKeyEnvVar'; apiTokenEnvVar := apiTokenEnvVar' |}.

Definition GetApiKey (a : authenticator) : string := apiKeyEnvVar a.

Definition GetApiToken (a : authenticator) : string := apiTokenEnvVar a.

(** [authenticator.GetTokenAndType], which is also
    [subsAuthenticator.GetAuth]. *)
Definition GetTokenAndType (env : gmap string string) (a : authenticator)
    : string * client.AuthType :=
  let apiKeyFromEnv := os_Getenv env (apiKeyEnvVar a) in
  if negb (String.eqb apiKeyFromEnv EmptyString) then
    (apiKeyFromEnv, client.ApiKey)
  else
    let apiTokenFromEnv := os_Getenv env (apiTokenEnvVar a) in
    if negb (String.eqb apiTokenFromEnv EmptyString) then
      (apiTokenFromEnv, client.JWT)
    else (EmptyString, client.None).

(** ** The accessors of the sinker, and the earlier receive errors *)

Section Accessors.
Context `{Collaborators}.

(** [OutputModuleTypePrefixed] and [OutputModuleTypeUnprefixed]; both read
    [s.outputModule.Output.Type]. *)
Definition outputModuleType (s : Sinker) : outcome string :=
  match outputModule s with
  | Datatypes.None => Panic "nil pointer dereference: s.outputModule"
  | Some m =>
      match Output m with
      | Datatypes.None =>
          Panic "nil pointer dereference: s.outputModule.Output"
      | Some o => Ret (Output_Type o)
      end
  end.

Definition OutputModuleTypePrefixed (s : Sinker) : outcome string :=
  match outputModuleType s with
  | Ret t => Ret (snd (sanitizeModuleType t))
  | Panic w => Panic w
  | Fatal w => Fatal w
  end.

Definition OutputModuleTypeUnprefixed (s : Sinker) : outcome string :=
  match outputModuleType s with
  | Ret t => Ret (fst (sanitizeModuleType t))
  | Panic w => Panic w
  | Fatal w => Fatal w
  end.

(** What [doRequest] of the earlier variant returns for an error of
    [stream.Recv]: there, [Unauthenticated] and [Canceled] are not
    retried. *)
Definition Legacy_recvError (err : error) : error :=
  if errors_Is err io_EOF then err
  else
    match AsGRPCError err with
    | Some codes.Unauthenticated | Some codes.Canceled =>
        fmt_Errorf "stream failure" err
    | _ => retryable err
    end.

End Accessors.

(** ** A simple manifest library

    Used to run [ReadManifestAndModule] on concrete inputs: the manifest at
    ["substreams.yaml"] holds a mapper and a store and names the mapper as
    its sink module; the graph is the list of the modules. *)
Module SampleManifest.

Definition events : ManifestModule :=
  {| mm_Module := {| Name := "map_events";
                     Output := Some {| Output_Type := "proto:acme.Events" |} |};
     mm_KindMap := true |}.

Definition balances : ManifestModule :=
  {| mm_Module := {| Name := "store_balances"; Output := None |};
     mm_KindMap := false |}.

Definition manifestPackage : ManifestPackage :=
  {| mp_Modules := Some [events; balances]; SinkModule := "map_events" |}.

Definition findModule (graph : list ManifestModule) (name : string)
    : ManifestModule + error :=
  match filter (fun m => String.eqb (Name (mm_Module m)) name) graph with
  | m :: _ => inl m
  | [] => inr (errors_New "module not found")
  end.

Definition library : ManifestLibrary :=
  {| Reader := string;
     ModuleGraph := list ManifestModule;
     manifest_NewReader := fun path =>
       if String.eqb path "substreams.yaml" then inl path
       else inr (errors_New "no such file");
     Reader_Read := fun _ => inl manifestPackage;
     manifest_NewModuleGraph := inl;
     ModuleGraph_Module := findModule;
     HashModule := fun _ _ _ => inl [171; 205] |}.

(** The environment of a process with both credentials set. *)
Definition bothSet : gmap string string :=
  <["SUBSTREAMS_API_KEY" := "key-1"]>
    (<["SUBSTREAMS_API_TOKEN" := "jwt-1"]> ∅).

End SampleManifest.

(** ** More scenarios

    Handlers that fail, a sinker that retries without a cap, sinkers with
    extra headers, a client that cannot be created and a [Progress]
    message with running jobs. *)
Module SampleRun.
Import Sample.
#[local] Existing Instance collaborators.

(** A handler that fails on every block with the error [e]. *)
Definition failingHandler (e : error) : SinkerHandler :=
  {| respond := fun _ c =>
       match c with
       | HandleBlockScopedData _ _ _ => Some e
       | _ => None
       end;
     isCompletionHandler := false |}.

Definition databaseDown : error :=
  RetryableError (errors_New "database is down").

Definition sinkClosed : error := fmt_Errorf "sink closed" io_EOF.

Definition constraintViolated : error := errors_New "constraint violated".

Definition infiniteSinker : Sinker :=
  newSinker SubstreamsModeDevelopment [WithInfiniteRetry].

Definition headerSinker (headers : list string) : Sinker :=
  newSinker SubstreamsModeDevelopment [WithExtraHeaders headers].

Definition noClient : ClientResult :=
  {| clientErr := Some (errors_New "invalid endpoint");
     clientHeaders := None |}.

(** Two jobs run on stage 0, up to the blocks 150 and 220, and one on
    stage 1. *)
Definition jobsProgress : ModulesProgress :=
  {| RunningJobs :=
       [{| job_Stage := 0; job_StartBlock := 100; ProcessedBlocks := 50 |};
        {| job_Stage := 1; job_StartBlock := 0; ProcessedBlocks := 10 |};
        {| job_Stage := 0; job_StartBlock := 200; ProcessedBlocks := 20 |}];
     Stages := [] |}.

(** A session that receives a message before the server becomes
    unavailable. *)
Definition productiveFailure : Attempt :=
  attempt (Receive [Response_Session (session 100)] unavailable) None.

(** A handler that fails with the error [e] on the block of number [n],
    and on that block only. *)
Definition failingOn (n : Z) (e : error) : SinkerHandler :=
  {| respond := fun _ c =>
       match c with
       | HandleBlockScopedData d _ _ =>
           if Clock_Number (bsd_Clock d) =? n then Some e else None
       | _ => None
       end;
     isCompletionHandler := false |}.

(** The string of the given bytes. *)
Definition utf8 (bytes : list Z) : string :=
  fold_right (fun b s => String (ascii_of_N (Z.to_N b)) s) EmptyString bytes.

(** The characters U+00A0, U+0085 and U+2003, in UTF-8. *)
Definition NBSP : string := utf8 [194; 160].
Definition NEL : string := utf8 [194; 133].
Definition EMSP : string := utf8 [226; 128; 131].

End SampleRun.

(** * Properties *)

(** ** Vocabulary *)

Section Vocabulary.
Context `{Collaborators}.

Definition isUndoCall (c : HandlerCall) : bool :=
  match c with HandleBlockUndoSignal _ _ => true | _ => false end.

Definition isCompletionCall (c : HandlerCall) : bool :=
  match c with HandleBlockRangeCompletion _ => true | _ => false end.

Definition isUndoSignal (resp : Response) : bool :=
  match resp with Response_BlockUndoSignal _ => true | _ => false end.

(** The messages that a stream, and a script, deliver. *)
Definition streamMessages (s : Stream) : list Response :=
  match s with
  | BlocksFailed _ => []
  | Receive msgs _ => msgs
  end.

Definition scriptMessages (script : list Attempt) : list Response :=
  flat_map (fun a => streamMessages (stream a)) script.

(** A call of the handler that the message [resp] can give rise to. *)
Definition callFor (resp : Response) (c : HandlerCall) : Prop :=
  match c with
  | HandleBlockScopedData _ _ _ => exists d, resp = Response_BlockScopedData d
  | HandleBlockUndoSignal u _ => resp = Response_BlockUndoSignal u
  | HandleBlockRangeCompletion _ => False
  end.

(** The fields of the sinker that a run never writes are the same in [s]
    and [s'], and [s'] has no undo buffer if [s] has none. *)
Definition sameConfig (s s' : Sinker) : Prop :=
  mode s' = mode s /\ pkg s' = pkg s /\ outputModule s' = outputModule s
  /\ finalBlocksOnly s' = finalBlocksOnly s /\ blockRange s' = blockRange s
  /\ infiniteRetry s' = infiniteRetry s
  /\ livenessChecker s' = livenessChecker s
  /\ tracer s' = tracer s
  /\ (buffer s = None -> buffer s' = None).

(** A step of a session: the requests and the sleeps are left as they
    are, the configuration is kept, and the calls [l] are added. *)
Definition sessionStep (st st' : State) (l : list HandlerCall) : Prop :=
  sameConfig (sinker st) (sinker st')
  /\ requests st' = requests st /\ sleeps st' = sleeps st
  /\ calls st' = calls st ++ l.

(** The calls of [cs] come from messages of [msgs]. *)
Definition callsFrom (msgs : list Response) (cs : list HandlerCall) : Prop :=
  Forall (fun c => exists resp, In resp msgs /\ callFor resp c) cs.

(** A step of a run: the configuration is kept, the calls [cs] and the
    requests [rs] are added. *)
Definition runStep (st st' : State) (cs : list HandlerCall)
    (rs : list Request) : Prop :=
  sameConfig (sinker st) (sinker st')
  /\ calls st' = calls st ++ cs /\ requests st' = requests st ++ rs.

(** The requests of a run with the sinker [s] that asks to stop at
    [stopBlock]. *)
Definition requestsOf (s : Sinker) (stopBlock : Z) (rs : list Request) : Prop :=
  Forall (fun r => StopBlockNum r = stopBlock
                   /\ FinalBlocksOnly r = finalBlocksOnly s) rs.

(** The state in which [Run] calls [run]. *)
Definition Run_prelude (st : State) : State :=
  logSt InfoLevel "starting sinker"
    (if adjustedEndBlock (sinker st) =? 0 then adjustedEndBlock_log st
     else adjustedEndBlock_log (adjustedEndBlock_log st)).

(** The call of the completion callback that [Run] makes after [run] has
    ended with [r]. *)
Definition completionCalls (h : SinkerHandler)
    (r : ended (option Cursor * option error)) : list HandlerCall :=
  match r with
  | Returned (lastCursor, None) =>
      if isCompletionHandler h then [HandleBlockRangeCompletion lastCursor]
      else []
  | _ => []
  end.

(** The range [r] contains the block [x]: [start <= x <= end]. *)
Definition containsBlock (r : BlockRange) (x : Z) : Prop :=
  StartBlock r <= x <= EndBlock r.

(** The gauge [ProgressMessageLastContiguousBlock] of a stage, set to [v]
    if there is one. *)
Definition setLastContiguousBlock (label : string) (v : option Z)
    (m : gmap (string * string) Z) : gmap (string * string) Z :=
  match v with
  | Some v => SetUint64 "ProgressMessageLastContiguousBlock" v label m
  | None => m
  end.

(** The value that the loop over the completed ranges of the last stage
    leaves in the gauge in production mode: the end of the last range that
    starts at or after [x], if there is one. *)
Fixpoint lastStartingFrom (x : Z) (ranges : list BlockRange) (v : option Z)
    : option Z :=
  match ranges with
  | [] => v
  | r :: rest =>
      lastStartingFrom x rest
        (if (x <=? StartBlock r) && (EndBlock r >=? x) then Some (EndBlock r)
         else v)
  end.

(** The wrapper of [backoff.WithMaxRetries] around [b], after [numTries]
    calls since its last reset, with [b] in the state [s]. *)
Definition maxRetries_at (b : BackOff) (max numTries : Z) (s : bo_state b)
    : BackOff :=
  {| bo_state := Z * bo_state b;
     bo_cur := (numTries, s);
     bo_next := maxRetries_next b max;
     bo_reset := fun st => (0, bo_reset b (snd st)) |}.

(** The policy [b] never answers [Stop]. *)
Definition neverStops (b : BackOff) : Prop :=
  forall s, fst (bo_next b s) <> Stop.

(** The error with which a session that receives no message ends. *)
Definition sessionError (s : Stream) : option error :=
  match s with
  | BlocksFailed err =>
      Some (retryable (fmt_Errorf "call sf.substreams.rpc.v2.Stream/Blocks" err))
  | Receive [] err => Some (recvError err)
  | Receive (_ :: _) _ => None
  end.

(** The cause of a non-productive retryable failure: the attempt receives
    no message and ends with an error that is not [io.EOF] and carries the
    retryable marker, while the context is neither canceled nor done. *)
Definition failureCause (a : Attempt) : option error :=
  match sessionError (stream a) with
  | Some err =>
      if errors_Is err io_EOF || ctxCanceled (ctxErr a) || ctxDone a then None
      else errors_As_Retryable err
  | None => None
  end.

End Vocabulary.

(** ** Vocabulary for the rest of the package *)

Section MoreVocabulary.
Context `{Collaborators}.

(** A header with exactly one [":"]. *)
Definition wellFormedHeader (header : string) : Prop :=
  Count ":" header = 1%nat.

(** The blocks processed by the running jobs, and the blocks of the
    completed ranges of all the stages, as integers. *)
Definition sumProcessedBlocks (jobs : list Job) : Z :=
  fold_right (fun j a => ProcessedBlocks j + a) 0 jobs.

Definition sumRanges (ranges : list BlockRange) : Z :=
  fold_right (fun r a => (EndBlock r - StartBlock r) + a) 0 ranges.

Definition sumCompletedRanges (stages : list Stage) : Z :=
  fold_right (fun stage a => sumRanges (CompletedRanges stage) + a) 0 stages.

(** The block at which a job has arrived, and the jobs of a stage. *)
Definition jobEndBlock (j : Job) : Z :=
  wrap64 (job_StartBlock j + ProcessedBlocks j).

Definition stageJobs (k : Z) (jobs : list Job) : list Job :=
  List.filter (fun j => job_Stage j =? k) jobs.

(** The policy [b] in the state [s]. *)
Definition withState (b : BackOff) (s : bo_state b) : BackOff :=
  {| bo_state := bo_state b; bo_cur := s;
     bo_next := bo_next b; bo_reset := bo_reset b |}.

(** The sinker has an undo buffer. *)
Definition hasBuffer (st : State) : Prop := is_Some (buffer (sinker st)).

(** A step of a sinker with an undo buffer: the buffer is still there, and
    the calls added are not calls of [HandleBlockUndoSignal]. *)
Definition bufferedStep (st st' : State) : Prop :=
  hasBuffer st'
  /\ exists cs, calls st' = calls st ++ cs
                /\ Forall (fun k => isUndoCall k = false) cs.

(** The call of the handler for the block [d], without undo buffer. *)
Definition blockCall (s : Sinker) (d : BlockScopedData) (k : Cursor)
    : HandlerCall :=
  HandleBlockScopedData d
    match livenessChecker s with
    | Some IsLive => Some (IsLive (bsd_Clock d))
    | None => None
    end k.

(** The call [c] hands to the handler the cursor of the very message it
    carries: the block of a [HandleBlockScopedData] comes with its own
    cursor, decoded, and with the liveness of its own clock. *)
Definition ownCursor (s : Sinker) (c : HandlerCall) : Prop :=
  match c with
  | HandleBlockScopedData d _ k =>
      NewCursor (bsd_Cursor d) = inl k /\ c = blockCall s d k
  | HandleBlockUndoSignal u k => NewCursor (LastValidCursor u) = inl k
  | HandleBlockRangeCompletion _ => True
  end.

(** A step that keeps the liveness checker and adds such calls only. *)
Definition ownStep (st st' : State) : Prop :=
  livenessChecker (sinker st') = livenessChecker (sinker st)
  /\ exists cs, calls st' = calls st ++ cs
                /\ Forall (ownCursor (sinker st)) cs.

(** The list [l] holds the bindings of the map [m], each one once, as a
    key followed by its value, in some order (the order in which Go ranges
    over a map is not specified). *)
Definition listsMap (l : list string) (m : gmap string string) : Prop :=
  exists kvs,
    l = flat_map (fun kv => [fst kv; snd kv]) kvs
    /\ kvs ≡ₚ map_to_list m.

(** Without undo buffer, the sinker of configuration [s] handles the
    message [resp] without error: its cursor decodes, and the handler
    accepts the call made for it, whatever the calls made before. *)
Definition accepted (h : SinkerHandler) (s : Sinker) (resp : Response)
    : Prop :=
  match resp with
  | Response_BlockScopedData d =>
      exists k, NewCursor (bsd_Cursor d) = inl k
                /\ forall l, respond h l (blockCall s d k) = None
  | Response_BlockUndoSignal u =>
      exists k, NewCursor (LastValidCursor u) = inl k
                /\ forall l, respond h l (HandleBlockUndoSignal u k) = None
  | _ => True
  end.

(** The counter of the errors of the sessions. *)
Definition errorCount (st : State) : option Z :=
  metrics st !! ("SubstreamsErrorCount", EmptyString).

End MoreVocabulary.

(** ** What a session changes *)

Section Session.
Context `{Collaborators}.

Lemma sameConfig_refl s : sameConfig s s.
Proof. unfold sameConfig; tauto. Qed.

Lemma sameConfig_trans s1 s2 s3 :
  sameConfig s1 s2 -> sameConfig s2 s3 -> sameConfig s1 s3.
Proof. unfold sameConfig; intros; intuition congruence. Qed.

Lemma sameConfig_log lvl msg s : sameConfig s (log lvl msg s).
Proof. unfold sameConfig; simpl; tauto. Qed.

Lemma sessionStep_refl st : sessionStep st st [].
Proof.
  unfold sessionStep; rewrite app_nil_r; auto using sameConfig_refl.
Qed.

Lemma sessionStep_trans st1 st2 st3 l1 l2 :
  sessionStep st1 st2 l1 -> sessionStep st2 st3 l2 ->
  sessionStep st1 st3 (l1 ++ l2).
Proof.
  unfold sessionStep; intros (C1 & R1 & S1 & K1) (C2 & R2 & S2 & K2).
  split; [eapply sameConfig_trans; eauto |].
  split; [congruence |]. split; [congruence |].
  rewrite K2, K1, <- app_assoc; reflexivity.
Qed.

Lemma sessionStep_logSt lvl msg st : sessionStep st (logSt lvl msg st) [].
Proof.
  unfold sessionStep; simpl; rewrite app_nil_r.
  auto using sameConfig_log.
Qed.

Lemma sessionStep_traceSt msg st : sessionStep st (traceSt msg st) [].
Proof.
  unfold traceSt; destruct (tracer (sinker st));
    auto using sessionStep_logSt, sessionStep_refl.
Qed.

Lemma sessionStep_set_metrics m st : sessionStep st (set_metrics m st) [].
Proof.
  unfold sessionStep; simpl; rewrite app_nil_r; auto using sameConfig_refl.
Qed.

Lemma sessionStep_call h c st : sessionStep st (call h c st).1 [c].
Proof. unfold sessionStep; simpl; auto using sameConfig_refl. Qed.

Lemma sessionStep_set_buffer b b' st :
  buffer (sinker st) = Some b ->
  sessionStep st (set_sinker (set_buffer b' (sinker st)) st) [].
Proof.
  intros Hb; unfold sessionStep, sameConfig; simpl; rewrite app_nil_r.
  repeat split; congruence.
Qed.

Lemma sessionStep_handleProgress msg st :
  sessionStep st (handleProgress msg st) [].
Proof.
  unfold handleProgress.
  destruct (fold_left runningJob (RunningJobs msg) (0, ∅, ∅)) as [[t l] j].
  destruct (stagesLoop _ _ _ _ _) as [m t'].
  change [] with (@nil HandlerCall ++ []).
  eapply sessionStep_trans;
    [apply sessionStep_set_metrics | apply sessionStep_traceSt].
Qed.

Lemma sessionStep_processData h l st :
  exists cs, sessionStep st (processData h l st).1 cs
    /\ Forall (fun c => exists d i k, c = HandleBlockScopedData d i k) cs.
Proof.
  revert st; induction l as [|d l IH]; intros st; cbn [processData].
  - exists []; split; [apply sessionStep_refl | constructor].
  - destruct (NewCursor (bsd_Cursor d)) as [k|e].
    + match goal with |- context [call h ?c st] =>
        pose proof (sessionStep_call h c st) as Hc;
        destruct (call h c st) as [st1 [e|]]; cbn [fst] in *
      end.
      * eexists; split; [exact Hc | repeat constructor; eauto].
      * destruct (IH st1) as (cs & Hs & Hf).
        eexists; split; [eapply sessionStep_trans; eauto |].
        constructor; eauto.
    + exists []; split; [apply sessionStep_refl | constructor].
Qed.

Lemma sessionStep_set_start b st :
  sessionStep st
    (set_sinker (set_requestActiveStartBlock b (sinker st)) st) [].
Proof.
  unfold sessionStep, sameConfig; simpl; rewrite app_nil_r; tauto.
Qed.

(** Decomposes a goal [sessionStep st st' ?l] along the updates that lead
    from [st] to [st']. *)
Ltac chain :=
  lazymatch goal with
  | |- sessionStep ?a ?a _ => apply sessionStep_refl
  | |- sessionStep _ (logSt _ _ _) _ =>
      eapply sessionStep_trans; [| apply sessionStep_logSt]; chain
  | |- sessionStep _ (traceSt _ _) _ =>
      eapply sessionStep_trans; [| apply sessionStep_traceSt]; chain
  | |- sessionStep _ (set_metrics _ _) _ =>
      eapply sessionStep_trans; [| apply sessionStep_set_metrics]; chain
  | |- sessionStep _ (handleProgress _ _) _ =>
      eapply sessionStep_trans; [| apply sessionStep_handleProgress]; chain
  | |- sessionStep _ (set_sinker (set_requestActiveStartBlock _ _) _) _ =>
      eapply sessionStep_trans; [| apply sessionStep_set_start]; chain
  | |- sessionStep _ (set_sinker (set_buffer _ _) _) _ =>
      eapply sessionStep_trans;
      [| eapply sessionStep_set_buffer; eassumption]; chain
  | |- sessionStep _ ?y _ =>
      lazymatch goal with
      | Hc : sessionStep _ y _ |- _ =>
          eapply sessionStep_trans; [| exact Hc]; chain
      end
  end.

Lemma handleBlockScopedData_step h d c st :
  exists cs, sessionStep st (handleBlockScopedData h d c st).1.1 cs
    /\ Forall (callFor (Response_BlockScopedData d)) cs.
Proof.
  assert (Hdata : forall cs,
    Forall (fun c => exists d i k, c = HandleBlockScopedData d i k) cs ->
    Forall (callFor (Response_BlockScopedData d)) cs).
  { intros cs Hcs; eapply Forall_impl; [exact Hcs |].
    intros ? (d' & i & k & ->); simpl; eauto. }
  unfold handleBlockScopedData; cbv zeta.
  destruct (NewCursor (bsd_Cursor d)) as [k|e]; cbn [fst].
  - destruct (buffer _) as [b|] eqn:Hb.
    + destruct (buffer_HandleBlockScopedData b d) as [b' [l|e]]; cbn [fst].
      * match goal with |- context [processData h l ?x] =>
          destruct (sessionStep_processData h l x) as (cs & Hs & Hf);
          destruct (processData h l x) as [st2 e2]; cbn [fst] in *
        end.
        eexists; split; [chain | simpl; auto].
      * eexists; split; [chain | simpl; constructor].
    + match goal with |- context [processData h ?l ?x] =>
        destruct (sessionStep_processData h l x) as (cs & Hs & Hf);
        destruct (processData h l x) as [st2 e2]; cbn [fst] in *
      end.
      eexists; split; [chain | simpl; auto].
  - eexists; split; [chain | simpl; constructor].
Qed.

Lemma handleBlockUndoSignal_step h u c st :
  exists cs, sessionStep st (handleBlockUndoSignal h u c st).1.1 cs
    /\ Forall (callFor (Response_BlockUndoSignal u)) cs.
Proof.
  unfold handleBlockUndoSignal; cbv zeta.
  destruct (NewCursor (LastValidCursor u)) as [k|e]; cbn [fst].
  - destruct (buffer _) as [b|] eqn:Hb.
    + destruct (buffer_HandleBlockUndoSignal b u) as [b' [e|]]; cbn [fst];
        (eexists; split; [chain | simpl; constructor]).
    + match goal with |- context [call h ?k ?x] =>
        pose proof (sessionStep_call h k x) as Hc;
        destruct (call h k x) as [st1 [e|]]; cbn [fst] in *
      end;
        (eexists; split; [chain | simpl; repeat constructor]).
  - eexists; split; [chain | simpl; constructor].
Qed.

Lemma handleMessage_step h resp c st :
  exists cs, sessionStep st (handleMessage h resp c st).1.1 cs
    /\ Forall (callFor resp) cs.
Proof.
  destruct resp; unfold handleMessage, handleSession; cbv zeta; cbn [fst];
    try (eexists; split; [chain | simpl; constructor]).
  - apply handleBlockScopedData_step.
  - apply handleBlockUndoSignal_step.
Qed.

Lemma callsFrom_app msgs cs1 cs2 :
  callsFrom msgs cs1 -> callsFrom msgs cs2 -> callsFrom msgs (cs1 ++ cs2).
Proof. unfold callsFrom; intros; apply Forall_app; auto. Qed.

Lemma callsFrom_incl msgs msgs' cs :
  (forall resp, In resp msgs -> In resp msgs') ->
  callsFrom msgs cs -> callsFrom msgs' cs.
Proof.
  unfold callsFrom; intros Hi Hf; eapply Forall_impl; [exact Hf |].
  intros c (resp & Hin & Hc); eauto.
Qed.

Lemma recvLoop_step h msgs final c recv st :
  exists cs, sessionStep st (recvLoop h msgs final c recv st).1 cs
    /\ callsFrom msgs cs.
Proof.
  revert c recv st; induction msgs as [|resp msgs IH]; intros c recv st;
    cbn [recvLoop].
  - cbn [fst]; eexists; split; [chain | constructor].
  - match goal with |- context [handleMessage h resp c ?x] =>
      destruct (handleMessage_step h resp c x) as (cs & Hs & Hf);
      destruct (handleMessage h resp c x) as [[st1 c1] [e|]]; cbn [fst] in *
    end.
    + eexists; split; [chain |].
      simpl; eapply Forall_impl; [exact Hf |]; simpl; intros; eauto.
    + destruct (IH c1 true st1) as (cs2 & Hs2 & Hf2).
      eexists; split; [chain |].
      apply callsFrom_app.
      * simpl; eapply Forall_impl; [exact Hf |]; simpl; intros; eauto.
      * eapply callsFrom_incl; [| exact Hf2]; simpl; auto.
Qed.

Lemma doRequest_step h c stream st :
  exists cs, sessionStep st (doRequest h c stream st).1 cs
    /\ callsFrom (streamMessages stream) cs.
Proof.
  unfold doRequest; cbv zeta; destruct stream as [e|msgs final]; cbn [fst].
  - eexists; split; [chain | constructor].
  - match goal with |- context [recvLoop h msgs final c ?r ?x] =>
      destruct (recvLoop_step h msgs final c r x) as (cs & Hs & Hf)
    end.
    eexists; split; [chain | simpl; auto].
Qed.

End Session.

(** ** What a run changes *)

Section RunSteps.
Context `{Collaborators}.

Lemma runStep_refl st : runStep st st [] [].
Proof.
  unfold runStep; rewrite !app_nil_r; auto using sameConfig_refl.
Qed.

Lemma runStep_trans st1 st2 st3 cs1 cs2 rs1 rs2 :
  runStep st1 st2 cs1 rs1 -> runStep st2 st3 cs2 rs2 ->
  runStep st1 st3 (cs1 ++ cs2) (rs1 ++ rs2).
Proof.
  unfold runStep; intros (C1 & K1 & R1) (C2 & K2 & R2).
  split; [eapply sameConfig_trans; eauto |].
  rewrite K2, K1, R2, R1, <- !app_assoc; auto.
Qed.

Lemma runStep_eq st st' cs cs' rs rs' :
  runStep st st' cs rs -> cs = cs' -> rs = rs' -> runStep st st' cs' rs'.
Proof. intros ? <- <-; assumption. Qed.

Lemma runStep_session st st' cs : sessionStep st st' cs -> runStep st st' cs [].
Proof.
  unfold sessionStep, runStep; intros (C & R & S & K).
  rewrite R, K, app_nil_r; auto.
Qed.

Lemma runStep_add_request r st : runStep st (add_request r st) [] [r].
Proof.
  unfold runStep; simpl; rewrite app_nil_r; auto using sameConfig_refl.
Qed.

Lemma runStep_add_sleep d st : runStep st (add_sleep d st) [] [].
Proof.
  unfold runStep; simpl; rewrite !app_nil_r; auto using sameConfig_refl.
Qed.

Lemma runStep_logSt lvl msg st : runStep st (logSt lvl msg st) [] [].
Proof. apply runStep_session, sessionStep_logSt. Qed.

Lemma runStep_set_metrics m st : runStep st (set_metrics m st) [] [].
Proof. apply runStep_session, sessionStep_set_metrics. Qed.

Lemma runStep_call h c st : runStep st (call h c st).1 [c] [].
Proof. apply runStep_session, sessionStep_call. Qed.

Lemma runStep_adjustedEndBlock_log st :
  runStep st (adjustedEndBlock_log st) [] [].
Proof.
  unfold adjustedEndBlock_log.
  destruct (blockRange _); [| apply runStep_refl].
  destruct (Range_EndBlock _); [| apply runStep_refl].
  destruct (buffer _); [apply runStep_logSt | apply runStep_refl].
Qed.

(** Decomposes a goal [runStep st st' ?cs ?rs] along the updates that
    lead from [st] to [st']. *)
Ltac rchain :=
  lazymatch goal with
  | |- runStep ?a ?a _ _ => apply runStep_refl
  | Hc : runStep _ ?y _ _ |- runStep _ ?y _ _ =>
      eapply runStep_trans; [| exact Hc]; rchain
  | |- runStep _ (logSt _ _ _) _ _ =>
      eapply runStep_trans; [| apply runStep_logSt]; rchain
  | |- runStep _ (set_metrics _ _) _ _ =>
      eapply runStep_trans; [| apply runStep_set_metrics]; rchain
  | |- runStep _ (add_request _ _) _ _ =>
      eapply runStep_trans; [| apply runStep_add_request]; rchain
  | |- runStep _ (add_sleep _ _) _ _ =>
      eapply runStep_trans; [| apply runStep_add_sleep]; rchain
  | |- runStep _ (adjustedEndBlock_log _) _ _ =>
      eapply runStep_trans; [| apply runStep_adjustedEndBlock_log]; rchain
  end.

Lemma requestsOf_app s e rs1 rs2 :
  requestsOf s e rs1 -> requestsOf s e rs2 -> requestsOf s e (rs1 ++ rs2).
Proof. unfold requestsOf; intros; apply Forall_app; auto. Qed.

Lemma requestsOf_sameConfig s s' e rs :
  sameConfig s s' -> requestsOf s' e rs -> requestsOf s e rs.
Proof.
  unfold requestsOf; intros C Hf; eapply Forall_impl; [exact Hf |].
  unfold sameConfig in C; simpl; intros r [? ?]; split; [auto | intuition congruence].
Qed.

Lemma runSession_step h sb eb hd a bo c st :
  exists cs,
    runStep st (runSession h sb eb hd a bo c st).1.1.1 cs
      [newRequest (sinker st) sb eb hd c]
    /\ callsFrom (streamMessages (stream a)) cs
    /\ sleeps (runSession h sb eb hd a bo c st).1.1.1 = sleeps st.
Proof.
  unfold runSession; cbv zeta.
  match goal with |- context [doRequest h c (stream a) ?x] =>
    destruct (doRequest_step h c (stream a) x) as (cs & Hs & Hf);
    destruct (doRequest h c (stream a) x) as [st1 [[c1 recv] err]];
    cbn [fst] in *
  end.
  exists cs; split; [| split; [exact Hf |]].
  - apply runStep_session in Hs.
    change cs with ([] ++ cs).
    change [newRequest (sinker st) sb eb hd c]
      with ([newRequest (sinker st) sb eb hd c] ++ []).
    eapply runStep_trans; [apply runStep_add_request | exact Hs].
  - destruct Hs as (_ & _ & S & _); exact S.
Qed.

Lemma scriptMessages_cons a script :
  scriptMessages (a :: script)
  = streamMessages (stream a) ++ scriptMessages script.
Proof. reflexivity. Qed.

Lemma callsFrom_l msgs msgs' cs :
  callsFrom msgs cs -> callsFrom (msgs ++ msgs') cs.
Proof. apply callsFrom_incl; intros; apply in_or_app; auto. Qed.

Lemma callsFrom_r msgs msgs' cs :
  callsFrom msgs' cs -> callsFrom (msgs ++ msgs') cs.
Proof. apply callsFrom_incl; intros; apply in_or_app; auto. Qed.

Lemma callsFrom_nil msgs : callsFrom msgs [].
Proof. constructor. Qed.

Lemma requestsOf_nil s e : requestsOf s e [].
Proof. constructor. Qed.

Lemma requestsOf_newRequest s sb eb hd c :
  requestsOf s eb [newRequest s sb eb hd c].
Proof. repeat constructor. Qed.

(** A run adds calls that come from the messages of its script, and
    requests that ask for the stop block it was given. *)
Lemma runLoop_step h sb eb hd script bo c st :
  exists cs rs,
    runStep st (runLoop h sb eb hd script bo c st).1 cs rs
    /\ callsFrom (scriptMessages script) cs
    /\ requestsOf (sinker st) eb rs.
Proof.
  revert bo c st; induction script as [|a script IH]; intros bo c st;
    cbn [runLoop].
  - exists [], []; cbn [fst].
    split; [apply runStep_refl | split; constructor].
  - rewrite scriptMessages_cons.
    destruct (runSession_step h sb eb hd a bo c st) as (cs1 & Hs & Hf & _).
    destruct (runSession h sb eb hd a bo c st) as [[[st1 bo1] c1] err];
      cbn [fst] in *.
    assert (Hq := requestsOf_newRequest (sinker st) sb eb hd c).
    assert (C1 : sameConfig (sinker st) (sinker st1)) by apply Hs.
    assert (Hnext : forall bo2 st2,
      runStep st1 st2 [] [] ->
      exists cs rs,
        runStep st (runLoop h sb eb hd script bo2 c1 st2).1 cs rs
        /\ callsFrom (streamMessages (stream a) ++ scriptMessages script) cs
        /\ requestsOf (sinker st) eb rs).
    { intros bo2 st2 H12.
      destruct (IH bo2 c1 st2) as (cs2 & rs2 & Hs2 & Hf2 & Hq2).
      do 2 eexists; split; [rchain |].
      split.
      - repeat apply callsFrom_app;
          auto using callsFrom_l, callsFrom_r, callsFrom_nil.
      - repeat apply requestsOf_app; auto using requestsOf_nil.
        eapply requestsOf_sameConfig; [| exact Hq2].
        eapply sameConfig_trans; [exact C1 | apply H12]. }
    assert (Hstop : forall st2 (r : ended (option Cursor * option error)),
      runStep st1 st2 [] [] ->
      exists cs rs,
        runStep st (st2, r).1 cs rs
        /\ callsFrom (streamMessages (stream a) ++ scriptMessages script) cs
        /\ requestsOf (sinker st) eb rs).
    { intros st2 r H12; cbn [fst].
      do 2 eexists; split; [rchain |].
      split.
      - repeat apply callsFrom_app;
          auto using callsFrom_l, callsFrom_r, callsFrom_nil.
      - repeat apply requestsOf_app; auto using requestsOf_nil. }
    destruct err as [err|]; [| apply Hnext, runStep_refl].
    destruct (errors_Is err io_EOF); [apply Hstop, runStep_refl |].
    destruct (ctxCanceled (ctxErr a)); [apply Hstop, runStep_logSt |].
    destruct (errors_As_Retryable err) as [cause|];
      [| apply Hstop, runStep_set_metrics].
    destruct (if ctxDone a then _ else _) as [sleepFor bo2].
    destruct (sleepFor =? Stop).
    + apply Hstop.
      change (@nil HandlerCall) with (@nil HandlerCall ++ []).
      change (@nil Request) with (@nil Request ++ []).
      eapply runStep_trans; [apply runStep_set_metrics | apply runStep_logSt].
    + apply Hnext.
      change (@nil HandlerCall) with (@nil HandlerCall ++ ([] ++ ([] ++ []))).
      change (@nil Request) with (@nil Request ++ ([] ++ ([] ++ []))).
      eapply runStep_trans; [apply runStep_set_metrics |].
      eapply runStep_trans; [apply runStep_logSt |].
      eapply runStep_trans; [apply runStep_logSt | apply runStep_add_sleep].
Qed.

Lemma run_step h client script c st :
  exists cs rs,
    runStep st (run h client script c st).1 cs rs
    /\ callsFrom (scriptMessages script) cs
    /\ requestsOf (sinker st) (adjustedEndBlock (sinker st)) rs.
Proof.
  unfold run; cbv zeta.
  destruct (clientErr client);
    [exists [], []; split; [apply runStep_refl | split; constructor] |].
  destruct (run_headersArray _ _) as [hd|w|w];
    try (exists [], []; split; [apply runStep_refl | split; constructor]).
  match goal with |- context [runLoop h ?sb ?eb hd script ?bo c ?x] =>
    destruct (runLoop_step h sb eb hd script bo c x) as (cs & rs & Hs & Hf & Hq);
    assert (Hx : runStep st x [] []);
    [| assert (He : eb = adjustedEndBlock (sinker st))]
  end.
  - change (@nil HandlerCall) with (@nil HandlerCall ++ []).
    change (@nil Request) with (@nil Request ++ []).
    eapply runStep_trans; [| apply runStep_adjustedEndBlock_log].
    destruct (negb _); [| apply runStep_logSt].
    change (@nil HandlerCall) with (@nil HandlerCall ++ []).
    change (@nil Request) with (@nil Request ++ []).
    eapply runStep_trans; apply runStep_logSt.
  - destruct (negb _); reflexivity.
  - rewrite He in *.
    do 2 eexists; split; [rchain | split; [simpl; exact Hf |]].
    simpl; eapply requestsOf_sameConfig; [apply Hx | exact Hq].
Qed.

Lemma runStep_Run_prelude st : runStep st (Run_prelude st) [] [].
Proof.
  unfold Run_prelude.
  change (@nil HandlerCall) with (@nil HandlerCall ++ []).
  change (@nil Request) with (@nil Request ++ []).
  eapply runStep_trans; [| apply runStep_logSt].
  destruct (_ =? 0); [apply runStep_adjustedEndBlock_log |].
  change (@nil HandlerCall) with (@nil HandlerCall ++ []).
  change (@nil Request) with (@nil Request ++ []).
  eapply runStep_trans; apply runStep_adjustedEndBlock_log.
Qed.

Lemma adjustedEndBlock_log_same st :
  adjustedEndBlock (sinker (adjustedEndBlock_log st))
  = adjustedEndBlock (sinker st).
Proof.
  unfold adjustedEndBlock_log.
  destruct (blockRange (sinker st)) as [r|]; [| reflexivity].
  destruct (Range_EndBlock r); [| reflexivity].
  destruct (buffer (sinker st)); reflexivity.
Qed.

Lemma adjustedEndBlock_Run_prelude st :
  adjustedEndBlock (sinker (Run_prelude st)) = adjustedEndBlock (sinker st).
Proof.
  unfold Run_prelude.
  change (adjustedEndBlock (sinker (logSt ?l ?m ?x)))
    with (adjustedEndBlock (sinker x)).
  destruct (_ =? 0); rewrite ?adjustedEndBlock_log_same; reflexivity.
Qed.

(** The calls of [Run]: the calls of [run], then the completion
    callback if [run] returned without an error and the handler has one. *)
Lemma Run_step h client script ce c st :
  exists cs rs,
    runStep st (Run h client script ce c st).1
      (cs ++ completionCalls h (run h client script c (Run_prelude st)).2) rs
    /\ callsFrom (scriptMessages script) cs
    /\ requestsOf (sinker st) (adjustedEndBlock (sinker st)) rs.
Proof.
  unfold Run; cbv zeta; fold (Run_prelude st).
  destruct (run_step h client script c (Run_prelude st))
    as (cs & rs & Hs & Hf & Hq).
  pose proof (runStep_Run_prelude st) as Hp.
  rewrite adjustedEndBlock_Run_prelude in Hq.
  assert (Hq' : requestsOf (sinker st) (adjustedEndBlock (sinker st)) rs)
    by (eapply requestsOf_sameConfig; [apply Hp | exact Hq]).
  destruct (run h client script c (Run_prelude st)) as [st1 [[lc [e|]]|w|]];
    cbn [fst snd completionCalls] in *; unfold Shutdown; cbn [fst];
    try destruct (isCompletionHandler h);
    try match goal with |- context [call h ?k ?x] =>
          pose proof (runStep_call h k x) as Hc;
          destruct (call h k x) as [st2 [e'|]]; cbn [fst] in *
        end;
    cbn [fst];
    (exists cs, rs; split; [| auto]);
    (eapply runStep_eq;
       [rchain | simpl; rewrite ?app_nil_r; reflexivity ..]).
Qed.

(** The first request of the loop is built from the cursor it is given,
    and every request carries the headers of the loop. *)
Lemma runLoop_requests h sb eb hd script :
  forall bo c st,
    exists rs,
      requests (runLoop h sb eb hd script bo c st).1 = requests st ++ rs
      /\ Forall (fun r => outgoingHeaders r = hd) rs
      /\ match script with
         | [] => rs = []
         | _ :: _ =>
             exists rs', rs = newRequest (sinker st) sb eb hd c :: rs'
         end.
Proof.
  induction script as [|a script IH]; intros bo c st; cbn [runLoop].
  - exists []; rewrite app_nil_r; auto.
  - destruct (runSession_step h sb eb hd a bo c st) as (cs1 & Hs & _ & _).
    destruct (runSession h sb eb hd a bo c st) as [[[st1 bo1] c1] err];
      cbn [fst] in *.
    destruct Hs as (_ & _ & R1).
    assert (Hnext : forall bo2 st2,
      runStep st1 st2 [] [] ->
      exists rs,
        requests (runLoop h sb eb hd script bo2 c1 st2).1 = requests st ++ rs
        /\ Forall (fun r => outgoingHeaders r = hd) rs
        /\ exists rs', rs = newRequest (sinker st) sb eb hd c :: rs').
    { intros bo2 st2 (_ & _ & R2).
      destruct (IH bo2 c1 st2) as (rs3 & R3 & F3 & _).
      exists (newRequest (sinker st) sb eb hd c :: rs3).
      rewrite R3, R2, R1, !app_nil_r, <- !app_assoc.
      split; [reflexivity | split; [| eauto]].
      constructor; [reflexivity | exact F3]. }
    assert (Hstop : forall st2 (r : ended (option Cursor * option error)),
      runStep st1 st2 [] [] ->
      exists rs,
        requests (st2, r).1 = requests st ++ rs
        /\ Forall (fun r => outgoingHeaders r = hd) rs
        /\ exists rs', rs = newRequest (sinker st) sb eb hd c :: rs').
    { intros st2 r (_ & _ & R2); cbn [fst].
      exists [newRequest (sinker st) sb eb hd c].
      rewrite R2, R1, !app_nil_r.
      split; [reflexivity | split; [| eauto]].
      constructor; [reflexivity | constructor]. }
    destruct err as [err|]; [| apply Hnext, runStep_refl].
    destruct (errors_Is err io_EOF); [apply Hstop, runStep_refl |].
    destruct (ctxCanceled (ctxErr a)); [apply Hstop, runStep_logSt |].
    destruct (errors_As_Retryable err) as [cause|];
      [| apply Hstop, runStep_set_metrics].
    destruct (if ctxDone a then _ else _) as [sleepFor bo2].
    destruct (sleepFor =? Stop).
    + apply Hstop.
      eapply runStep_eq;
        [eapply runStep_trans; [apply runStep_set_metrics | apply runStep_logSt]
        | reflexivity ..].
    + apply Hnext.
      eapply runStep_eq;
        [eapply runStep_trans; [apply runStep_set_metrics |];
         eapply runStep_trans; [apply runStep_logSt |];
         eapply runStep_trans; [apply runStep_logSt | apply runStep_add_sleep]
        | reflexivity ..].
Qed.

(** Once the client is created and the headers are parsed, a run with at
    least one attempt sends a request, and every request carries the
    headers. *)
Lemma run_requests h client a script c st hd :
  clientErr client = None ->
  run_headersArray (sinker st) (clientHeaders client) = Ret hd ->
  exists r rs,
    requests (run h client (a :: script) c st).1 = requests st ++ r :: rs
    /\ StartCursor r = Cursor_String c
    /\ Forall (fun r => outgoingHeaders r = hd) (r :: rs).
Proof.
  intros Hc Hh; unfold run; cbv zeta; rewrite Hc, Hh.
  match goal with |- context [runLoop h ?sb ?eb hd (a :: script) ?bo c ?x] =>
    destruct (runLoop_requests h sb eb hd (a :: script) bo c x)
      as (rs & R & F & rs' & ->);
    assert (Hx : runStep st x [] [])
  end.
  { eapply runStep_eq;
      [eapply runStep_trans; [| apply runStep_adjustedEndBlock_log];
       destruct (negb _);
       [eapply runStep_trans; apply runStep_logSt | apply runStep_logSt]
      | reflexivity ..]. }
  destruct Hx as (_ & _ & Rx); rewrite app_nil_r in Rx.
  do 2 eexists; rewrite R, Rx; split; [reflexivity |].
  split; [reflexivity | exact F].
Qed.

End RunSteps.

(** ** The constructor, the stop block and the messages *)

Section Claims.
Context `{Collaborators}.

Lemma New_sinker_finalBlocksOnly mode' pkg' om hash cc lg tr opts :
  finalBlocksOnly (New_sinker mode' pkg' om hash cc lg tr opts) = true ->
  buffer (New_sinker mode' pkg' om hash cc lg tr opts) = None.
Proof.
  unfold New_sinker; cbv zeta.
  match goal with |- context [fold_left ?f opts ?a] =>
    set (s := fold_left f opts a)
  end.
  destruct (finalBlocksOnly s) eqn:F; simpl.
  - destruct (buffer s) eqn:B; simpl; auto.
  - rewrite F; discriminate.
Qed.

Lemma New_Ret mode' pkg' om hash cc lg tr opts s e :
  New mode' pkg' om hash cc lg tr opts = Ret (s, e) ->
  s = log InfoLevel "sinker configured"
        (New_sinker mode' pkg' om hash cc lg tr opts)
  /\ e = None.
Proof.
  unfold New; cbv zeta.
  destruct (pkg _) as [p|]; [| discriminate].
  destruct (pkg_Modules p); [| discriminate].
  destruct (outputModule _) as [m|]; [| discriminate].
  destruct (Output m); [| discriminate].
  intros [= <- <-]; auto.
Qed.

(** C3 (amended). With [finalBlocksOnly], the sinker that [New] returns has
    no undo buffer and every request of a run asks for final blocks only.
    [HandleBlockUndoSignal] is called only for a [BlockUndoSignal] message:
    in a run in which the server sends none, it is never called. *)
Theorem C3_final_blocks_only_undo_only_if_sent
    mode' pkg' om hash cc lg tr opts s e h client script ce c :
  New mode' pkg' om hash cc lg tr opts = Ret (s, e) ->
  finalBlocksOnly s = true ->
  buffer s = None
  /\ Forall (fun r => FinalBlocksOnly r = true)
       (requests (Run h client script ce c (initial s)).1)
  /\ ((forall resp, In resp (scriptMessages script) ->
         isUndoSignal resp = false) ->
      Forall (fun k => isUndoCall k = false)
        (calls (Run h client script ce c (initial s)).1)).
Proof.
  intros HN HF.
  apply New_Ret in HN as [-> ->]; simpl in HF.
  split; [apply New_sinker_finalBlocksOnly, HF |].
  destruct (Run_step h client script ce c
              (initial (log InfoLevel "sinker configured"
                          (New_sinker mode' pkg' om hash cc lg tr opts))))
    as (cs & rs & (_ & K & R) & Hf & Hq).
  rewrite K, R; simpl; split.
  - eapply Forall_impl; [exact Hq |]; simpl; intros r [_ ->]; exact HF.
  - intros Hno; apply Forall_app; split.
    + eapply Forall_impl; [exact Hf |]; simpl.
      intros k (resp & Hin & Hk); specialize (Hno resp Hin).
      destruct k; simpl in *; subst; auto; discriminate.
    + unfold completionCalls.
      destruct (run _ _ _ _ _).2 as [[lc [err|]]|w|]; try constructor.
      destruct (isCompletionHandler h); repeat constructor.
Qed.

Lemma wrap64_small z : 0 <= z <= MaxUint64 -> wrap64 z = z.
Proof. unfold wrap64, MaxUint64; intros; apply Z.mod_small; lia. Qed.

(** C7. Every request of a run asks to stop at [adjustedEndBlock], and a
    run that has a client, parsed headers and at least one attempt sends
    such a request. That block is [0], not [MaxUint64], when the range is
    absent or has no end; with an undo buffer of capacity [C] and a range
    that ends at [E] it is the [uint64] sum of [E] and [C], which is
    [E + C] unless that sum exceeds [MaxUint64]. *)
Theorem C7_stop_block_num s h client script c :
  Forall (fun r => StopBlockNum r = adjustedEndBlock s)
    (requests (run h client script c (initial s)).1)
  /\ (forall hd a script',
        clientErr client = None ->
        run_headersArray s (clientHeaders client) = Ret hd ->
        script = a :: script' ->
        exists r rs,
          requests (run h client script c (initial s)).1 = r :: rs
          /\ StopBlockNum r = adjustedEndBlock s)
  /\ (blockRange s = None
      \/ (exists r, blockRange s = Some r /\ Range_EndBlock r = None) ->
      adjustedEndBlock s = 0 /\ adjustedEndBlock s <> MaxUint64)
  /\ (forall r E b,
        blockRange s = Some r -> Range_EndBlock r = Some E ->
        buffer s = Some b ->
        adjustedEndBlock s = wrap64 (E + uint64_of_int (Capacity b))
        /\ (0 <= E -> 0 <= Capacity b -> E + Capacity b <= MaxUint64 ->
            adjustedEndBlock s = E + Capacity b)).
Proof.
  assert (HF : Forall (fun r => StopBlockNum r = adjustedEndBlock s)
                 (requests (run h client script c (initial s)).1)).
  { destruct (run_step h client script c (initial s))
      as (cs & rs & (_ & _ & R) & _ & Hq).
    rewrite R; simpl.
    eapply Forall_impl; [exact Hq |]; simpl; tauto. }
  split; [exact HF | split; [| split]].
  - intros hd a script' Hc Hh ->.
    destruct (run_requests h client a script' c (initial s) hd Hc Hh)
      as (r & rs & R & _).
    cbn [requests initial app] in R.
    exists r, rs; split; [exact R |].
    rewrite R in HF; apply Forall_cons in HF as [HF _]; exact HF.
  - unfold adjustedEndBlock, MaxUint64.
    intros [-> | (r & -> & ->)]; split; (reflexivity || discriminate).
  - intros r E b Hr HE Hb; unfold adjustedEndBlock; rewrite Hr, HE, Hb.
    split; [reflexivity |].
    intros; unfold uint64_of_int.
    rewrite (wrap64_small (Capacity b)) by lia.
    apply wrap64_small; lia.
Qed.

(** C4 (amended). Every [Session] message is recorded: whatever was
    recorded before, the sinker's [requestActiveStartBlock] becomes the
    [resolved_start_block] of the message (the last one wins), the session
    is logged at the info level and nothing else is written to the log, no
    warning in particular; the receive loop goes on. *)
Theorem C4_every_session_message_is_recorded h r c st :
  requestActiveStartBlock
    (sinker (handleMessage h (Response_Session r) c st).1.1)
  = ResolvedStartBlock r
  /\ entries (logger (sinker (handleMessage h (Response_Session r) c st).1.1))
     = entries (logger (sinker st))
       ++ [(InfoLevel, "session initialized with remote endpoint")]
  /\ (handleMessage h (Response_Session r) c st).1.2 = c
  /\ (handleMessage h (Response_Session r) c st).2 = None.
Proof. repeat split. Qed.

(** C10 (amended). [New] never returns an error. It returns the sinker
    and a [nil] error whenever the package, its modules, the output module
    and its output are not [nil] once the options are applied; where one of
    them is [nil] it panics and returns nothing. *)
Theorem C10_New_returns_unless_nil_pointer
    mode' pkg' om hash cc lg tr opts :
  (forall s err,
     New mode' pkg' om hash cc lg tr opts <> Ret (s, Some err))
  /\ (forall p ms m o,
        pkg (New_sinker mode' pkg' om hash cc lg tr opts) = Some p ->
        pkg_Modules p = Some ms ->
        outputModule (New_sinker mode' pkg' om hash cc lg tr opts) = Some m ->
        Output m = Some o ->
        New mode' pkg' om hash cc lg tr opts
        = Ret (log InfoLevel "sinker configured"
                 (New_sinker mode' pkg' om hash cc lg tr opts), None))
  /\ (pkg (New_sinker mode' pkg' om hash cc lg tr opts) = None
      \/ (exists p,
            pkg (New_sinker mode' pkg' om hash cc lg tr opts) = Some p
            /\ pkg_Modules p = None)
      \/ outputModule (New_sinker mode' pkg' om hash cc lg tr opts) = None
      \/ (exists m,
            outputModule (New_sinker mode' pkg' om hash cc lg tr opts)
            = Some m
            /\ Output m = None) ->
      exists what, New mode' pkg' om hash cc lg tr opts = Panic what).
Proof.
  split; [| split].
  - intros s err HN; apply New_Ret in HN as [_ ?]; discriminate.
  - intros p ms m o Hp Hms Hm Ho; unfold New; cbv zeta.
    rewrite Hp, Hms, Hm, Ho; reflexivity.
  - intros Hnil; unfold New; cbv zeta.
    destruct (pkg _) as [p|]; [| eauto].
    destruct (pkg_Modules p) as [ms|] eqn:Hms; [| eauto].
    destruct (outputModule _) as [m|]; [| eauto].
    destruct (Output m) as [o|] eqn:Ho; [| eauto].
    exfalso.
    destruct Hnil as [Hn | [(p' & [= <-] & Hn) | [Hn | (m' & [= <-] & Hn)]]];
      congruence.
Qed.

(** ** The receive errors and the backoff *)


(** The flag returned by the receive loop. *)
Lemma recvLoop_receivedMessage h msgs final c recv st :
  (recvLoop h msgs final c recv st).2.1.2
  = match msgs with [] => recv | _ :: _ => true end.
Proof.
  revert c recv st; induction msgs as [|resp msgs IH]; intros c recv st;
    cbn [recvLoop]; [reflexivity |].
  destruct (handleMessage h resp c _) as [[st1 c1] [e|]]; [reflexivity |].
  rewrite IH; destruct msgs; reflexivity.
Qed.

Lemma doRequest_receivedMessage h c stream st :
  (doRequest h c stream st).2.1.2
  = match streamMessages stream with [] => false | _ :: _ => true end.
Proof.
  unfold doRequest; cbv zeta; destruct stream as [e|msgs final];
    [reflexivity |].
  apply recvLoop_receivedMessage.
Qed.

(** C9. The backoff with which the loop goes on after a session is the
    one it had, reset if the session received at least one message and
    untouched if it received none, whatever the error with which the
    session ended. Resetting the policy of [backoff.WithMaxRetries] puts its
    counter of retries back to [0]. *)
Theorem C9_backoff_reset_iff_message_received h sb eb hd a bo c st :
  (streamMessages (stream a) <> [] ->
   (runSession h sb eb hd a bo c st).1.1.2 = Reset bo)
  /\ (streamMessages (stream a) = [] ->
      (runSession h sb eb hd a bo c st).1.1.2 = bo)
  /\ (forall b max numTries s,
        Reset (maxRetries_at b max numTries s)
        = maxRetries_at b max 0 (bo_reset b s)).
Proof.
  assert (E : (runSession h sb eb hd a bo c st).1.1.2
              = if match streamMessages (stream a) with
                   | [] => false | _ :: _ => true end
                then Reset bo else bo).
  { unfold runSession; cbv zeta.
    match goal with |- context [doRequest h c (stream a) ?x] =>
      rewrite <- (doRequest_receivedMessage h c (stream a) x);
      destruct (doRequest h c (stream a) x) as [st1 [[c1 recv] err]]
    end.
    reflexivity. }
  rewrite E; repeat split.
  - destruct (streamMessages (stream a)); congruence.
  - intros ->; reflexivity.
Qed.

(** A session that receives no message ends with [sessionError], and
    leaves the cursor and the backoff as they are. *)
Lemma runSession_no_message h sb eb hd a bo c st err :
  sessionError (stream a) = Some err ->
  exists st1,
    runSession h sb eb hd a bo c st = (st1, bo, c, Some err)
    /\ sleeps st1 = sleeps st.
Proof.
  unfold runSession, doRequest, sessionError; cbv zeta.
  destruct (stream a) as [e|[|m msgs] final]; intros [= <-].
  - eexists; split; reflexivity.
  - cbn [recvLoop]; eexists; split; [reflexivity |].
    unfold traceSt; destruct (tracer _); reflexivity.
Qed.

Lemma failureCause_inv a cause :
  failureCause a = Some cause ->
  exists err,
    sessionError (stream a) = Some err
    /\ errors_Is err io_EOF = false
    /\ ctxCanceled (ctxErr a) = false
    /\ ctxDone a = false
    /\ errors_As_Retryable err = Some cause.
Proof.
  unfold failureCause.
  destruct (sessionError (stream a)) as [err|]; [| discriminate].
  destruct (errors_Is err io_EOF) eqn:HE; [discriminate |].
  destruct (ctxCanceled (ctxErr a)) eqn:HC; [discriminate |].
  destruct (ctxDone a) eqn:HD; [discriminate |].
  simpl; intros HA; exists err; repeat split; (reflexivity || assumption).
Qed.

(** An error without the retryable marker is returned by the loop at once,
    as it is, and the loop does not sleep. *)
Lemma runLoop_surfaces_unretryable h sb eb hd a script bo c st err :
  (runSession h sb eb hd a bo c st).2 = Some err ->
  errors_Is err io_EOF = false ->
  ctxCanceled (ctxErr a) = false ->
  errors_As_Retryable err = None ->
  (runLoop h sb eb hd (a :: script) bo c st).2
  = Returned ((runSession h sb eb hd a bo c st).1.2, Some err)
  /\ sleeps (runLoop h sb eb hd (a :: script) bo c st).1 = sleeps st.
Proof.
  intros HS HE HC HA.
  destruct (runSession_step h sb eb hd a bo c st) as (cs & _ & _ & S).
  cbn [runLoop].
  destruct (runSession h sb eb hd a bo c st) as [[[st1 bo1] c1] e];
    cbn [fst snd] in *; subst e.
  rewrite HE, HC, HA; split; [reflexivity | exact S].
Qed.

(** An [Unauthenticated] error of the first receive is not retried. *)
Lemma unauthenticated_is_not_retried h sb eb hd a script bo c st final :
  stream a = Receive [] final ->
  AsGRPCError final = Some codes.Unauthenticated ->
  errors_Is final io_EOF = false ->
  errors_As_Retryable final = None ->
  ctxCanceled (ctxErr a) = false ->
  (runLoop h sb eb hd (a :: script) bo c st).2
  = Returned (c, Some (fmt_Errorf "stream failure" final))
  /\ sleeps (runLoop h sb eb hd (a :: script) bo c st).1 = sleeps st.
Proof.
  intros Hs Hg HE HA HC.
  assert (Hq : sessionError (stream a)
               = Some (fmt_Errorf "stream failure" final)).
  { rewrite Hs; unfold sessionError, recvError; rewrite HE, Hg; reflexivity. }
  destruct (runSession_no_message h sb eb hd a bo c st _ Hq) as (st1 & E & _).
  destruct (runLoop_surfaces_unretryable h sb eb hd a script bo c st
              (fmt_Errorf "stream failure" final)) as (R & S);
    try (rewrite E; reflexivity); auto.
  rewrite R, E; auto.
Qed.

(** When the backoff answers [Stop], or the context is done, the error
    returned wraps the cause of the session that has just failed. *)
Lemma runLoop_expired_wraps_current_cause
    h sb eb hd a script bo c st err cause :
  (runSession h sb eb hd a bo c st).2 = Some err ->
  errors_Is err io_EOF = false ->
  ctxCanceled (ctxErr a) = false ->
  errors_As_Retryable err = Some cause ->
  ctxDone a = true
  \/ (NextBackOff (runSession h sb eb hd a bo c st).1.1.2).1 = Stop ->
  (runLoop h sb eb hd (a :: script) bo c st).2
  = Returned ((runSession h sb eb hd a bo c st).1.2,
              Some (fmt_Errorf2 ErrBackOffExpired cause)).
Proof.
  intros HS HE HC HA HD; cbn [runLoop].
  destruct (runSession h sb eb hd a bo c st) as [[[st1 bo1] c1] e];
    cbn [fst snd] in *; subst e.
  rewrite HE, HC, HA.
  destruct HD as [-> | HD]; [reflexivity |].
  destruct (ctxDone a); [reflexivity |].
  destruct (NextBackOff bo1) as [d bo2]; cbn [fst] in HD; subst d.
  reflexivity.
Qed.

(** The loop returns without an error only after a session that ended
    with [io.EOF], or with another error while the context was canceled. *)
Lemma runLoop_nil_error h sb eb hd script :
  forall bo c st lastCursor,
    (runLoop h sb eb hd script bo c st).2 = Returned (lastCursor, None) ->
    Exists (fun a =>
              ctxCanceled (ctxErr a) = true
              \/ exists bo0 c0 st0 err,
                   (runSession h sb eb hd a bo0 c0 st0).2 = Some err
                   /\ errors_Is err io_EOF = true) script.
Proof.
  induction script as [|a script IH]; intros bo c st lc; cbn [runLoop];
    [discriminate |].
  destruct (runSession h sb eb hd a bo c st) as [[[st1 bo1] c1] e] eqn:E.
  destruct e as [err|];
    [| intros Hr; apply Exists_cons_tl; eapply IH; exact Hr].
  destruct (errors_Is err io_EOF) eqn:HE.
  { intros _; apply Exists_cons_hd; right.
    exists bo, c, st, err; rewrite E; auto. }
  destruct (ctxCanceled (ctxErr a)) eqn:HC.
  { intros _; apply Exists_cons_hd; left; exact HC. }
  destruct (errors_As_Retryable err); [| discriminate].
  destruct (if ctxDone a then _ else _) as [d bo2].
  destruct (d =? Stop); [discriminate |].
  intros Hr; apply Exists_cons_tl; eapply IH; exact Hr.
Qed.

(** A non-productive retryable failure while retries are left: the loop
    sleeps and goes on, with one more retry counted. *)
Lemma runLoop_failure_retry h sb eb hd a b k s c st cause :
  failureCause a = Some cause -> neverStops b -> 0 <= k < 15 ->
  exists st2 s' d,
    sleeps st2 = sleeps st ++ [d] /\ d <> Stop
    /\ forall script,
         runLoop h sb eb hd (a :: script) (maxRetries_at b 15 k s) c st
         = runLoop h sb eb hd script (maxRetries_at b 15 (k + 1) s') c st2.
Proof.
  intros Hc Hb Hk.
  apply failureCause_inv in Hc as (err & Hs & HE & HC & HD & HA).
  destruct (runSession_no_message h sb eb hd a (maxRetries_at b 15 k s) c st
              err Hs) as (st1 & E1 & S1).
  pose proof (Hb s) as Hd.
  destruct (bo_next b s) as [d s'] eqn:En; cbn [fst] in Hd.
  eexists _, s', d; split; [| split; [exact Hd |]].
  2: { intros script; cbn [runLoop]; rewrite E1, HE, HC, HA, HD.
       unfold NextBackOff, maxRetries_at;
         cbn [bo_next bo_cur bo_state bo_reset].
       unfold maxRetries_next.
       replace (15 =? 0) with false by reflexivity.
       replace (15 <=? k) with false by (symmetry; apply Z.leb_gt; lia).
       rewrite En.
       replace (d =? Stop) with false by (symmetry; apply Z.eqb_neq; exact Hd).
       rewrite wrap64_small by (unfold MaxUint64; lia).
       reflexivity. }
  cbn; rewrite <- S1; reflexivity.
Qed.

(** A non-productive retryable failure when the retries are used up: the
    loop returns [ErrBackOffExpired] wrapping the cause of this failure. *)
Lemma runLoop_failure_expired h sb eb hd a script b k s c st cause :
  failureCause a = Some cause -> 15 <= k ->
  exists st2,
    runLoop h sb eb hd (a :: script) (maxRetries_at b 15 k s) c st
    = (st2, Returned (c, Some (fmt_Errorf2 ErrBackOffExpired cause)))
    /\ sleeps st2 = sleeps st.
Proof.
  intros Hc Hk.
  apply failureCause_inv in Hc as (err & Hs & HE & HC & HD & HA).
  destruct (runSession_no_message h sb eb hd a (maxRetries_at b 15 k s) c st
              err Hs) as (st1 & E1 & S1).
  cbn [runLoop]; rewrite E1, HE, HC, HA, HD.
  unfold NextBackOff, maxRetries_at; cbn [bo_next bo_cur bo_state bo_reset].
  unfold maxRetries_next.
  replace (15 =? 0) with false by reflexivity.
  replace (15 <=? k) with true by (symmetry; apply Z.leb_le; lia).
  replace (Stop =? Stop) with true by reflexivity.
  eexists; split; [reflexivity |].
  cbn; exact S1.
Qed.

(** With [k] retries counted, [15 - k] failures in a row leave the loop
    running, and one more makes it return. *)
Lemma runLoop_failures h sb eb hd b c a rest cause :
  neverStops b -> failureCause a = Some cause ->
  forall script k s st,
    0 <= k -> k + Z.of_nat (length script) = 15 ->
    Forall (fun a => is_Some (failureCause a)) script ->
    (runLoop h sb eb hd script (maxRetries_at b 15 k s) c st).2 = Running
    /\ exists st' ds,
         runLoop h sb eb hd (script ++ a :: rest) (maxRetries_at b 15 k s) c st
         = (st', Returned (c, Some (fmt_Errorf2 ErrBackOffExpired cause)))
         /\ sleeps st' = sleeps st ++ ds
         /\ length ds = length script
         /\ Forall (fun d => d <> Stop) ds.
Proof.
  intros Hb Ha; induction script as [|a1 script IH]; intros k s st Hk Hl Hf.
  - split; [reflexivity |].
    destruct (runLoop_failure_expired h sb eb hd a rest b k s c st cause Ha)
      as (st2 & E & S); [simpl in Hl; lia |].
    exists st2, []; rewrite app_nil_r; simpl; auto.
  - apply Forall_cons in Hf as [[cause1 H1] Hf].
    simpl length in Hl.
    destruct (runLoop_failure_retry h sb eb hd a1 b k s c st cause1 H1 Hb)
      as (st2 & s' & d & S & Hd & E); [lia |].
    destruct (IH (k + 1) s' st2) as (R & st' & ds & E' & S' & L & F);
      [lia | lia | exact Hf |].
    split; [rewrite E; exact R |].
    exists st', (d :: ds); simpl app; rewrite E, E'.
    split; [reflexivity |].
    split; [rewrite S', S, <- app_assoc; reflexivity |].
    split; [simpl; congruence | constructor; auto].
Qed.

(** The backoff with which the loop goes on after a session. *)
Lemma runSession_backOff h sb eb hd a bo c st :
  (runSession h sb eb hd a bo c st).1.1.2
  = match streamMessages (stream a) with
    | [] => bo
    | _ :: _ => Reset bo
    end.
Proof.
  unfold runSession; cbv zeta.
  match goal with |- context [doRequest h c (stream a) ?x] =>
    pose proof (doRequest_receivedMessage h c (stream a) x) as D;
    destruct (doRequest h c (stream a) x) as [st1 [[c1 recv] err]]
  end.
  cbn [fst snd] in *; subst recv.
  destruct (streamMessages (stream a)); reflexivity.
Qed.

(** A session that received a message and then failed with an error that
    can be retried: whatever the number of retries counted before, the
    counter is reset, and the retry granted for this failure is the first
    one counted. *)
Lemma runLoop_productive_failure h sb eb hd p b k s c st err cause :
  neverStops b ->
  streamMessages (stream p) <> [] ->
  (runSession h sb eb hd p (maxRetries_at b 15 k s) c st).2 = Some err ->
  errors_Is err io_EOF = false ->
  errors_As_Retryable err = Some cause ->
  ctxCanceled (ctxErr p) = false -> ctxDone p = false ->
  exists st2 s' d,
    sleeps st2 = sleeps st ++ [d] /\ d <> Stop
    /\ forall script,
         runLoop h sb eb hd (p :: script) (maxRetries_at b 15 k s) c st
         = runLoop h sb eb hd script (maxRetries_at b 15 1 s')
             (runSession h sb eb hd p (maxRetries_at b 15 k s) c st).1.2 st2.
Proof.
  intros Hb Hm Hs HE HA HC HD.
  pose proof (runSession_backOff h sb eb hd p (maxRetries_at b 15 k s) c st)
    as B.
  destruct (runSession_step h sb eb hd p (maxRetries_at b 15 k s) c st)
    as (cs & _ & _ & S).
  destruct (runSession h sb eb hd p (maxRetries_at b 15 k s) c st)
    as [[[st1 bo1] c1] e] eqn:E; cbn [fst snd] in *; subst e.
  destruct (streamMessages (stream p)); [congruence |]; subst bo1.
  pose proof (Hb (bo_reset b s)) as Hd.
  destruct (bo_next b (bo_reset b s)) as [d s'] eqn:En; cbn [fst] in Hd.
  eexists _, s', d; split; [| split; [exact Hd |]].
  2: { intros script; cbn [runLoop]; rewrite E, HE, HC, HA, HD.
       unfold NextBackOff, Reset, maxRetries_at;
         cbn [bo_next bo_cur bo_state bo_reset snd].
       unfold maxRetries_next.
       replace (15 =? 0) with false by reflexivity.
       replace (15 <=? 0) with false by reflexivity.
       rewrite En.
       replace (d =? Stop) with false by (symmetry; apply Z.eqb_neq; exact Hd).
       reflexivity. }
  cbn; rewrite <- S; reflexivity.
Qed.

(** C6 (amended). Without [infiniteRetry], the backoff of the loop is the
    policy of the sinker capped at 15 retries, counted from the start of
    the run or from the last session that received a message. From the
    start, after 15 non-productive retryable failures in a row the loop is
    still running, having slept 15 times; at the next one, the sixteenth,
    it returns [ErrBackOffExpired] wrapping the cause of that last failure.
    After a session that received a message and failed, whatever the
    number of retries counted before it, the retry granted for that
    failure is the first: after 14 non-productive failures the loop is
    still running, and it returns at the next one. *)
Theorem C6_backoff_expired_wraps_last_cause
    h client hd script a rest c s cause :
  infiniteRetry s = false -> neverStops (backOff s) ->
  clientErr client = None ->
  run_headersArray s (clientHeaders client) = Ret hd ->
  Forall (fun a => is_Some (failureCause a)) script ->
  failureCause a = Some cause ->
  run_backOff s = maxRetries_at (backOff s) 15 0 (bo_cur (backOff s))
  /\ (length script = 15%nat ->
      (run h client script c (initial s)).2 = Running
      /\ (run h client (script ++ a :: rest) c (initial s)).2
         = Returned (c, Some (fmt_Errorf2 ErrBackOffExpired cause))
      /\ length (sleeps (run h client (script ++ a :: rest) c (initial s)).1)
         = 15%nat
      /\ Forall (fun d => d <> Stop)
           (sleeps (run h client (script ++ a :: rest) c (initial s)).1))
  /\ (forall sb eb k s0 c0 st0 p err cause0,
        length script = 14%nat ->
        streamMessages (stream p) <> [] ->
        (runSession h sb eb hd p (maxRetries_at (backOff s) 15 k s0) c0
           st0).2 = Some err ->
        errors_Is err io_EOF = false ->
        errors_As_Retryable err = Some cause0 ->
        ctxCanceled (ctxErr p) = false -> ctxDone p = false ->
        (runLoop h sb eb hd (p :: script)
           (maxRetries_at (backOff s) 15 k s0) c0 st0).2 = Running
        /\ (runLoop h sb eb hd (p :: script ++ a :: rest)
              (maxRetries_at (backOff s) 15 k s0) c0 st0).2
           = Returned
               ((runSession h sb eb hd p (maxRetries_at (backOff s) 15 k s0)
                   c0 st0).1.2,
                Some (fmt_Errorf2 ErrBackOffExpired cause))
        /\ length (sleeps (runLoop h sb eb hd (p :: script ++ a :: rest)
                             (maxRetries_at (backOff s) 15 k s0) c0 st0).1)
           = (length (sleeps st0) + 15)%nat).
Proof.
  intros HI Hb HC HH HF Ha.
  split; [unfold run_backOff; rewrite HI; reflexivity |].
  split.
  - intros HL.
    assert (Hrun : forall scr,
      run h client scr c (initial s)
      = runLoop h (Range_StartBlock (blockRange s)) (adjustedEndBlock s) hd scr
          (maxRetries_at (backOff s) 15 0 (bo_cur (backOff s))) c
          (adjustedEndBlock_log
             (logSt DebugLevel "configured backoff to stop after 15 retries"
                (logSt DebugLevel "configured default backoff" (initial s))))).
    { intros scr; unfold run, run_backOff; cbv zeta.
      rewrite HC; cbn [sinker initial]; rewrite HH.
      change (infiniteRetry (sinker (logSt ?l ?m ?x)))
        with (infiniteRetry (sinker x)).
      cbn [sinker initial]; rewrite HI; reflexivity. }
    rewrite !Hrun.
    match goal with |- context [runLoop h ?sb ?eb hd _ _ c ?x] =>
      destruct (runLoop_failures h sb eb hd (backOff s) c a rest cause Hb Ha
                  script 0 (bo_cur (backOff s)) x)
        as (R & st' & ds & E & S & L & F); [lia | lia | exact HF |];
      assert (S0 : sleeps x = [])
    end.
    { unfold adjustedEndBlock_log.
      destruct (blockRange _); [| reflexivity].
      destruct (Range_EndBlock _); [| reflexivity].
      destruct (buffer _); reflexivity. }
    rewrite E; cbn [fst snd]; rewrite S, S0; simpl.
    repeat split; auto; congruence.
  - intros sb eb k s0 c0 st0 p err cause0 HL Hm Hs HE HA HCp HDp.
    destruct (runLoop_productive_failure h sb eb hd p (backOff s) k s0 c0 st0
                err cause0 Hb Hm Hs HE HA HCp HDp)
      as (st2 & s' & d & S2 & Hd & E2).
    rewrite (E2 script), (E2 (script ++ a :: rest)).
    destruct (runLoop_failures h sb eb hd (backOff s)
                (runSession h sb eb hd p (maxRetries_at (backOff s) 15 k s0)
                   c0 st0).1.2 a rest cause Hb Ha script 1 s' st2)
      as (R & st' & ds & E & S & L & F); [lia | lia | exact HF |].
    split; [exact R |].
    rewrite E; cbn [fst snd]; split; [reflexivity |].
    rewrite S, S2, !length_app, L, HL; cbn; lia.
Qed.

(** ** Cancellation and completion *)


(** ** The gauge of the last contiguous block *)

Lemma setLastContiguousBlock_twice label v w m :
  SetUint64 "ProgressMessageLastContiguousBlock" w label
    (setLastContiguousBlock label v m)
  = setLastContiguousBlock label (Some w) m.
Proof.
  destruct v; simpl; [| reflexivity].
  unfold SetUint64; apply insert_insert_eq.
Qed.

(** In production mode, the loop over the ranges of the last stage leaves
    in the gauge the end of the last range that starts at or after
    [requestActiveStartBlock]. *)
Lemma completedRanges_production_last s n i ranges :
  mode s = SubstreamsModeProduction -> i = n - 1 ->
  forall j v m t,
    (completedRanges s n i j ranges
       (setLastContiguousBlock (stageString (uint32_of_int i)) v m, t)).1
    = setLastContiguousBlock (stageString (uint32_of_int i))
        (lastStartingFrom (requestActiveStartBlock s) ranges v) m.
Proof.
  intros Hm Hi; induction ranges as [|r ranges IH]; intros j v m t;
    cbn [completedRanges lastStartingFrom]; [reflexivity |].
  rewrite bool_decide_eq_true_2 by exact Hm.
  replace (i =? n - 1) with true by (symmetry; apply Z.eqb_eq; exact Hi).
  cbn [andb].
  destruct ((requestActiveStartBlock s <=? StartBlock r)
            && (EndBlock r >=? requestActiveStartBlock s)).
  - rewrite setLastContiguousBlock_twice; apply IH.
  - apply IH.
Qed.

(** In every other stage, and in development mode, the ranges after the
    first leave the gauge as it is. *)
Lemma completedRanges_rest s n i ranges :
  mode s <> SubstreamsModeProduction \/ i <> n - 1 ->
  forall j m t, 0 < j -> (completedRanges s n i j ranges (m, t)).1 = m.
Proof.
  intros Hc; induction ranges as [|r ranges IH]; intros j m t Hj;
    cbn [completedRanges]; [reflexivity |].
  replace (bool_decide (mode s = SubstreamsModeProduction) && (i =? n - 1))
    with false.
  - replace (j =? 0) with false by (symmetry; apply Z.eqb_neq; lia).
    apply IH; lia.
  - symmetry; apply andb_false_iff.
    destruct Hc as [Hc|Hc];
      [left; apply bool_decide_eq_false_2, Hc | right; apply Z.eqb_neq, Hc].
Qed.

(** In every other stage, and in development mode, the gauge is set from
    the first completed range of the stage. *)
Lemma completedRanges_first s n i ranges m t :
  mode s <> SubstreamsModeProduction \/ i <> n - 1 ->
  (completedRanges s n i 0 ranges (m, t)).1
  = setLastContiguousBlock (stageString (uint32_of_int i))
      (EndBlock <$> head ranges) m.
Proof.
  intros Hc; destruct ranges as [|r ranges]; cbn [completedRanges];
    [reflexivity |].
  replace (bool_decide (mode s = SubstreamsModeProduction) && (i =? n - 1))
    with false.
  - cbn; apply completedRanges_rest; [exact Hc | lia].
  - symmetry; apply andb_false_iff.
    destruct Hc as [Hc|Hc];
      [left; apply bool_decide_eq_false_2, Hc | right; apply Z.eqb_neq, Hc].
Qed.

(** The completion callback is called by [Run] at most once, after the
    calls of the sessions, and only if [run] returned without an error. *)
Lemma Run_completion_calls h client script ce c st :
  exists cs,
    calls (Run h client script ce c st).1
    = calls st ++ cs
      ++ completionCalls h (run h client script c (Run_prelude st)).2
    /\ Forall (fun k => isCompletionCall k = false) cs.
Proof.
  destruct (Run_step h client script ce c st)
    as (cs & rs & (_ & K & _) & Hf & _).
  exists cs; split; [exact K |].
  eapply Forall_impl; [exact Hf |]; simpl.
  intros k (resp & _ & Hk); destruct k; simpl in *; tauto.
Qed.

End Claims.

(** ** Completion without cancellation *)

(** If the context is not canceled at the end of any session, the
    completion callback is called only in a run in which a session ended
    with [io.EOF]. *)
Lemma completion_only_after_EOF `{Collaborators}
    (h : SinkerHandler) client script c st :
  Forall (fun a => ctxCanceled (ctxErr a) = false) script ->
  completionCalls h (run h client script c st).2 <> [] ->
  Exists (fun a => exists sb eb hd bo0 c0 st0 err,
            (runSession h sb eb hd a bo0 c0 st0).2 = Some err
            /\ errors_Is err io_EOF = true) script.
Proof.
  intros Hctx; unfold run; cbv zeta.
  destruct (clientErr client); [simpl; congruence |].
  destruct (run_headersArray _ _) as [hd|w|w]; try (simpl; congruence).
  match goal with |- context [runLoop h ?sb ?eb hd script ?bo c ?x] =>
    pose proof (runLoop_nil_error h sb eb hd script bo c x) as Hnil;
    destruct (runLoop h sb eb hd script bo c x) as [st1 [[lc [e|]]|w|]];
    cbn [snd completionCalls] in *; try congruence;
    intros _; specialize (Hnil lc eq_refl);
    revert Hnil; generalize sb eb
  end.
  intros sb eb Hnil.
  induction Hnil as [a l Ha | a l _ IH].
  - apply Forall_cons in Hctx as [Hc _].
    destruct Ha as [Ha | (bo0 & c0 & st0 & err & Ha)]; [congruence |].
    apply Exists_cons_hd; eauto 10.
  - apply Forall_cons in Hctx as [_ Hctx]; apply Exists_cons_tl; auto.
Qed.

(** ** The earlier variant *)

(** The earlier variant asks for [MaxUint64] where the range is absent or
    has no end; the present one asks for [0]. *)
Lemma Legacy_stopBlock_unbounded `{Collaborators} (s : Sinker) :
  blockRange s = None
  \/ (exists r, blockRange s = Some r /\ Range_EndBlock r = None) ->
  Legacy.stopBlock s = MaxUint64 /\ adjustedEndBlock s = 0.
Proof.
  unfold Legacy.stopBlock, Legacy.adjustStreamRange_EndBlock, adjustedEndBlock.
  intros [-> | (r & -> & ->)]; destruct (buffer s); auto.
Qed.

(** * The properties on the scenarios *)

Section Scenarios.
Import Sample.
#[local] Existing Instance collaborators.

Lemma NewExponentialBackOff_neverStops : neverStops NewExponentialBackOff.
Proof.
  intros interval; unfold NewExponentialBackOff, exponential_next, Stop;
    cbn [bo_next fst].
  lia.
Qed.

(** C1. In production mode the server resolves the start block to 150.
    The only completed range of the last stage, [100, 200], contains block
    150, and the gauge of the stage is not set. With the ranges [150, 200]
    and [300, 400], of which only the first contains block 150, the gauge
    is left at 400. *)
Theorem C1_range_containing_start_block_is_not_selected :
  containsBlock around150 150
  /\ lastContiguousBlock0 productionSinker (progressStream [around150]) = None
  /\ containsBlock from150 150 /\ ~ containsBlock from300 150
  /\ lastContiguousBlock0 productionSinker (progressStream [from150; from300])
     = Some 400.
Proof.
  unfold containsBlock; cbn [StartBlock EndBlock around150 from150 from300].
  repeat split; try lia; vm_compute; reflexivity.
Qed.

(** C2. The range is [100, 105) and the context is canceled after block
    100: the stream fails, [run] swallows the error, and [Run] calls the
    completion callback with the cursor of block 100. *)
Theorem C2_completion_called_after_cancellation :
  calls (Run completionHandler okClient
           [attempt canceledStream (Some context_Canceled)]
           (Some context_Canceled) None (initial boundedSinker)).1
  = [HandleBlockScopedData (block 100 "c100") None "c100";
     HandleBlockRangeCompletion (Some "c100")]
  /\ (Run completionHandler okClient
        [attempt canceledStream (Some context_Canceled)]
        (Some context_Canceled) None (initial boundedSinker)).2
     = Returned None.
Proof. split; vm_compute; reflexivity. Qed.

(** C3 does not hold as stated: [New] has discarded the undo buffer of a
    sinker with [finalBlocksOnly], and the undo signal that the server
    sends all the same is passed to the handler. *)
Lemma C3_undo_signal_reaches_the_handler :
  New SubstreamsModeDevelopment (Some package) (Some mapper) [] None
    infoLogger false finalOptions = Ret (finalSinker, None)
  /\ finalBlocksOnly finalSinker = true
  /\ buffer finalSinker = None
  /\ calls (Run plainHandler okClient [attempt undoStream None] None None
             (initial finalSinker)).1
     = [HandleBlockUndoSignal undoTo99 "c99"].
Proof. repeat split; vm_compute; reflexivity. Qed.

Lemma C3_final_blocks_only_witness :
  buffer finalSinker = None
  /\ Forall (fun k => isUndoCall k = false)
       (calls (Run plainHandler okClient [attempt blocksStream None] None None
                 (initial finalSinker)).1).
Proof.
  destruct (C3_final_blocks_only_undo_only_if_sent
              SubstreamsModeDevelopment (Some package) (Some mapper) [] None
              infoLogger false finalOptions finalSinker None plainHandler
              okClient [attempt blocksStream None] None None)
    as (B & _ & U); [vm_compute; reflexivity | reflexivity |].
  split; [exact B | apply U].
  intros resp [<- | [<- | []]]; reflexivity.
Defined.

(** C4 does not hold as stated: the second [Session] message of a stream
    replaces the start block recorded for the first, and it is logged like
    the first, at the info level. *)
Lemma C4_second_session_message_overwrites :
  requestActiveStartBlock
    (sinker (doRequest plainHandler None twoSessions (initial boundedSinker)).1)
  = 20
  /\ entries
       (logger
          (sinker (doRequest plainHandler None twoSessions
                     (initial boundedSinker)).1))
     = [(InfoLevel, "sinker configured");
        (InfoLevel, "session initialized with remote endpoint");
        (InfoLevel, "session initialized with remote endpoint")].
Proof. split; vm_compute; reflexivity. Qed.


(** C6 does not hold as stated: after 15 non-productive attempts in a row
    the loop has slept 15 times and is still running; the backoff is
    exhausted at the sixteenth. *)
Lemma C6_fifteen_attempts_do_not_exhaust_the_backoff :
  (run plainHandler okClient (repeat unavailableAttempt 15) None
     (initial boundedSinker)).2 = Running
  /\ length (sleeps (run plainHandler okClient (repeat unavailableAttempt 15)
                       None (initial boundedSinker)).1) = 15%nat
  /\ (run plainHandler okClient (repeat unavailableAttempt 16) None
        (initial boundedSinker)).2
     = Returned (None, Some (fmt_Errorf2 ErrBackOffExpired unavailable)).
Proof. repeat split; vm_compute; reflexivity. Qed.

Lemma C6_backoff_expired_witness :
  ((run plainHandler okClient (repeat unavailableAttempt 15) None
      (initial boundedSinker)).2 = Running
   /\ (run plainHandler okClient
         (repeat unavailableAttempt 15 ++ [resetAttempt]) None
         (initial boundedSinker)).2
      = Returned (None, Some (fmt_Errorf2 ErrBackOffExpired reset)))
  /\ ((runLoop plainHandler 100 105 []
         (SampleRun.productiveFailure :: repeat unavailableAttempt 14)
         (maxRetries_at NewExponentialBackOff 15 7 60000) None
         (initial boundedSinker)).2 = Running
      /\ (runLoop plainHandler 100 105 []
            (SampleRun.productiveFailure
             :: repeat unavailableAttempt 14 ++ [resetAttempt])
            (maxRetries_at NewExponentialBackOff 15 7 60000) None
            (initial boundedSinker)).2
         = Returned (None, Some (fmt_Errorf2 ErrBackOffExpired reset))).
Proof.
  split.
  - destruct (C6_backoff_expired_wraps_last_cause plainHandler okClient []
                (repeat unavailableAttempt 15) resetAttempt [] None
                boundedSinker reset) as (_ & A & _).
    + reflexivity.
    + exact NewExponentialBackOff_neverStops.
    + reflexivity.
    + reflexivity.
    + repeat constructor; exists unavailable; reflexivity.
    + reflexivity.
    + destruct (A eq_refl) as (R & E & _); split; [exact R | exact E].
  - destruct (C6_backoff_expired_wraps_last_cause plainHandler okClient []
                (repeat unavailableAttempt 14) resetAttempt [] None
                boundedSinker reset) as (_ & _ & B).
    + reflexivity.
    + exact NewExponentialBackOff_neverStops.
    + reflexivity.
    + reflexivity.
    + repeat constructor; exists unavailable; reflexivity.
    + reflexivity.
    + destruct (B 100 105 7 60000 None (initial boundedSinker)
                  SampleRun.productiveFailure (retryable unavailable)
                  unavailable)
        as (R & E & _);
        [reflexivity | discriminate | reflexivity | reflexivity
        | reflexivity | reflexivity | reflexivity |].
      split; [exact R | exact E].
Defined.

Lemma C7_stop_block_witness :
  (adjustedEndBlock unboundedSinker = 0
   /\ adjustedEndBlock unboundedSinker <> MaxUint64)
  /\ adjustedEndBlock bufferedSinker = 103 + 2
  /\ (exists r rs,
        requests (run plainHandler okClient [attempt blocksStream None] None
                    (initial bufferedSinker)).1 = r :: rs
        /\ StopBlockNum r = 105)
  /\ exists r rs,
       requests (run plainHandler okClient [attempt blocksStream None] None
                   (initial unboundedSinker)).1 = r :: rs
       /\ StopBlockNum r = 0.
Proof.
  split; [| split; [| split]].
  - apply (C7_stop_block_num unboundedSinker plainHandler okClient [] None).
    right; exists unbounded; split; reflexivity.
  - apply (C7_stop_block_num bufferedSinker plainHandler okClient [] None)
      with (r := {| startBlock := 100; endBlock := Some 103 |})
           (b := {| capacity := 2; blocks := [] |});
      try reflexivity; cbn; unfold MaxUint64; lia.
  - destruct (C7_stop_block_num bufferedSinker plainHandler okClient
                [attempt blocksStream None] None) as (_ & S & _).
    destruct (S [] (attempt blocksStream None) [] eq_refl eq_refl eq_refl)
      as (r & rs & R & E).
    exists r, rs; split; [exact R | exact E].
  - destruct (C7_stop_block_num unboundedSinker plainHandler okClient
                [attempt blocksStream None] None) as (_ & S & _).
    destruct (S [] (attempt blocksStream None) [] eq_refl eq_refl eq_refl)
      as (r & rs & R & E).
    exists r, rs; split; [exact R | exact E].
Defined.



Lemma C9_backoff_reset_witness :
  (runSession plainHandler 100 105 []
     (attempt canceledStream None)
     (maxRetries_at NewExponentialBackOff 15 15 60000) None
     (initial boundedSinker)).1.1.2
  = maxRetries_at NewExponentialBackOff 15 0 500
  /\ (runSession plainHandler 100 105 [] unavailableAttempt
        (maxRetries_at NewExponentialBackOff 15 7 60000) None
        (initial boundedSinker)).1.1.2
     = maxRetries_at NewExponentialBackOff 15 7 60000.
Proof.
  pose proof (C9_backoff_reset_iff_message_received plainHandler 100 105 []
                (attempt canceledStream None)
                (maxRetries_at NewExponentialBackOff 15 15 60000) None
                (initial boundedSinker)) as (Hreset & _ & Hcount).
  pose proof (C9_backoff_reset_iff_message_received plainHandler 100 105 []
                unavailableAttempt
                (maxRetries_at NewExponentialBackOff 15 7 60000) None
                (initial boundedSinker)) as (_ & Hsame & _).
  split.
  - rewrite Hreset by discriminate. apply Hcount.
  - apply Hsame; reflexivity.
Defined.

(** C10 does not hold as stated: with a [nil] package, [New] panics
    when it logs the configuration, and returns nothing. *)
Lemma C10_New_panics_on_nil_package :
  New SubstreamsModeDevelopment None (Some mapper) [] None infoLogger false []
  = Panic "nil pointer dereference: s.pkg".
Proof. reflexivity. Qed.

Lemma C10_New_returns_witness :
  New SubstreamsModeDevelopment (Some package) (Some mapper) [] None
    infoLogger false finalOptions
  = Ret (finalSinker, None).
Proof.
  rewrite (proj1 (proj2 (C10_New_returns_unless_nil_pointer
                           SubstreamsModeDevelopment (Some package)
                           (Some mapper) [] None infoLogger false
                           finalOptions))
             package [mapper] mapper {| Output_Type := "proto:events" |});
    reflexivity.
Defined.

End Scenarios.

(** * Properties of the rest of the package *)

(** ** The output type of a module *)

Lemma append_String c s1 s2 : String c s1 +:+ s2 = String c (s1 +:+ s2).
Proof. reflexivity. Qed.

Lemma HasPrefix_true s prefix :
  HasPrefix s prefix = true ->
  s = prefix +:+ dropString (String.length prefix) s.
Proof.
  revert s; induction prefix as [|p prefix IH]; intros s; [reflexivity |].
  destruct s as [|c s]; cbn [HasPrefix]; [discriminate |].
  intros Hp; apply andb_true_iff in Hp as [Hc Hp].
  apply Ascii.eqb_eq in Hc as ->.
  rewrite append_String; cbn [dropString String.length]; f_equal.
  apply IH, Hp.
Qed.

Lemma HasPrefix_append prefix s : HasPrefix (prefix +:+ s) prefix = true.
Proof.
  induction prefix as [|p prefix IH]; [reflexivity |].
  rewrite append_String; cbn [HasPrefix]; rewrite Ascii.eqb_refl; exact IH.
Qed.

Lemma dropString_append prefix s :
  dropString (String.length prefix) (prefix +:+ s) = s.
Proof. induction prefix as [|p prefix IH]; [reflexivity | exact IH]. Qed.

Lemma sanitizeModuleType_prefixed in_ :
  snd (sanitizeModuleType in_) = "proto:" +:+ fst (sanitizeModuleType in_).
Proof.
  unfold sanitizeModuleType, TrimPrefix.
  destruct (HasPrefix in_ "proto:") eqn:Hp; cbn [fst snd]; [| reflexivity].
  apply HasPrefix_true, Hp.
Qed.

(** X1. The prefixed version of a type is ["proto:"] followed by its
    unprefixed version; the input is one of the two, and sanitizing either
    of them gives the same pair again. *)
Theorem sanitizeModuleType_normal_form in_ :
  snd (sanitizeModuleType in_) = "proto:" +:+ fst (sanitizeModuleType in_)
  /\ (in_ = fst (sanitizeModuleType in_) \/ in_ = snd (sanitizeModuleType in_))
  /\ sanitizeModuleType (snd (sanitizeModuleType in_)) = sanitizeModuleType in_
  /\ (HasPrefix (fst (sanitizeModuleType in_)) "proto:" = false ->
      sanitizeModuleType (fst (sanitizeModuleType in_))
      = sanitizeModuleType in_).
Proof.
  unfold sanitizeModuleType, TrimPrefix.
  destruct (HasPrefix in_ "proto:") eqn:Hp; cbn [fst snd].
  - rewrite Hp; cbn [fst snd].
    pose proof (HasPrefix_true _ _ Hp) as E.
    repeat split; auto.
    intros Hn; rewrite Hn; cbn [fst snd]; rewrite <- E; reflexivity.
  - rewrite (HasPrefix_append "proto:" in_), Hp; cbn [fst snd].
    rewrite (dropString_append "proto:" in_).
    repeat split; auto.
Qed.

(** X2. The unprefixed version of a type still starts with ["proto:"]
    exactly when the type starts with ["proto:proto:"]: only one prefix is
    removed. *)
Theorem sanitizeModuleType_removes_one_prefix in_ :
  HasPrefix (fst (sanitizeModuleType in_)) "proto:"
  = HasPrefix in_ "proto:proto:".
Proof.
  unfold sanitizeModuleType, TrimPrefix.
  destruct (HasPrefix in_ "proto:") eqn:Hp; cbn [fst snd].
  - pose proof (HasPrefix_true _ _ Hp) as E.
    rewrite E at 2.
    change "proto:proto:" with ("proto:" +:+ "proto:").
    generalize (dropString (String.length "proto:") in_); intros r.
    rewrite <- (HasPrefix_append "proto:" r) at 1.
    destruct r as [|c1 [|c2 [|c3 [|c4 [|c5 [|c6 r]]]]]]; reflexivity.
  - rewrite Hp; symmetry.
    destruct (HasPrefix in_ "proto:proto:") eqn:Hpp; [| reflexivity].
    apply HasPrefix_true in Hpp; rewrite Hpp in Hp.
    vm_compute in Hp; discriminate.
Qed.

Lemma sanitizeModuleTypes_fold (l : list string) (us ps : list string) :
  fold_left
    (fun acc in_ =>
       let '(unprefixedType, prefixedType) :=
         sanitizeModuleType (TrimSpace in_) in
       (fst acc ++ [unprefixedType], snd acc ++ [prefixedType]))
    l (us, ps)
  = (us ++ map (fun t => fst (sanitizeModuleType (TrimSpace t))) l,
     ps ++ map (fun t => snd (sanitizeModuleType (TrimSpace t))) l).
Proof.
  revert us ps; induction l as [|t l IH]; intros us ps; cbn [fold_left map].
  - rewrite !app_nil_r; reflexivity.
  - destruct (sanitizeModuleType (TrimSpace t)) as [u p] eqn:E; cbn [fst snd].
    rewrite IH, <- !app_assoc; reflexivity.
Qed.

Lemma Split_length sep s : length (Split sep s) = S (Count sep s).
Proof.
  induction s as [|c s IH]; [reflexivity |]; cbn [Split Count].
  destruct (Ascii.eqb c sep); cbn [length]; [rewrite IH; reflexivity |].
  destruct (Split sep s); cbn [length] in *; lia.
Qed.

(** X3. [sanitizeModuleTypes] gives one unprefixed and one prefixed type
    for each element of the list, one more than there are commas (one empty
    type for the empty string); each element is trimmed, and each prefixed
    type is ["proto:"] followed by the unprefixed type of the same rank. *)
Theorem sanitizeModuleTypes_each in_ :
  fst (sanitizeModuleTypes in_)
  = map (fun t => fst (sanitizeModuleType (TrimSpace t))) (Split "," in_)
  /\ snd (sanitizeModuleTypes in_)
     = map (fun u => "proto:" +:+ u) (fst (sanitizeModuleTypes in_))
  /\ length (fst (sanitizeModuleTypes in_)) = S (Count "," in_).
Proof.
  unfold sanitizeModuleTypes; rewrite sanitizeModuleTypes_fold; cbn [fst snd app].
  split; [reflexivity |]. split.
  - rewrite map_map; apply map_ext; intros t.
    apply sanitizeModuleType_prefixed.
  - rewrite length_map; apply Split_length.
Qed.

Lemma sanitizeModuleTypes_maps in_ :
  sanitizeModuleTypes in_
  = (map (fun t => fst (sanitizeModuleType (TrimSpace t))) (Split "," in_),
     map (fun u => "proto:" +:+ u)
       (map (fun t => fst (sanitizeModuleType (TrimSpace t)))
          (Split "," in_))).
Proof.
  unfold sanitizeModuleTypes; rewrite sanitizeModuleTypes_fold; cbn [app].
  rewrite map_map; f_equal; apply map_ext; intros t.
  apply sanitizeModuleType_prefixed.
Qed.

Lemma append_inj prefix s1 s2 : prefix +:+ s1 = prefix +:+ s2 -> s1 = s2.
Proof.
  induction prefix as [|c prefix IH]; [auto |].
  rewrite !append_String; intros [= E]; auto.
Qed.

(** X4. The validation of the output type accepts the module exactly when
    no type is expected (the expected type is empty or
    [IgnoreOutputModuleType]) or the unprefixed type of the module is the
    unprefixed version of one of the expected types: whether a type is
    written with ["proto:"] or without makes no difference, on either
    side. *)
Theorem validateOutputType_accepts expected actual :
  validateOutputType expected actual = None <->
  expected = IgnoreOutputModuleType \/ expected = EmptyString
  \/ In (fst (sanitizeModuleType actual)) (fst (sanitizeModuleTypes expected)).
Proof.
  unfold validateOutputType.
  destruct (String.eqb expected IgnoreOutputModuleType) eqn:EI;
    [apply String.eqb_eq in EI; cbn; tauto |].
  destruct (String.eqb expected EmptyString) eqn:EE;
    [apply String.eqb_eq in EE; cbn; tauto |].
  apply String.eqb_neq in EI, EE; cbn [negb andb].
  rewrite sanitizeModuleTypes_maps; cbn [fst snd].
  pose proof (sanitizeModuleType_prefixed actual) as Ha.
  destruct (sanitizeModuleType actual) as [ua pa]; cbn [fst snd] in *; subst pa.
  set (us := map _ (Split "," expected)).
  destruct (existsb _ _) eqn:Ex; cbn [negb].
  - split; [intros _; right; right | reflexivity].
    apply existsb_exists in Ex as (p & Hin & Hp).
    apply String.eqb_eq in Hp; subst p.
    apply in_map_iff in Hin as (u & Hu & Hin).
    apply append_inj in Hu; subst u; exact Hin.
  - split; [discriminate |].
    intros [? | [? | Hin]]; try contradiction.
    assert (existsb (String.eqb ("proto:" +:+ ua))
              (map (fun u => "proto:" +:+ u) us) = true); [| congruence].
    apply existsb_exists; exists ("proto:" +:+ ua); split.
    + apply in_map_iff; eauto.
    + apply String.eqb_refl.
Qed.

Section ManifestProperties.
Context `{ManifestLibrary}.

(** X5. When [ReadManifestAndModule] succeeds, the package is the one read
    from the manifest, the module is the one that the graph of its modules
    holds under the name given, or under the sink module of the package,
    which is then not empty, if the name is
    [InferOutputModuleFromPackage]; the module is a mapper, its output type
    passes the validation, and the hash is the one of that module. *)
Theorem ReadManifestAndModule_success
    manifestPath outputModuleName expected zlog zlog' pkg module hash :
  ReadManifestAndModule manifestPath outputModuleName expected zlog
  = Ret (zlog', inl (pkg, module, hash)) ->
  exists reader modules graph output,
    manifest_NewReader manifestPath = inl reader
    /\ Reader_Read reader = inl pkg
    /\ mp_Modules pkg = Some modules
    /\ manifest_NewModuleGraph modules = inl graph
    /\ (outputModuleName = InferOutputModuleFromPackage ->
        SinkModule pkg <> EmptyString)
    /\ ModuleGraph_Module graph
         (if String.eqb outputModuleName InferOutputModuleFromPackage
          then SinkModule pkg else outputModuleName) = inl module
    /\ mm_KindMap module = true
    /\ Output (mm_Module module) = Some output
    /\ validateOutputType expected (Output_Type output) = Datatypes.None
    /\ HashModule modules module graph = inl hash.
Proof.
  unfold ReadManifestAndModule; cbv zeta.
  destruct (manifest_NewReader manifestPath) as [reader|e] eqn:Hn;
    [| discriminate].
  destruct (Reader_Read reader) as [pkg0|e] eqn:Hr; [| discriminate].
  destruct (mp_Modules pkg0) as [modules|] eqn:Hm; [| discriminate].
  destruct (manifest_NewModuleGraph modules) as [graph|e] eqn:Hgr;
    [| discriminate].
  destruct (String.eqb outputModuleName InferOutputModuleFromPackage) eqn:Hi;
    cbn [andb].
  - destruct (String.eqb (SinkModule pkg0) EmptyString) eqn:Hs;
      [discriminate |].
    destruct (ModuleGraph_Module graph (SinkModule pkg0)) as [m|e] eqn:Hg;
      [| discriminate].
    destruct (mm_KindMap m) eqn:Hk; [| discriminate]; cbn [negb].
    destruct (Output (mm_Module m)) as [o|] eqn:Ho; [| discriminate].
    destruct (validateOutputType expected (Output_Type o)) eqn:Hv;
      [discriminate |].
    destruct (HashModule modules m graph) as [hsh|e] eqn:Hh; [| discriminate].
    intros [= _ <- <- <-].
    exists reader, modules, graph, o.
    apply String.eqb_neq in Hs; repeat split; auto.
  - destruct (ModuleGraph_Module graph outputModuleName) as [m|e] eqn:Hg;
      [| discriminate].
    destruct (mm_KindMap m) eqn:Hk; [| discriminate]; cbn [negb].
    destruct (Output (mm_Module m)) as [o|] eqn:Ho; [| discriminate].
    destruct (validateOutputType expected (Output_Type o)) eqn:Hv;
      [discriminate |].
    destruct (HashModule modules m graph) as [hsh|e] eqn:Hh; [| discriminate].
    intros [= _ <- <- <-].
    exists reader, modules, graph, o.
    apply String.eqb_neq in Hi; repeat split; auto; congruence.
Qed.

End ManifestProperties.

(** ** The authenticators *)

(** X6. The API key wins over the API token: if the variable of the key is
    set to a non-empty value, that value is returned as an [ApiKey],
    whatever the variable of the token holds; otherwise a non-empty token
    is returned as a [JWT]. The token returned is empty exactly when the
    type is [None]. *)
Theorem GetTokenAndType_key_wins env a :
  (os_Getenv env (apiKeyEnvVar a) <> EmptyString ->
   GetTokenAndType env a = (os_Getenv env (apiKeyEnvVar a), client.ApiKey))
  /\ (os_Getenv env (apiKeyEnvVar a) = EmptyString ->
      os_Getenv env (apiTokenEnvVar a) <> EmptyString ->
      GetTokenAndType env a = (os_Getenv env (apiTokenEnvVar a), client.JWT))
  /\ (fst (GetTokenAndType env a) = EmptyString
      <-> snd (GetTokenAndType env a) = client.None).
Proof.
  unfold GetTokenAndType; cbv zeta.
  destruct (String.eqb (os_Getenv env (apiKeyEnvVar a)) EmptyString) eqn:Ek;
    cbn [negb].
  - apply String.eqb_eq in Ek.
    destruct (String.eqb (os_Getenv env (apiTokenEnvVar a)) EmptyString)
      eqn:Et; cbn [negb fst snd].
    + apply String.eqb_eq in Et; repeat split; auto; congruence.
    + apply String.eqb_neq in Et;
        repeat split; auto; try congruence; try discriminate.
  - apply String.eqb_neq in Ek; cbn [fst snd].
    repeat split; auto; try congruence; try discriminate.
Qed.

(** ** The extra headers *)

Lemma split_colon_Split s : split_colon s = Split ":" s.
Proof.
  induction s as [|c s IH]; [reflexivity |]; cbn [split_colon Split].
  rewrite IH; reflexivity.
Qed.

Lemma split_colon_two header :
  (exists k v, split_colon header = [k; v]) <-> wellFormedHeader header.
Proof.
  unfold wellFormedHeader.
  pose proof (Split_length ":" header) as L.
  rewrite <- split_colon_Split in L.
  split.
  - intros (k & v & E); rewrite E in L; cbn in L; lia.
  - intros C; rewrite C in L.
    destruct (split_colon header) as [|k [|v [|x l]]]; cbn in L; try lia.
    eauto.
Qed.

Lemma parseHeaders_loop_outcome headers :
  forall result,
    match parseHeaders_loop headers result with
    | Ret _ => Forall wellFormedHeader headers
    | Fatal _ => Exists (fun h => ~ wellFormedHeader h) headers
    | Panic _ => False
    end.
Proof.
  induction headers as [|header headers IH]; intros result;
    cbn [parseHeaders_loop]; [constructor |].
  pose proof (split_colon_two header) as W.
  destruct (split_colon header) as [|k [|v [|x l]]] eqn:E;
    try (apply Exists_cons_hd; intros Hw; apply W in Hw as (? & ? & ?);
         discriminate).
  specialize (IH (<[TrimSpace k := TrimSpace v]> result)).
  destruct (parseHeaders_loop headers _).
  - constructor; [apply W; eauto | exact IH].
  - exact IH.
  - apply Exists_cons_tl, IH.
Qed.

(** X7. [parseHeaders] gives [nil] for [nil] headers, ends the process
    exactly when one of the headers does not hold exactly one [":"] (a
    header without value separator, or one whose value holds a [":"]
    itself), and returns a map otherwise; it never panics. *)
Theorem parseHeaders_fatal_iff headers :
  match parseHeaders headers with
  | Ret None => headers = None
  | Ret (Some _) =>
      exists hs, headers = Some hs /\ Forall wellFormedHeader hs
  | Fatal _ =>
      exists hs, headers = Some hs
                 /\ Exists (fun h => ~ wellFormedHeader h) hs
  | Panic _ => False
  end.
Proof.
  destruct headers as [hs|]; cbn [parseHeaders]; [| reflexivity].
  pose proof (parseHeaders_loop_outcome hs ∅) as O.
  destruct (parseHeaders_loop hs ∅); eauto.
Qed.

Lemma parseHeaders_loop_app hs hs' result :
  parseHeaders_loop (hs ++ hs') result
  = match parseHeaders_loop hs result with
    | Ret result' => parseHeaders_loop hs' result'
    | Panic w => Panic w
    | Fatal w => Fatal w
    end.
Proof.
  revert result; induction hs as [|h hs IH]; intros result;
    cbn [app parseHeaders_loop]; [reflexivity |].
  destruct (split_colon h) as [|k [|v [|x l]]]; try reflexivity.
  apply IH.
Qed.

(** X8. The headers are read in order and a later header replaces an
    earlier one with the same key: when the headers [hs] followed by
    [header] are parsed, [header] splits into a key and a value, and the
    result is the map of [hs] in which the trimmed key is bound to the
    trimmed value. *)
Theorem parseHeaders_last_wins hs header m :
  parseHeaders (Some (hs ++ [header])) = Ret (Some m) ->
  exists k v m',
    split_colon header = [k; v]
    /\ parseHeaders (Some hs) = Ret (Some m')
    /\ m = <[TrimSpace k := TrimSpace v]> m'
    /\ m !! TrimSpace k = Some (TrimSpace v)
    /\ (forall k', k' <> TrimSpace k -> m !! k' = m' !! k').
Proof.
  cbn [parseHeaders]; rewrite parseHeaders_loop_app.
  destruct (parseHeaders_loop hs ∅) as [m'|w|w]; try discriminate.
  cbn [parseHeaders_loop].
  destruct (split_colon header) as [|k [|v [|x l]]]; try discriminate.
  intros [= <-]; exists k, v, m'.
  split; [reflexivity |]. split; [reflexivity |]. split; [reflexivity |].
  split; [apply lookup_insert_eq |].
  intros k' Hk; apply lookup_insert_ne; congruence.
Qed.

Lemma length_appendPairs m a :
  length (appendPairs m a) = (length a + 2 * size (default ∅ m))%nat.
Proof.
  unfold appendPairs; rewrite length_app, <- length_map_to_list.
  f_equal; induction (map_to_list (default ∅ m)) as [|kv l IH];
    [reflexivity |].
  cbn [flat_map length app]; rewrite IH; lia.
Qed.

Section Headers.
Context `{Collaborators}.

Lemma listsMap_appendPairs m :
  listsMap (appendPairs (Some m) []) m.
Proof. exists (map_to_list m); split; reflexivity. Qed.

Lemma appendPairs_app m a : appendPairs m a = a ++ appendPairs m [].
Proof. reflexivity. Qed.

(** X9. The headers added to the requests: none if the sinker has no
    extra header and the client gave no headers; otherwise the extra
    headers, each key followed by its value, and then in the same way the
    headers of the client merged with the extra headers, in which an extra
    header replaces a header of the client with the same key, so that
    every extra header is there twice. Every request of the run carries
    these headers, and a run with at least one attempt sends one. *)
Theorem run_headersArray_contents h client a script c st headersArray :
  clientErr client = None ->
  run_headersArray (sinker st) (clientHeaders client) = Ret headersArray ->
  ((length (default [] (extraHeaders (sinker st))) = 0%nat
    /\ clientHeaders client = None /\ headersArray = [])
   \/ exists parsed l1 l2,
        parseHeaders (extraHeaders (sinker st)) = Ret parsed
        /\ headersArray = l1 ++ l2
        /\ listsMap l1 (default ∅ parsed)
        /\ listsMap l2 (default ∅ parsed ∪ default ∅ (clientHeaders client))
        /\ (forall k,
              (default ∅ parsed ∪ default ∅ (clientHeaders client)) !! k
              = match default ∅ parsed !! k with
                | Some v => Some v
                | None => default ∅ (clientHeaders client) !! k
                end)
        /\ length headersArray
           = (2 * size (default ∅ parsed)
              + 2 * size (default ∅ parsed
                          ∪ default ∅ (clientHeaders client)))%nat)
  /\ exists r rs,
       requests (run h client (a :: script) c st).1 = requests st ++ r :: rs
       /\ Forall (fun r => outgoingHeaders r = headersArray) (r :: rs).
Proof.
  intros Hc Hh; split.
  - revert Hh; unfold run_headersArray.
    destruct (bool_decide (0 < length (default [] (extraHeaders (sinker st))))%nat)
      eqn:He; cbn [orb].
    2: destruct (bool_decide (is_Some (clientHeaders client))) eqn:Hs.
    3: { intros [= <-]; left.
         apply bool_decide_eq_false in He, Hs.
         split; [lia | split; [| reflexivity]].
         destruct (clientHeaders client);
           [exfalso; apply Hs; eauto | reflexivity]. }
    all: destruct (parseHeaders (extraHeaders (sinker st))) as [parsed|w|w];
      try discriminate; intros [= <-]; right;
      exists parsed, (appendPairs (Some (default ∅ parsed)) []),
        (appendPairs
           (Some (default ∅ parsed ∪ default ∅ (clientHeaders client))) []);
      (split; [reflexivity |]);
      (split; [destruct parsed; reflexivity |]);
      (split; [apply listsMap_appendPairs |]);
      (split; [apply listsMap_appendPairs |]);
      (split;
       [intros k; rewrite lookup_union;
        destruct (default ∅ parsed !! k);
        destruct (default ∅ (clientHeaders client) !! k); reflexivity |]);
      rewrite !length_appendPairs; cbn [length default from_option];
      change (id (default ∅ parsed ∪ default ∅ (clientHeaders client)))
        with (default ∅ parsed ∪ default ∅ (clientHeaders client));
      lia.
  - destruct (run_requests h client a script c st headersArray Hc Hh)
      as (r & rs & R & _ & F).
    eauto.
Qed.

Lemma extraHeaders_adjustedEndBlock_log st :
  extraHeaders (sinker (adjustedEndBlock_log st)) = extraHeaders (sinker st).
Proof.
  unfold adjustedEndBlock_log.
  destruct (blockRange (sinker st)) as [r|]; [| reflexivity].
  destruct (Range_EndBlock r); [| reflexivity].
  destruct (buffer (sinker st)); reflexivity.
Qed.

Lemma extraHeaders_Run_prelude st :
  extraHeaders (sinker (Run_prelude st)) = extraHeaders (sinker st).
Proof.
  unfold Run_prelude, logSt; cbn.
  destruct (_ =? 0); rewrite ?extraHeaders_adjustedEndBlock_log; reflexivity.
Qed.

Lemma parseHeaders_loop_malformed hs :
  Exists (fun header => ~ wellFormedHeader header) hs ->
  forall result,
    parseHeaders_loop hs result = Fatal "invalid header format".
Proof.
  induction 1 as [header hs Hx | header hs _ IH]; intros result;
    cbn [parseHeaders_loop]; pose proof (split_colon_two header) as W;
    destruct (split_colon header) as [|k [|v [|x l]]]; try reflexivity.
  - exfalso; apply Hx, W; eauto.
  - apply IH.
Qed.

Lemma run_malformed_header h client script c st hs :
  clientErr client = None ->
  extraHeaders (sinker st) = Some hs ->
  Exists (fun header => ~ wellFormedHeader header) hs ->
  run h client script c st = (st, Exited "invalid header format").
Proof.
  intros Hc He Hx; unfold run, run_headersArray; cbv zeta.
  rewrite Hc, He.
  assert (bool_decide (0 < length (default [] (Some hs)))%nat = true) as ->.
  { apply bool_decide_eq_true; destruct Hx; cbn; lia. }
  cbn [orb parseHeaders].
  rewrite (parseHeaders_loop_malformed hs Hx); reflexivity.
Qed.

(** X10. A malformed extra header ends the process before the first
    session: [run] exits without having sent a request or called the
    handler, whatever the server would have answered, and so does [Run]. *)
Theorem malformed_header_exits h client script ce c st hs :
  clientErr client = None ->
  extraHeaders (sinker st) = Some hs ->
  Exists (fun header => ~ wellFormedHeader header) hs ->
  run h client script c st = (st, Exited "invalid header format")
  /\ (Run h client script ce c st).2 = Exited "invalid header format"
  /\ calls (Run h client script ce c st).1 = calls st
  /\ requests (Run h client script ce c st).1 = requests st.
Proof.
  intros Hc He Hx.
  split; [eapply run_malformed_header; eauto |].
  unfold Run; cbv zeta; fold (Run_prelude st).
  rewrite (run_malformed_header h client script c (Run_prelude st) hs);
    [| assumption | rewrite extraHeaders_Run_prelude; assumption
     | assumption].
  pose proof (runStep_Run_prelude st) as (_ & K & R).
  rewrite app_nil_r in K, R.
  cbn [fst snd]; auto.
Qed.

End Headers.

(** ** How a session ends *)

Section SessionEnd.
Context `{Collaborators}.

Lemma processData_error h l st err :
  (processData h l st).2 = Some err ->
  exists msg e, err = fmt_Errorf msg e.
Proof.
  revert st; induction l as [|d l IH]; intros st; cbn [processData];
    [discriminate |].
  destruct (NewCursor (bsd_Cursor d)) as [k|e]; [| intros [= <-]; eauto].
  destruct (call h _ st) as [st1 [e|]]; [intros [= <-]; eauto | apply IH].
Qed.

Lemma handleMessage_error h resp c st err :
  (handleMessage h resp c st).2 = Some err ->
  exists msg e, err = fmt_Errorf msg e.
Proof.
  destruct resp; unfold handleMessage; cbn [snd]; try discriminate.
  - unfold handleBlockScopedData; cbv zeta.
    destruct (NewCursor _) as [k|e]; [| intros [= <-]; eauto].
    destruct (buffer _) as [b|].
    + destruct (buffer_HandleBlockScopedData b data) as [b' [l|e]];
        [| intros [= <-]; eauto].
      match goal with |- context [processData h l ?x] =>
        pose proof (processData_error h l x) as P;
        destruct (processData h l x) as [st2 e2]
      end.
      cbn [snd] in *; exact (P err).
    + match goal with |- context [processData h ?l ?x] =>
        pose proof (processData_error h l x) as P;
        destruct (processData h l x) as [st2 e2]
      end.
      cbn [snd] in *; exact (P err).
  - unfold handleBlockUndoSignal; cbv zeta.
    destruct (NewCursor _) as [k|e]; [| intros [= <-]; eauto].
    destruct (buffer _) as [b|].
    + destruct (buffer_HandleBlockUndoSignal b undo) as [b' [e|]];
        [intros [= <-]; eauto | discriminate].
    + destruct (call h _ _) as [st1 [e|]];
        [intros [= <-]; eauto | discriminate].
Qed.

Lemma recvLoop_error h msgs final c recv st :
  exists err,
    (recvLoop h msgs final c recv st).2.2 = Some err
    /\ (err = recvError final \/ exists msg e, err = fmt_Errorf msg e).
Proof.
  revert c recv st; induction msgs as [|resp msgs IH]; intros c recv st;
    cbn [recvLoop].
  - eexists; split; [reflexivity | auto].
  - match goal with |- context [handleMessage h resp c ?x] =>
      pose proof (handleMessage_error h resp c x) as P;
      destruct (handleMessage h resp c x) as [[st1 c1] [e|]]
    end; [| apply IH].
    cbn [snd] in *; eexists; split; [reflexivity | right; eauto].
Qed.

(** X11. A session never ends without an error: [doRequest] returns the
    error of [ssClient.Blocks] marked as retryable, the error of
    [stream.Recv] as [recvError] classifies it ([io.EOF] for a stream that
    ends), or an error that wraps, with a message, the error of a cursor,
    of the undo buffer or of the handler. *)
Theorem doRequest_always_returns_an_error h c stream st :
  exists err,
    (doRequest h c stream st).2.2 = Some err
    /\ match stream with
       | BlocksFailed e =>
           err = retryable
                   (fmt_Errorf "call sf.substreams.rpc.v2.Stream/Blocks" e)
       | Receive msgs final =>
           err = recvError final
           \/ (msgs <> [] /\ exists msg e, err = fmt_Errorf msg e)
       end.
Proof.
  unfold doRequest; cbv zeta; destruct stream as [e|msgs final].
  - eexists; split; reflexivity.
  - destruct msgs as [|resp msgs].
    + cbn [recvLoop]; eexists; split; [reflexivity | auto].
    + match goal with |- context [recvLoop h ?l final c ?r ?x] =>
        destruct (recvLoop_error h l final c r x) as (err & E & F)
      end.
      exists err; split; [exact E |].
      destruct F as [F | F]; [left; exact F | right; split; [discriminate | exact F]].
Qed.

End SessionEnd.

(** ** The undo buffer *)

Section Buffered.
Context `{Collaborators}.

Lemma bufferedStep_refl st : hasBuffer st -> bufferedStep st st.
Proof.
  intros Hb; split; [exact Hb |].
  exists []; rewrite app_nil_r; auto.
Qed.

Lemma bufferedStep_trans st1 st2 st3 :
  bufferedStep st1 st2 -> bufferedStep st2 st3 -> bufferedStep st1 st3.
Proof.
  intros (_ & cs1 & K1 & F1) (Hb & cs2 & K2 & F2); split; [exact Hb |].
  exists (cs1 ++ cs2); rewrite K2, K1, <- app_assoc.
  split; [reflexivity | apply Forall_app; auto].
Qed.

Lemma bufferedStep_quiet st st' :
  buffer (sinker st') = buffer (sinker st) -> calls st' = calls st ->
  hasBuffer st -> bufferedStep st st'.
Proof.
  intros Eb Ek Hb; split; [unfold hasBuffer in *; rewrite Eb; exact Hb |].
  exists []; rewrite app_nil_r; auto.
Qed.

Lemma bufferedStep_logSt lvl msg st :
  hasBuffer st -> bufferedStep st (logSt lvl msg st).
Proof. apply bufferedStep_quiet; reflexivity. Qed.

Lemma bufferedStep_traceSt msg st :
  hasBuffer st -> bufferedStep st (traceSt msg st).
Proof.
  unfold traceSt; destruct (tracer _);
    [apply bufferedStep_logSt | apply bufferedStep_refl].
Qed.

Lemma bufferedStep_set_metrics m st :
  hasBuffer st -> bufferedStep st (set_metrics m st).
Proof. apply bufferedStep_quiet; reflexivity. Qed.

Lemma bufferedStep_add_request r st :
  hasBuffer st -> bufferedStep st (add_request r st).
Proof. apply bufferedStep_quiet; reflexivity. Qed.

Lemma bufferedStep_add_sleep d st :
  hasBuffer st -> bufferedStep st (add_sleep d st).
Proof. apply bufferedStep_quiet; reflexivity. Qed.

Lemma bufferedStep_set_buffer b st :
  bufferedStep st (set_sinker (set_buffer (Some b) (sinker st)) st).
Proof.
  split; [unfold hasBuffer; cbn; eauto |].
  exists []; rewrite app_nil_r; auto.
Qed.

Lemma bufferedStep_adjustedEndBlock_log st :
  hasBuffer st -> bufferedStep st (adjustedEndBlock_log st).
Proof.
  intros Hb; unfold adjustedEndBlock_log.
  destruct (blockRange _); [| apply bufferedStep_refl, Hb].
  destruct (Range_EndBlock _); [| apply bufferedStep_refl, Hb].
  destruct (buffer _);
    [apply bufferedStep_logSt, Hb | apply bufferedStep_refl, Hb].
Qed.

Lemma bufferedStep_call h k st :
  isUndoCall k = false -> hasBuffer st -> bufferedStep st (call h k st).1.
Proof.
  intros Hk Hb; split; [exact Hb |].
  exists [k]; split; [reflexivity | auto].
Qed.

Lemma bufferedStep_handleProgress msg st :
  hasBuffer st -> bufferedStep st (handleProgress msg st).
Proof.
  intros Hb; unfold handleProgress.
  destruct (fold_left _ _ _) as [[t l] j].
  destruct (stagesLoop _ _ _ _ _) as [m t'].
  eapply bufferedStep_trans; [apply bufferedStep_set_metrics, Hb |].
  apply bufferedStep_traceSt; exact Hb.
Qed.

Lemma bufferedStep_processData h l st :
  hasBuffer st -> bufferedStep st (processData h l st).1.
Proof.
  revert st; induction l as [|d l IH]; intros st Hb; cbn [processData].
  - apply bufferedStep_refl, Hb.
  - destruct (NewCursor _) as [k|e]; [| apply bufferedStep_refl, Hb].
    match goal with |- context [call h ?k' st] =>
      pose proof (bufferedStep_call h k' st eq_refl Hb) as Hc;
      destruct (call h k' st) as [st1 [e|]]; cbn [fst] in *
    end; [exact Hc |].
    eapply bufferedStep_trans; [exact Hc | apply IH, Hc].
Qed.

Lemma bufferedStep_handleMessage h resp c st :
  hasBuffer st -> bufferedStep st (handleMessage h resp c st).1.1.
Proof.
  intros Hb.
  destruct resp; unfold handleMessage, handleSession; cbv zeta; cbn [fst].
  - apply bufferedStep_handleProgress, Hb.
  - unfold handleBlockScopedData; cbv zeta.
    match goal with |- context [set_metrics ?m (traceSt ?msg st)] =>
      assert (B : bufferedStep st (set_metrics m (traceSt msg st)));
      [eapply bufferedStep_trans;
         [apply bufferedStep_traceSt, Hb
         | apply bufferedStep_set_metrics, bufferedStep_traceSt, Hb] |];
      generalize dependent (set_metrics m (traceSt msg st))
    end.
    intros st0 B.
    destruct (NewCursor _) as [k|e]; cbn [fst]; [| exact B].
    destruct (buffer (sinker st0)) as [b|] eqn:Eb.
    + destruct (buffer_HandleBlockScopedData b data) as [b' [l|e]];
        cbn [fst].
      * match goal with |- context [processData h l ?x] =>
          pose proof (bufferedStep_processData h l x) as P;
          destruct (processData h l x) as [st2 e2]; cbn [fst] in *
        end.
        eapply bufferedStep_trans; [exact B |].
        eapply bufferedStep_trans; [apply bufferedStep_set_buffer |].
        apply P; unfold hasBuffer; cbn; eauto.
      * eapply bufferedStep_trans; [exact B | apply bufferedStep_set_buffer].
    + destruct B as ([b Hb0] & _); congruence.
  - unfold handleBlockUndoSignal; cbv zeta.
    assert (B : bufferedStep st
                  (traceSt "received response BlockUndoSignal" st))
      by apply bufferedStep_traceSt, Hb.
    generalize dependent (traceSt "received response BlockUndoSignal" st).
    intros st0 B.
    destruct (NewCursor _) as [k|e]; cbn [fst]; [| exact B].
    cbn [set_metrics sinker].
    destruct (buffer (sinker st0)) as [b|] eqn:Eb.
    + assert (B' : forall b' m,
        bufferedStep st
          (set_sinker (set_buffer (Some b') (sinker (set_metrics m st0)))
             (set_metrics m st0))).
      { intros b' m.
        eapply bufferedStep_trans; [exact B |].
        eapply bufferedStep_trans;
          [apply bufferedStep_set_metrics, B | apply bufferedStep_set_buffer]. }
      destruct (buffer_HandleBlockUndoSignal b undo) as [b' [e|]];
        cbn [fst]; apply B'.
    + destruct B as ([b Hb0] & _); congruence.
  - apply bufferedStep_logSt, Hb.
  - apply bufferedStep_logSt, Hb.
  - pose proof (bufferedStep_logSt InfoLevel
                  "session initialized with remote endpoint" st Hb) as B.
    eapply bufferedStep_trans; [exact B |].
    apply bufferedStep_quiet; try reflexivity; apply B.
  - eapply bufferedStep_trans; [apply bufferedStep_logSt, Hb |].
    apply bufferedStep_set_metrics, bufferedStep_logSt, Hb.
Qed.

Lemma bufferedStep_recvLoop h msgs final c recv st :
  hasBuffer st -> bufferedStep st (recvLoop h msgs final c recv st).1.
Proof.
  revert c recv st; induction msgs as [|resp msgs IH]; intros c recv st Hb;
    cbn [recvLoop].
  - apply bufferedStep_traceSt, Hb.
  - pose proof (bufferedStep_traceSt "substreams waiting to receive message"
                  st Hb) as B.
    match goal with |- context [handleMessage h resp c ?x] =>
      pose proof (bufferedStep_handleMessage h resp c x (proj1 B)) as M;
      destruct (handleMessage h resp c x) as [[st1 c1] [e|]]; cbn [fst] in *
    end.
    + eapply bufferedStep_trans; eassumption.
    + eapply bufferedStep_trans; [exact B |].
      eapply bufferedStep_trans; [exact M | apply IH, M].
Qed.

Lemma bufferedStep_doRequest h c stream st :
  hasBuffer st -> bufferedStep st (doRequest h c stream st).1.
Proof.
  intros Hb; unfold doRequest; cbv zeta.
  pose proof (bufferedStep_logSt DebugLevel "launching substreams request"
                st Hb) as B.
  destruct stream as [e|msgs final]; cbn [fst]; [exact B |].
  eapply bufferedStep_trans; [exact B |].
  apply bufferedStep_recvLoop, B.
Qed.

Lemma bufferedStep_runSession h sb eb hd a bo c st :
  hasBuffer st -> bufferedStep st (runSession h sb eb hd a bo c st).1.1.1.
Proof.
  intros Hb; unfold runSession; cbv zeta.
  pose proof (bufferedStep_add_request (newRequest (sinker st) sb eb hd c)
                st Hb) as B.
  match goal with |- context [doRequest h c (stream a) ?x] =>
    pose proof (bufferedStep_doRequest h c (stream a) x (proj1 B)) as D;
    destruct (doRequest h c (stream a) x) as [st1 [[c1 recv] err]];
    cbn [fst] in *
  end.
  exact (bufferedStep_trans _ _ _ B D).
Qed.

Lemma bufferedStep_runLoop h sb eb hd script bo c st :
  hasBuffer st -> bufferedStep st (runLoop h sb eb hd script bo c st).1.
Proof.
  revert bo c st; induction script as [|a script IH]; intros bo c st Hb;
    cbn [runLoop]; [apply bufferedStep_refl, Hb |].
  pose proof (bufferedStep_runSession h sb eb hd a bo c st Hb) as S.
  destruct (runSession h sb eb hd a bo c st) as [[[st1 bo1] c1] err];
    cbn [fst] in *.
  assert (Hnext : forall bo2 st2,
    bufferedStep st1 st2 ->
    bufferedStep st (runLoop h sb eb hd script bo2 c1 st2).1).
  { intros bo2 st2 B.
    eapply bufferedStep_trans; [exact S |].
    eapply bufferedStep_trans; [exact B | apply IH, B]. }
  assert (Hstop : forall st2 (r : ended (option Cursor * option error)),
    bufferedStep st1 st2 -> bufferedStep st (st2, r).1).
  { intros st2 r B; eapply bufferedStep_trans; eassumption. }
  assert (Hb1 : hasBuffer st1) by apply S.
  destruct err as [err|]; [| apply Hnext, bufferedStep_refl, Hb1].
  destruct (errors_Is err io_EOF); [apply Hstop, bufferedStep_refl, Hb1 |].
  destruct (ctxCanceled (ctxErr a));
    [apply Hstop, bufferedStep_logSt, Hb1 |].
  pose proof (bufferedStep_set_metrics
                (Inc "SubstreamsErrorCount" (metrics st1)) st1 Hb1) as B1.
  destruct (errors_As_Retryable err) as [cause|]; [| apply Hstop, B1].
  pose proof (bufferedStep_logSt ErrorLevel
                "substreams encountered a retryable error" _ (proj1 B1))
    as B2.
  destruct (if ctxDone a then _ else _) as [sleepFor bo2].
  destruct (sleepFor =? Stop).
  - apply Hstop; eapply bufferedStep_trans; eassumption.
  - apply Hnext.
    eapply bufferedStep_trans; [exact B1 |].
    eapply bufferedStep_trans; [exact B2 |].
    eapply bufferedStep_trans; [apply bufferedStep_logSt, B2 |].
    apply bufferedStep_add_sleep, bufferedStep_logSt, B2.
Qed.

Lemma bufferedStep_run h client script c st :
  hasBuffer st -> bufferedStep st (run h client script c st).1.
Proof.
  intros Hb; unfold run; cbv zeta.
  destruct (clientErr client); [apply bufferedStep_refl, Hb |].
  destruct (run_headersArray _ _) as [hd|w|w];
    try (apply bufferedStep_refl, Hb).
  match goal with |- context [runLoop h ?sb ?eb hd script ?bo c ?x] =>
    assert (B : bufferedStep st x);
    [| eapply bufferedStep_trans;
       [exact B | apply bufferedStep_runLoop, B]]
  end.
  pose proof (bufferedStep_logSt DebugLevel "configured default backoff"
                st Hb) as B1.
  eapply bufferedStep_trans; [exact B1 |].
  destruct (negb _).
  - eapply bufferedStep_trans; [apply bufferedStep_logSt, B1 |].
    apply bufferedStep_adjustedEndBlock_log, bufferedStep_logSt, B1.
  - apply bufferedStep_adjustedEndBlock_log, B1.
Qed.

Lemma bufferedStep_Run_prelude st :
  hasBuffer st -> bufferedStep st (Run_prelude st).
Proof.
  intros Hb; unfold Run_prelude.
  pose proof (bufferedStep_adjustedEndBlock_log st Hb) as B1.
  destruct (_ =? 0).
  - eapply bufferedStep_trans; [exact B1 | apply bufferedStep_logSt, B1].
  - pose proof (bufferedStep_adjustedEndBlock_log _ (proj1 B1)) as B2.
    eapply bufferedStep_trans; [exact B1 |].
    eapply bufferedStep_trans; [exact B2 | apply bufferedStep_logSt, B2].
Qed.

(** X15. With an undo buffer, the handler never sees an undo signal: in a
    run of a sinker that has a buffer, whatever the server sends, no call
    of [HandleBlockUndoSignal] is made, and the sinker still has its
    buffer when [Run] ends. *)
Theorem undo_buffer_hides_undo_signals h client script ce c st :
  hasBuffer st ->
  hasBuffer (Run h client script ce c st).1
  /\ exists cs,
       calls (Run h client script ce c st).1 = calls st ++ cs
       /\ Forall (fun k => isUndoCall k = false) cs.
Proof.
  intros Hb; change (bufferedStep st (Run h client script ce c st).1).
  unfold Run; cbv zeta; fold (Run_prelude st).
  pose proof (bufferedStep_Run_prelude st Hb) as P.
  pose proof (bufferedStep_run h client script c _ (proj1 P)) as R.
  destruct (run h client script c (Run_prelude st)) as [st1 [[lc err]|w|]];
    cbn [fst] in *; try (eapply bufferedStep_trans; eassumption).
  assert (B : bufferedStep st st1) by (eapply bufferedStep_trans; eassumption).
  clear P R.
  assert (L : forall lvl msg st2,
    bufferedStep st st2 -> bufferedStep st (logSt lvl msg st2)).
  { intros lvl msg st2 B2; eapply bufferedStep_trans; [exact B2 |].
    apply bufferedStep_logSt, B2. }
  unfold Shutdown; destruct err as [err|]; cbn [fst].
  - auto.
  - destruct (isCompletionHandler h); [| cbn [fst]; auto].
    match goal with |- context [call h ?k ?x] =>
      assert (Bx : bufferedStep st x) by auto;
      pose proof (bufferedStep_call h k x eq_refl (proj1 Bx)) as Hc;
      destruct (call h k x) as [st2 [e'|]]; cbn [fst] in *
    end; apply L; eapply bufferedStep_trans; eassumption.
Qed.

End Buffered.

(** ** The metrics of a [Progress] message *)

Lemma wrap64_range z : 0 <= wrap64 z < 2 ^ 64.
Proof. unfold wrap64; apply Z.mod_pos_bound; lia. Qed.

Lemma wrap64_add_l a b : wrap64 (wrap64 a + b) = wrap64 (a + b).
Proof. unfold wrap64; apply Zplus_mod_idemp_l. Qed.

Lemma wrap64_add_r a b : wrap64 (a + wrap64 b) = wrap64 (a + b).
Proof. unfold wrap64; apply Zplus_mod_idemp_r. Qed.

Lemma wrap64_wrap64 a : wrap64 (wrap64 a) = wrap64 a.
Proof. unfold wrap64; apply Zmod_mod. Qed.

Lemma stageString_inj i k : 0 <= i -> 0 <= k -> stageString i = stageString k -> i = k.
Proof.
  unfold stageString; intros Hi Hk E.
  apply append_inj in E; apply (inj pretty) in E.
  apply Z2N.inj in E; lia.
Qed.

Lemma setPerStage_lookup_ne name name' perStage m label :
  name' <> name ->
  setPerStage name perStage m !! (name', label) = m !! (name', label).
Proof.
  intros Hn; unfold setPerStage.
  apply (map_fold_weak_ind
           (fun r (_ : gmap Z Z) => r !! (name', label) = m !! (name', label)));
    [reflexivity |].
  intros i x p r _ IH; unfold SetUint64.
  rewrite lookup_insert_ne by congruence; exact IH.
Qed.

Lemma setPerStage_lookup name perStage m k :
  (forall i, is_Some (perStage !! i) -> 0 <= i) -> 0 <= k ->
  setPerStage name perStage m !! (name, stageString k)
  = match perStage !! k with
    | Some v => Some v
    | None => m !! (name, stageString k)
    end.
Proof.
  intros Hkeys Hk; revert Hkeys; unfold setPerStage.
  apply (map_fold_weak_ind
           (fun r (p : gmap Z Z) =>
              (forall i, is_Some (p !! i) -> 0 <= i) ->
              r !! (name, stageString k)
              = match p !! k with
                | Some v => Some v
                | None => m !! (name, stageString k)
                end)).
  { intros _; rewrite lookup_empty; reflexivity. }
  intros i x p r Hi IH Hkeys; unfold SetUint64.
  assert (Hp : forall i', is_Some (p !! i') -> 0 <= i').
  { intros i' [v Hv]; apply Hkeys.
    destruct (decide (i = i')) as [<- | Hne];
      [congruence | rewrite lookup_insert_ne by exact Hne; eauto]. }
  destruct (decide (i = k)) as [-> | Hne].
  - rewrite !lookup_insert_eq; reflexivity.
  - rewrite !lookup_insert_ne; [apply IH, Hp | exact Hne |].
    intros E; apply (f_equal snd) in E; cbn [snd] in E.
    apply stageString_inj in E; auto.
    apply Hkeys; rewrite lookup_insert_eq; eauto.
Qed.

Section Progress.
Context `{Collaborators}.

Lemma completedRanges_other s n i ranges name label :
  name <> "ProgressMessageLastContiguousBlock" ->
  forall j m t,
    (completedRanges s n i j ranges (m, t)).1 !! (name, label)
    = m !! (name, label).
Proof.
  intros Hn; induction ranges as [|r ranges IH]; intros j m t;
    cbn [completedRanges fst]; [reflexivity |].
  rewrite IH; unfold SetUint64.
  repeat match goal with |- context [if ?b then _ else _] => destruct b end;
    rewrite ?lookup_insert_ne by congruence; reflexivity.
Qed.

Lemma completedRanges_total s n i ranges :
  forall j m t,
    wrap64 (completedRanges s n i j ranges (m, t)).2
    = wrap64 (t + sumRanges ranges)
    /\ (0 <= t < 2 ^ 64 ->
        0 <= (completedRanges s n i j ranges (m, t)).2 < 2 ^ 64).
Proof.
  induction ranges as [|r ranges IH]; intros j m t;
    cbn [completedRanges snd sumRanges fold_right].
  - rewrite Z.add_0_r; auto.
  - match goal with |- context [completedRanges s n i (j + 1) ranges (?m', ?t')] =>
      destruct (IH (j + 1) m' t') as [E R]
    end.
    fold (sumRanges ranges); rewrite E.
    split; [| intros _; apply R, wrap64_range].
    rewrite wrap64_add_l.
    match goal with |- wrap64 (t + wrap64 ?x + ?y) = _ =>
      replace (t + wrap64 x + y) with (wrap64 x + (t + y)) by lia
    end.
    rewrite wrap64_add_l; f_equal; lia.
Qed.

Lemma stagesLoop_other s n stages name label :
  name <> "ProgressMessageLastContiguousBlock" ->
  forall i m t,
    (stagesLoop s n i stages (m, t)).1 !! (name, label) = m !! (name, label).
Proof.
  intros Hn; induction stages as [|stage stages IH]; intros i m t;
    cbn [stagesLoop fst]; [reflexivity |].
  pose proof (completedRanges_other s n i (CompletedRanges stage) name label
                Hn 0 m t) as C.
  destruct (completedRanges s n i 0 (CompletedRanges stage) (m, t))
    as [m1 t1]; cbn [fst] in C.
  rewrite IH; exact C.
Qed.

Lemma stagesLoop_total s n stages :
  forall i m t,
    wrap64 (stagesLoop s n i stages (m, t)).2
    = wrap64 (t + sumCompletedRanges stages)
    /\ (0 <= t < 2 ^ 64 -> 0 <= (stagesLoop s n i stages (m, t)).2 < 2 ^ 64).
Proof.
  induction stages as [|stage stages IH]; intros i m t;
    cbn [stagesLoop snd sumCompletedRanges fold_right].
  - rewrite Z.add_0_r; auto.
  - fold (sumCompletedRanges stages).
    destruct (completedRanges_total s n i (CompletedRanges stage) 0 m t)
      as [E R].
    destruct (completedRanges s n i 0 (CompletedRanges stage) (m, t))
      as [m1 t1]; cbn [snd] in E, R.
    destruct (IH (i + 1) m1 t1) as [E' R'].
    split; [| intros Ht; apply R', R, Ht].
    rewrite E', <- wrap64_add_l, E, wrap64_add_l; f_equal; lia.
Qed.

Lemma runningJob_total jobs :
  forall t l p,
    wrap64 (fold_left runningJob jobs (t, l, p)).1.1
    = wrap64 (t + sumProcessedBlocks jobs)
    /\ (0 <= t < 2 ^ 64 ->
        0 <= (fold_left runningJob jobs (t, l, p)).1.1 < 2 ^ 64).
Proof.
  induction jobs as [|j jobs IH]; intros t l p;
    cbn [fold_left sumProcessedBlocks fold_right fst].
  - rewrite Z.add_0_r; auto.
  - fold (sumProcessedBlocks jobs).
    unfold runningJob at 2 4; cbv zeta.
    match goal with |- context [fold_left runningJob jobs (?t', ?l', ?p')] =>
      destruct (IH t' l' p') as [E R]
    end.
    rewrite E; split; [| intros _; apply R, wrap64_range].
    rewrite wrap64_add_l; f_equal; lia.
Qed.

Lemma metrics_traceSt msg st : metrics (traceSt msg st) = metrics st.
Proof. unfold traceSt; destruct (tracer _); reflexivity. Qed.

(** X16. After a [Progress] message, the gauge
    [ProgressMessageTotalProcessedBlocks] holds the total of the message,
    not a sum over the messages: the blocks processed by its running jobs
    plus the blocks of the completed ranges of its stages, in [uint64]
    arithmetic; whatever it held before is overwritten. The counter
    [ProgressMessageCount] is one more than before. *)
Theorem handleProgress_totals msg st :
  metrics (handleProgress msg st)
    !! ("ProgressMessageTotalProcessedBlocks", EmptyString)
  = Some (wrap64 (sumProcessedBlocks (RunningJobs msg)
                  + sumCompletedRanges (Stages msg)))
  /\ metrics (handleProgress msg st) !! ("ProgressMessageCount", EmptyString)
     = Some (default 0 (metrics st !! ("ProgressMessageCount", EmptyString))
             + 1).
Proof.
  unfold handleProgress.
  destruct (runningJob_total (RunningJobs msg) 0 ∅ ∅) as [E R].
  destruct (fold_left runningJob (RunningJobs msg) (0, ∅, ∅)) as [[t l] p];
    cbn [fst] in E, R.
  match goal with |- context [stagesLoop ?s ?n 0 ?stages (?m, t)] =>
    destruct (stagesLoop_total s n stages 0 m t) as [E' R'];
    pose proof (stagesLoop_other s n stages "ProgressMessageCount" EmptyString
                  ltac:(discriminate) 0 m t) as O;
    destruct (stagesLoop s n 0 stages (m, t)) as [m' t']
  end.
  cbn [fst snd] in *.
  rewrite metrics_traceSt; cbn [set_metrics metrics].
  unfold SetUint64 at 1; rewrite lookup_insert_eq.
  unfold SetUint64 at 1; rewrite lookup_insert_ne by discriminate.
  unfold Inc; rewrite lookup_insert_eq, O.
  rewrite !setPerStage_lookup_ne by discriminate.
  split; [| reflexivity].
  f_equal.
  assert (Ht : 0 <= t' < 2 ^ 64) by (apply R', R; lia).
  transitivity (wrap64 t');
    [unfold wrap64; symmetry; apply Z.mod_small, Ht |].
  rewrite E', <- wrap64_add_l, E, wrap64_add_l; reflexivity.
Qed.

Lemma stageJobs_app k l1 l2 :
  stageJobs k (l1 ++ l2) = stageJobs k l1 ++ stageJobs k l2.
Proof. apply List.filter_app. Qed.

Lemma stageJobs_In k jobs j :
  In j (stageJobs k jobs) <-> In j jobs /\ job_Stage j = k.
Proof.
  unfold stageJobs; rewrite List.filter_In, Z.eqb_eq; reflexivity.
Qed.

Lemma stageJobs_single k j :
  stageJobs k [j] = if job_Stage j =? k then [j] else [].
Proof. reflexivity. Qed.

(** What the loop over the running jobs computes for the stage [k]. *)
Lemma runningJob_perStage jobs k :
  (stageJobs k jobs = [] ->
   (fold_left runningJob jobs (0, ∅, ∅)).1.2 !! k = None
   /\ (fold_left runningJob jobs (0, ∅, ∅)).2 !! k = None)
  /\ (stageJobs k jobs <> [] ->
      (fold_left runningJob jobs (0, ∅, ∅)).2 !! k
      = Some (wrap64 (Z.of_nat (length (stageJobs k jobs))))
      /\ exists v,
           (fold_left runningJob jobs (0, ∅, ∅)).1.2 !! k = Some v
           /\ (exists j, In j (stageJobs k jobs) /\ v = jobEndBlock j)
           /\ forall j, In j (stageJobs k jobs) -> jobEndBlock j <= v).
Proof.
  induction jobs as [|j jobs IH] using rev_ind.
  - cbn; rewrite !lookup_empty; split; [auto | intros E; destruct E; reflexivity].
  - rewrite fold_left_app, stageJobs_app; cbn [fold_left].
    destruct (fold_left runningJob jobs (0, ∅, ∅)) as [[t l] p].
    unfold runningJob; cbv zeta; cbn [fst snd] in *.
    fold (jobEndBlock j).
    rewrite !stageJobs_single.
    destruct (Z.eqb_spec (job_Stage j) k) as [Ek | Ek]; cbv iota.
    + subst k; split; [intros E; apply app_eq_nil in E as [_ E]; discriminate |].
      intros _; rewrite lookup_insert_eq, length_app, Nat2Z.inj_add.
      cbn [length]; destruct IH as [IH0 IH1].
      destruct (stageJobs (job_Stage j) jobs) as [|j0 js] eqn:Ejs.
      * destruct (IH0 eq_refl) as [El Ep]; rewrite El, Ep, lookup_insert_eq.
        split; [reflexivity |].
        exists (jobEndBlock j); cbn [app].
        split; [reflexivity |].
        split; [exists j; simpl; auto |].
        intros j' [<- | []]; lia.
      * destruct (IH1 ltac:(discriminate)) as (Ep & v & El & (jm & Hjm & Ev) & Hmax).
        rewrite Ep, El; cbn [default from_option id].
        split; [rewrite wrap64_add_l; reflexivity |].
        destruct (Z.gtb_spec (jobEndBlock j) v) as [Hgt | Hle].
        -- rewrite lookup_insert_eq; exists (jobEndBlock j).
           split; [reflexivity |].
           split; [exists j; split; [apply in_or_app; simpl; auto | reflexivity] |].
           intros j' Hj'; apply in_app_or in Hj' as [Hj' | [<- | []]];
             [apply Hmax in Hj'; lia | lia].
        -- exists v; split; [exact El |].
           split; [exists jm; split; [apply in_or_app; auto | exact Ev] |].
           intros j' Hj'; apply in_app_or in Hj' as [Hj' | [<- | []]];
             [apply Hmax, Hj' | lia].
    + rewrite app_nil_r.
      assert (El : forall l' : gmap Z Z,
                l' = l \/ l' = <[job_Stage j := jobEndBlock j]> l ->
                l' !! k = l !! k).
      { intros l' [-> | ->]; [reflexivity |].
        rewrite lookup_insert_ne by exact Ek; reflexivity. }
      rewrite lookup_insert_ne by exact Ek.
      rewrite El; [exact IH |].
      destruct (l !! job_Stage j); [destruct (_ >? _) |]; auto.
Qed.

Lemma runningJob_stages jobs i :
  Forall (fun j => 0 <= job_Stage j) jobs ->
  is_Some ((fold_left runningJob jobs (0, ∅, ∅)).1.2 !! i)
  \/ is_Some ((fold_left runningJob jobs (0, ∅, ∅)).2 !! i) ->
  0 <= i.
Proof.
  intros Hf Hs.
  destruct (runningJob_perStage jobs i) as [P0 _].
  destruct (stageJobs i jobs) as [|j js] eqn:E.
  - destruct (P0 eq_refl) as [El Ep]; rewrite El, Ep in Hs.
    destruct Hs as [[? ?] | [? ?]]; discriminate.
  - assert (Hj : In j (stageJobs i jobs)) by (rewrite E; simpl; auto).
    apply stageJobs_In in Hj as [Hj <-].
    rewrite Forall_forall in Hf; apply Hf, list_elem_of_In, Hj.
Qed.

(** X17. After a [Progress] message, for a stage that has running jobs
    the gauge [ProgressMessageRunningJobs] holds their number and the
    gauge [ProgressMessageLastBlock] the highest block that one of them
    has reached (its start block plus the blocks it has processed); for a
    stage without running job both gauges are left as they were. *)
Theorem handleProgress_stage_gauges msg st k :
  Forall (fun j => 0 <= job_Stage j) (RunningJobs msg) -> 0 <= k ->
  (stageJobs k (RunningJobs msg) = [] ->
   metrics (handleProgress msg st)
     !! ("ProgressMessageRunningJobs", stageString k)
   = metrics st !! ("ProgressMessageRunningJobs", stageString k)
   /\ metrics (handleProgress msg st)
        !! ("ProgressMessageLastBlock", stageString k)
      = metrics st !! ("ProgressMessageLastBlock", stageString k))
  /\ (stageJobs k (RunningJobs msg) <> [] ->
      metrics (handleProgress msg st)
        !! ("ProgressMessageRunningJobs", stageString k)
      = Some (wrap64 (Z.of_nat (length (stageJobs k (RunningJobs msg)))))
      /\ exists v,
           metrics (handleProgress msg st)
             !! ("ProgressMessageLastBlock", stageString k) = Some v
           /\ (exists j, In j (stageJobs k (RunningJobs msg))
                         /\ v = jobEndBlock j)
           /\ forall j, In j (stageJobs k (RunningJobs msg)) ->
                        jobEndBlock j <= v).
Proof.
  intros Hf Hk.
  pose proof (runningJob_perStage (RunningJobs msg) k) as [P0 P1].
  pose proof (fun i => runningJob_stages (RunningJobs msg) i Hf) as Hkeys.
  assert (G : forall name,
    name = "ProgressMessageRunningJobs" \/ name = "ProgressMessageLastBlock" ->
    metrics (handleProgress msg st) !! (name, stageString k)
    = (setPerStage "ProgressMessageRunningJobs"
         (fold_left runningJob (RunningJobs msg) (0, ∅, ∅)).2
         (setPerStage "ProgressMessageLastBlock"
            (fold_left runningJob (RunningJobs msg) (0, ∅, ∅)).1.2
            (metrics st))) !! (name, stageString k)).
  { intros name Hname; unfold handleProgress.
    destruct (fold_left runningJob (RunningJobs msg) (0, ∅, ∅))
      as [[t l] p]; cbn [fst snd].
    match goal with |- context [stagesLoop ?s ?n 0 ?stages (?m, t)] =>
      pose proof (stagesLoop_other s n stages name (stageString k)
                    ltac:(destruct Hname as [-> | ->]; discriminate) 0 m t)
        as O;
      destruct (stagesLoop s n 0 stages (m, t)) as [m' t']
    end.
    cbn [fst] in O; rewrite metrics_traceSt; cbn [set_metrics metrics].
    unfold SetUint64 at 1, Inc.
    rewrite !lookup_insert_ne
      by (destruct Hname as [-> | ->]; discriminate).
    exact O. }
  rewrite !G by auto; clear G.
  rewrite (setPerStage_lookup_ne "ProgressMessageRunningJobs"
             "ProgressMessageLastBlock") by discriminate.
  rewrite !setPerStage_lookup by auto.
  rewrite (setPerStage_lookup_ne "ProgressMessageLastBlock"
             "ProgressMessageRunningJobs") by discriminate.
  split.
  - intros E; destruct (P0 E) as [-> ->]; auto.
  - intros E; destruct (P1 E) as (-> & v & -> & Hv); eauto.
Qed.

End Progress.

(** ** A handler that fails on a block *)

Section HandlerFailure.
Context `{Collaborators}.

Lemma errors_Is_fmt_Errorf msg e target :
  target <> fmt_Errorf msg e ->
  errors_Is (fmt_Errorf msg e) target = errors_Is e target.
Proof.
  intros Hn; cbn [errors_Is].
  rewrite bool_decide_eq_false_2 by congruence; reflexivity.
Qed.

Lemma accepted_sameConfig h s s' resp :
  sameConfig s s' -> accepted h s resp -> accepted h s' resp.
Proof.
  intros C; destruct resp; cbn [accepted]; auto.
  unfold blockCall; replace (livenessChecker s') with (livenessChecker s);
    [auto | symmetry; apply C].
Qed.

Lemma metrics_processData h l st :
  metrics (processData h l st).1 = metrics st.
Proof.
  revert st; induction l as [|d l IH]; intros st; cbn [processData];
    [reflexivity |].
  destruct (NewCursor _) as [k|e]; [| reflexivity].
  unfold call; cbn [fst snd].
  destruct (respond h (calls st) _); [reflexivity |].
  rewrite IH; reflexivity.
Qed.

Lemma errorCount_handleProgress msg st :
  errorCount (handleProgress msg st) = errorCount st.
Proof.
  unfold errorCount, handleProgress.
  destruct (fold_left runningJob (RunningJobs msg) (0, ∅, ∅)) as [[t l] p].
  match goal with |- context [stagesLoop ?s ?n 0 ?stages (?m, t)] =>
    pose proof (stagesLoop_other s n stages "SubstreamsErrorCount"
                  EmptyString ltac:(discriminate) 0 m t) as O;
    destruct (stagesLoop s n 0 stages (m, t)) as [m' t']
  end.
  cbn [fst] in O; rewrite metrics_traceSt; cbn [set_metrics metrics].
  unfold SetUint64 at 1, Inc.
  rewrite !lookup_insert_ne by discriminate.
  rewrite O, !setPerStage_lookup_ne by discriminate.
  reflexivity.
Qed.

(** The messages do not touch the counter of the errors. *)
Lemma errorCount_handleMessage h resp c st :
  errorCount (handleMessage h resp c st).1.1 = errorCount st.
Proof.
  destruct resp; unfold handleMessage, handleSession; cbv zeta; cbn [fst];
    try reflexivity.
  - apply errorCount_handleProgress.
  - unfold handleBlockScopedData; cbv zeta.
    match goal with |- context [set_metrics ?m (traceSt ?msg st)] =>
      assert (E : errorCount (set_metrics m (traceSt msg st)) = errorCount st)
        by (unfold errorCount; cbn [set_metrics metrics];
            rewrite metrics_traceSt; unfold SetUint64, Inc;
            rewrite !lookup_insert_ne by discriminate; reflexivity);
      generalize dependent (set_metrics m (traceSt msg st))
    end.
    intros st0 E.
    destruct (NewCursor _) as [k|e]; cbn [fst]; [| exact E].
    destruct (buffer (sinker st0)) as [b|].
    + destruct (buffer_HandleBlockScopedData b data) as [b' [l|e]];
        cbn [fst]; [| exact E].
      match goal with |- context [processData h l ?x] =>
        pose proof (metrics_processData h l x) as P;
        destruct (processData h l x) as [st2 e2]; cbn [fst] in *
      end.
      unfold errorCount in *; rewrite P; exact E.
    + match goal with |- context [processData h ?l ?x] =>
        pose proof (metrics_processData h l x) as P;
        destruct (processData h l x) as [st2 e2]; cbn [fst] in *
      end.
      unfold errorCount in *; rewrite P; exact E.
  - unfold handleBlockUndoSignal; cbv zeta.
    destruct (NewCursor _) as [k|e]; cbn [fst];
      [| unfold errorCount; rewrite metrics_traceSt; reflexivity].
    assert (E : forall st0,
      metrics st0
      = SetUint64 "HeadBlockNumber" (ref_Number (LastValidBlock undo))
          EmptyString
          (Inc "UndoMessageCount"
             (metrics (traceSt "received response BlockUndoSignal" st))) ->
      errorCount st0 = errorCount st).
    { intros st0 M; unfold errorCount; rewrite M; unfold SetUint64, Inc.
      rewrite !lookup_insert_ne by discriminate.
      rewrite metrics_traceSt; reflexivity. }
    cbn [set_metrics sinker].
    destruct (buffer _) as [b|].
    + destruct (buffer_HandleBlockUndoSignal b undo) as [b' [e|]];
        cbn [fst]; apply E; reflexivity.
    + unfold call; cbn [fst snd].
      destruct (respond h _ _); cbn [fst]; apply E; reflexivity.
  - unfold errorCount; cbn [set_metrics metrics]; unfold Inc.
    rewrite lookup_insert_ne by discriminate; reflexivity.
Qed.

(** A message that is accepted gives no error. *)
Lemma handleMessage_accepted h resp c st :
  buffer (sinker st) = None -> accepted h (sinker st) resp ->
  (handleMessage h resp c st).2 = None.
Proof.
  intros Hb Ha.
  destruct resp; unfold handleMessage; cbn [snd]; try reflexivity.
  - destruct Ha as (k & Hk & Hr).
    unfold handleBlockScopedData; cbv zeta; rewrite Hk.
    replace (buffer (sinker (set_metrics _ (traceSt _ st)))) with (@None blockDataBuffer)
      by (unfold traceSt, logSt; destruct (tracer _); cbn; congruence).
    cbn [processData]; rewrite Hk.
    match goal with |- context [call h ?k' ?x] =>
      replace k' with (blockCall (sinker st) data k)
        by (unfold blockCall, traceSt, logSt; destruct (tracer _); reflexivity);
      unfold call; rewrite (Hr (calls x))
    end.
    reflexivity.
  - destruct Ha as (k & Hk & Hr).
    unfold handleBlockUndoSignal; cbv zeta; rewrite Hk.
    replace (buffer (sinker (set_metrics _ (traceSt _ st)))) with (@None blockDataBuffer)
      by (unfold traceSt, logSt; destruct (tracer _); cbn; congruence).
    unfold call; rewrite Hr; reflexivity.
Qed.

(** The receive loop goes through the messages that are accepted. *)
Lemma recvLoop_accepted h pre m rest final :
  forall c recv st,
    buffer (sinker st) = None -> Forall (accepted h (sinker st)) pre ->
    exists st' c' cs,
      recvLoop h (pre ++ m :: rest) final c recv st
      = recvLoop h (m :: rest) final c' true st'
      /\ sessionStep st st' cs /\ callsFrom pre cs
      /\ errorCount st' = errorCount st.
Proof.
  induction pre as [|resp pre IH]; intros c recv st Hb Hf.
  - exists st, c, []; split; [reflexivity |].
    split; [apply sessionStep_refl | split; [constructor | reflexivity]].
  - apply Forall_cons in Hf as [Ha Hf].
    cbn [app recvLoop].
    pose proof (sessionStep_traceSt "substreams waiting to receive message" st)
      as T.
    assert (ET : errorCount (traceSt "substreams waiting to receive message" st)
                 = errorCount st)
      by (unfold errorCount; rewrite metrics_traceSt; reflexivity).
    generalize dependent (traceSt "substreams waiting to receive message" st).
    intros x T ET.
    assert (Hbx : buffer (sinker x) = None) by (apply T, Hb).
    assert (Hax : accepted h (sinker x) resp)
      by (eapply accepted_sameConfig; [apply T | exact Ha]).
    pose proof (handleMessage_accepted h resp c x Hbx Hax) as N.
    pose proof (errorCount_handleMessage h resp c x) as EM.
    destruct (handleMessage_step h resp c x) as (cs1 & S1 & F1).
    destruct (handleMessage h resp c x) as [[st1 c1] e];
      cbn [fst snd] in *; subst e.
    assert (S01 : sessionStep st st1 ([] ++ cs1))
      by (eapply sessionStep_trans; eassumption).
    destruct (IH c1 true st1) as (st' & c' & cs & E & S & F & EC).
    { apply S01, Hb. }
    { eapply Forall_impl; [exact Hf |].
      intros r; apply accepted_sameConfig, S01. }
    exists st', c', (([] ++ cs1) ++ cs); split; [exact E |].
    split; [eapply sessionStep_trans; eassumption |].
    split; [| congruence].
    apply callsFrom_app.
    + cbn [app]; eapply Forall_impl; [exact F1 |].
      intros k Hk; exists resp; split; [left; reflexivity | exact Hk].
    + eapply callsFrom_incl; [| exact F]; intros r Hr; right; exact Hr.
Qed.

(** The handler fails on the block that the loop has just received,
    without undo buffer: the cursor returned is already the one of that
    block. *)
Lemma recvLoop_handler_fails h d rest final c recv st k e :
  buffer (sinker st) = None ->
  NewCursor (bsd_Cursor d) = inl k ->
  respond h (calls st) (blockCall (sinker st) d k) = Some e ->
  exists st1,
    recvLoop h (Response_BlockScopedData d :: rest) final c recv st
    = (st1, (Some k, true,
             Some (fmt_Errorf "handle BlockScopedData message at block" e)))
    /\ calls st1 = calls st ++ [blockCall (sinker st) d k]
    /\ requests st1 = requests st
    /\ sleeps st1 = sleeps st
    /\ errorCount st1 = errorCount st.
Proof.
  intros Hb Hk He.
  cbn [recvLoop]; unfold handleMessage, handleBlockScopedData; cbv zeta.
  rewrite Hk.
  unfold traceSt, logSt, call, blockCall, errorCount in *.
  destruct (tracer (sinker st)) eqn:Ht;
    repeat (progress (cbn; unfold call; cbn; rewrite ?Ht, ?Hb, ?Hk, ?He));
    (eexists; split; [reflexivity |]); cbn;
    unfold SetUint64, Inc; rewrite !lookup_insert_ne by discriminate; auto.
Qed.

(** The session in which the handler fails on a block, after messages
    that are accepted. *)
Lemma runSession_handler_fails h sb eb hd a bo c st pre d rest final k e :
  buffer (sinker st) = None ->
  stream a = Receive (pre ++ Response_BlockScopedData d :: rest) final ->
  Forall (accepted h (sinker st)) pre ->
  NewCursor (bsd_Cursor d) = inl k ->
  (forall l, respond h l (blockCall (sinker st) d k) = Some e) ->
  exists st1 cs,
    runSession h sb eb hd a bo c st
    = (st1, Reset bo, Some k,
       Some (fmt_Errorf "handle BlockScopedData message at block" e))
    /\ calls st1 = calls st ++ cs ++ [blockCall (sinker st) d k]
    /\ callsFrom pre cs
    /\ requests st1 = requests st ++ [newRequest (sinker st) sb eb hd c]
    /\ sleeps st1 = sleeps st
    /\ errorCount st1 = errorCount st.
Proof.
  intros Hb Hs Hf Hk He.
  unfold runSession, doRequest; cbv zeta; rewrite Hs.
  match goal with |- context [logSt ?lvl ?msg (add_request ?r st)] =>
    set (x := logSt lvl msg (add_request r st))
  end.
  destruct (recvLoop_accepted h pre (Response_BlockScopedData d) rest final
              c false x) as (st' & c' & cs & E & S & F & EC);
    [exact Hb | exact Hf |].
  destruct S as (C & R & SL & K).
  destruct (recvLoop_handler_fails h d rest final c' true st' k e)
    as (st1 & E1 & K1 & R1 & S1 & EC1).
  { apply C; exact Hb. }
  { exact Hk. }
  { replace (blockCall (sinker st') d k) with (blockCall (sinker st) d k);
      [apply He |].
    unfold blockCall.
    replace (livenessChecker (sinker st')) with (livenessChecker (sinker x));
      [reflexivity | symmetry; apply C]. }
  rewrite E, E1; exists st1, cs.
  split; [reflexivity |].
  replace (blockCall (sinker st') d k) with (blockCall (sinker st) d k) in K1.
  2: { unfold blockCall.
       replace (livenessChecker (sinker st'))
         with (livenessChecker (sinker x));
         [reflexivity | symmetry; apply C]. }
  rewrite K1, K, R1, R, S1, SL, EC1, EC, <- app_assoc.
  repeat split; auto.
Qed.

(** X12. A failure of the handler that can be retried does not make the
    sinker deliver the block again: the cursor of a block is recorded
    before the handler is called for it, so that, without undo buffer,
    when the handler fails on a block, wherever the block is in the
    stream of the session, the request sent after the pause starts from
    the cursor of that very block. *)
Theorem handler_retryable_failure_resumes_from_failed_block
    h sb eb hd a bo c st pre d rest final k e cause :
  buffer (sinker st) = None ->
  stream a = Receive (pre ++ Response_BlockScopedData d :: rest) final ->
  Forall (accepted h (sinker st)) pre ->
  NewCursor (bsd_Cursor d) = inl k ->
  (forall l, respond h l (blockCall (sinker st) d k) = Some e) ->
  errors_Is e io_EOF = false ->
  errors_As_Retryable e = Some cause ->
  ctxCanceled (ctxErr a) = false ->
  ctxDone a = false ->
  (NextBackOff (Reset bo)).1 <> Stop ->
  forall a' script,
    exists r cs0 cs rs,
      requests (runLoop h sb eb hd (a :: a' :: script) bo c st).1
      = requests st ++ newRequest (sinker st) sb eb hd c :: r :: rs
      /\ StartCursor r = Cursor_String (Some k)
      /\ calls (runLoop h sb eb hd (a :: a' :: script) bo c st).1
         = calls st ++ cs0 ++ blockCall (sinker st) d k :: cs
      /\ callsFrom pre cs0
      /\ sleeps (runLoop h sb eb hd [a] bo c st).1
         = sleeps st ++ [(NextBackOff (Reset bo)).1].
Proof.
  intros Hb Hs Hf Hk He HE HA HC HD Hn a' script.
  destruct (runSession_handler_fails h sb eb hd a bo c st pre d rest final k e
              Hb Hs Hf Hk He) as (st1 & cs0 & E & K & F & R & S & _).
  assert (Hloop : forall l,
    runLoop h sb eb hd (a :: l) bo c st
    = runLoop h sb eb hd l (NextBackOff (Reset bo)).2 (Some k)
        (add_sleep (NextBackOff (Reset bo)).1
           (logSt InfoLevel "sleeping before re-connecting"
              (logSt ErrorLevel "substreams encountered a retryable error"
                 (set_metrics (Inc "SubstreamsErrorCount" (metrics st1))
                    st1))))).
  { intros l; cbn [runLoop]; rewrite E.
    rewrite errors_Is_fmt_Errorf by discriminate.
    rewrite HE, HC; cbn [errors_As_Retryable]; rewrite HA, HD.
    destruct (NextBackOff (Reset bo)) as [sleepFor bo2]; cbn [fst snd] in *.
    apply Z.eqb_neq in Hn; rewrite Hn; reflexivity. }
  rewrite !Hloop.
  match goal with |- context [runLoop h sb eb hd (a' :: script) ?b ?k' ?y] =>
    set (x := y);
    destruct (runLoop_requests h sb eb hd (a' :: script) b k' x)
      as (rs0 & R' & _ & rs & ->);
    destruct (runLoop_step h sb eb hd (a' :: script) b k' x)
      as (cs & rs1 & (_ & K' & _) & _)
  end.
  assert (Rx : requests x = requests st1) by reflexivity.
  assert (Kx : calls x = calls st1) by reflexivity.
  assert (Sx : sleeps x = sleeps st1 ++ [(NextBackOff (Reset bo)).1])
    by reflexivity.
  exists (newRequest (sinker x) sb eb hd (Some k)), cs0, cs, rs.
  rewrite R', K', Rx, Kx, R, K, <- !app_assoc.
  split; [reflexivity |].
  split; [reflexivity |].
  split; [reflexivity |].
  split; [exact F |].
  cbn [runLoop fst]; rewrite Sx, S; reflexivity.
Qed.

(** X13. An error of the handler that wraps [io.EOF] is taken for the end
    of the stream: when the handler fails so on a block, wherever the
    block is in the stream, the loop returns the cursor of that block and
    no error, as if the stop block had been reached, and the messages that
    follow are not read. *)
Theorem handler_error_wrapping_EOF_ends_the_run
    h sb eb hd a script bo c st pre d rest final k e :
  buffer (sinker st) = None ->
  stream a = Receive (pre ++ Response_BlockScopedData d :: rest) final ->
  Forall (accepted h (sinker st)) pre ->
  NewCursor (bsd_Cursor d) = inl k ->
  (forall l, respond h l (blockCall (sinker st) d k) = Some e) ->
  errors_Is e io_EOF = true ->
  (runLoop h sb eb hd (a :: script) bo c st).2 = Returned (Some k, None)
  /\ (exists cs0,
        calls (runLoop h sb eb hd (a :: script) bo c st).1
        = calls st ++ cs0 ++ [blockCall (sinker st) d k]
        /\ callsFrom pre cs0)
  /\ sleeps (runLoop h sb eb hd (a :: script) bo c st).1 = sleeps st.
Proof.
  intros Hb Hs Hf Hk He HE.
  destruct (runSession_handler_fails h sb eb hd a bo c st pre d rest final k e
              Hb Hs Hf Hk He) as (st1 & cs0 & E & K & F & R & S & _).
  cbn [runLoop]; rewrite E.
  rewrite errors_Is_fmt_Errorf by discriminate.
  rewrite HE; cbn [fst snd]; eauto.
Qed.

(** X14. Any other error of the handler that carries no retryable marker
    ends the run at once: when the handler fails so on a block, wherever
    the block is in the stream, the loop returns the error, wrapped, with
    the cursor of that block, counts one error and neither sleeps nor
    sends another request. *)
Theorem handler_error_is_returned_at_once
    h sb eb hd a script bo c st pre d rest final k e :
  buffer (sinker st) = None ->
  stream a = Receive (pre ++ Response_BlockScopedData d :: rest) final ->
  Forall (accepted h (sinker st)) pre ->
  NewCursor (bsd_Cursor d) = inl k ->
  (forall l, respond h l (blockCall (sinker st) d k) = Some e) ->
  errors_Is e io_EOF = false ->
  errors_As_Retryable e = None ->
  ctxCanceled (ctxErr a) = false ->
  let st' := (runLoop h sb eb hd (a :: script) bo c st).1 in
  (runLoop h sb eb hd (a :: script) bo c st).2
  = Returned (Some k,
              Some (fmt_Errorf "handle BlockScopedData message at block" e))
  /\ (exists cs0,
        calls st' = calls st ++ cs0 ++ [blockCall (sinker st) d k]
        /\ callsFrom pre cs0)
  /\ requests st' = requests st ++ [newRequest (sinker st) sb eb hd c]
  /\ sleeps st' = sleeps st
  /\ errorCount st' = Some (default 0 (errorCount st) + 1).
Proof.
  intros Hb Hs Hf Hk He HE HA HC.
  destruct (runSession_handler_fails h sb eb hd a bo c st pre d rest final k e
              Hb Hs Hf Hk He) as (st1 & cs0 & E & K & F & R & S & M).
  cbn [runLoop]; rewrite E.
  rewrite errors_Is_fmt_Errorf by discriminate.
  rewrite HE, HC; cbn [errors_As_Retryable]; rewrite HA; cbn [fst snd].
  split; [reflexivity |].
  split; [eauto |].
  split; [exact R | split; [exact S |]].
  unfold errorCount in *; cbn [set_metrics metrics]; unfold Inc.
  rewrite lookup_insert_eq, M; reflexivity.
Qed.

End HandlerFailure.

(** ** Retrying without a cap *)

Section InfiniteRetry.
Context `{Collaborators}.

Lemma recvError_shape final :
  errors_Is (recvError final) io_EOF = true
  \/ (exists msg e, recvError final = fmt_Errorf msg e)
  \/ exists e, recvError final = RetryableError e.
Proof.
  unfold recvError, retryable.
  destruct (errors_Is final io_EOF) eqn:E; [left; exact E | right].
  destruct (AsGRPCError final) as [[]|]; eauto.
Qed.

Lemma runSession_shape h sb eb hd a b s c st :
  exists st1 s1 c1 err,
    runSession h sb eb hd a (withState b s) c st
    = (st1, withState b s1, c1, Some err)
    /\ (errors_Is err io_EOF = true
        \/ (exists msg e, err = fmt_Errorf msg e)
        \/ exists e, err = RetryableError e).
Proof.
  unfold runSession; cbv zeta.
  match goal with |- context [doRequest h c (stream a) ?x] =>
    assert (D : exists err,
      (doRequest h c (stream a) x).2.2 = Some err
      /\ (errors_Is err io_EOF = true
          \/ (exists msg e, err = fmt_Errorf msg e)
          \/ exists e, err = RetryableError e));
    [| destruct (doRequest h c (stream a) x) as [st1 [[c1 recv] err]]]
  end.
  { unfold doRequest; cbv zeta; destruct (stream a) as [e|msgs final].
    - eexists; split; [reflexivity |]; unfold retryable; eauto.
    - match goal with |- context [recvLoop h msgs final c ?r ?x] =>
        destruct (recvLoop_error h msgs final c r x) as (err & E & F)
      end.
      exists err; split; [exact E |].
      destruct F as [-> | F]; [apply recvError_shape | auto]. }
  cbn [snd] in D; destruct D as (err' & -> & Hs).
  exists st1, (if recv then bo_reset b s else s), c1, err'.
  split; [| exact Hs].
  destruct recv; reflexivity.
Qed.

Lemma NextBackOff_withState b s :
  NextBackOff (withState b s)
  = ((bo_next b s).1, withState b (bo_next b s).2).
Proof.
  unfold NextBackOff, withState; cbn [bo_next bo_cur bo_state bo_reset].
  destruct (bo_next b s); reflexivity.
Qed.

Lemma runLoop_never_expires h sb eb hd b script cause :
  neverStops b -> Forall (fun a => ctxDone a = false) script ->
  forall s c st,
    match (runLoop h sb eb hd script (withState b s) c st).2 with
    | Returned (_, Some err) => err <> fmt_Errorf2 ErrBackOffExpired cause
    | _ => True
    end.
Proof.
  intros Hb Hd; induction Hd as [|a script Ha _ IH]; intros s c st;
    cbn [runLoop]; [exact I |].
  destruct (runSession_shape h sb eb hd a b s c st)
    as (st1 & s1 & c1 & err & -> & Hs).
  destruct (errors_Is err io_EOF) eqn:HE; [exact I |].
  destruct (ctxCanceled (ctxErr a)); [exact I |].
  destruct (errors_As_Retryable err) as [cause'|].
  - rewrite Ha, NextBackOff_withState.
    pose proof (Hb s1) as Hn.
    apply Z.eqb_neq in Hn; rewrite Hn; apply IH.
  - cbn [snd].
    destruct Hs as [Hs | [(msg & e & ->) | (e & ->)]];
      [congruence | discriminate ..].
Qed.

Lemma runLoop_keeps_retrying h sb eb hd b script :
  neverStops b -> Forall (fun a => is_Some (failureCause a)) script ->
  forall s c st,
    (runLoop h sb eb hd script (withState b s) c st).2 = Running
    /\ length (sleeps (runLoop h sb eb hd script (withState b s) c st).1)
       = (length (sleeps st) + length script)%nat.
Proof.
  intros Hb Hf; induction Hf as [|a script [cause Ha] _ IH]; intros s c st;
    cbn [runLoop]; [cbn; split; [reflexivity | lia] |].
  apply failureCause_inv in Ha as (err & Hs & HE & HC & HD & HA).
  destruct (runSession_no_message h sb eb hd a (withState b s) c st err Hs)
    as (st1 & -> & S1).
  rewrite HE, HC, HA, HD, NextBackOff_withState.
  pose proof (Hb s) as Hn.
  apply Z.eqb_neq in Hn; rewrite Hn.
  match goal with |- context [runLoop h sb eb hd script (withState b ?s2) c ?x] =>
    destruct (IH s2 c x) as [R L]
  end.
  split; [exact R |].
  rewrite L; unfold logSt; cbn; rewrite length_app, S1; cbn; lia.
Qed.

Lemma sleeps_adjustedEndBlock_log st :
  sleeps (adjustedEndBlock_log st) = sleeps st.
Proof.
  unfold adjustedEndBlock_log.
  destruct (blockRange _); [| reflexivity].
  destruct (Range_EndBlock _); [| reflexivity].
  destruct (buffer _); reflexivity.
Qed.

(** X18. With [infiniteRetry], the run never gives up: if the policy of
    the sinker never stops and the context is not done when the backoff is
    asked, [run] never returns [ErrBackOffExpired], whatever the sessions
    do; and after any number of non-productive retryable failures in a row
    it is still running, having slept once after each. *)
Theorem infinite_retry_never_expires h client script c st :
  infiniteRetry (sinker st) = true ->
  neverStops (backOff (sinker st)) ->
  Forall (fun a => ctxDone a = false) script ->
  (forall cause,
     match (run h client script c st).2 with
     | Returned (_, Some err) => err <> fmt_Errorf2 ErrBackOffExpired cause
     | _ => True
     end)
  /\ (clientErr client = None ->
      (exists hd, run_headersArray (sinker st) (clientHeaders client) = Ret hd) ->
      Forall (fun a => is_Some (failureCause a)) script ->
      (run h client script c st).2 = Running
      /\ length (sleeps (run h client script c st).1)
         = (length (sleeps st) + length script)%nat).
Proof.
  intros Hi Hb Hd.
  assert (Eb : run_backOff (sinker st)
               = withState (backOff (sinker st)) (bo_cur (backOff (sinker st)))).
  { unfold run_backOff; rewrite Hi; cbn [negb].
    destruct (backOff (sinker st)); reflexivity. }
  split.
  - intros cause; unfold run; cbv zeta.
    destruct (clientErr client); [cbn; discriminate |].
    destruct (run_headersArray _ _) as [hd|w|w]; try exact I.
    rewrite Eb; apply runLoop_never_expires; assumption.
  - intros Hc (hd & Hh) Hf; unfold run; cbv zeta.
    rewrite Hc, Hh, Eb.
    match goal with |- context [runLoop h ?sb ?eb hd script ?b' c ?x] =>
      destruct (runLoop_keeps_retrying h sb eb hd (backOff (sinker st)) script
                  Hb Hf (bo_cur (backOff (sinker st))) c x) as [R L];
      assert (S : sleeps x = sleeps st)
    end.
    { rewrite sleeps_adjustedEndBlock_log; destruct (negb _); reflexivity. }
    rewrite R, L, S; auto.
Qed.

End InfiniteRetry.

(** ** The earlier variant and the accessors *)

Section Variants.
Context `{Collaborators}.

(** X19. The two variants of the sinker ask for the same stop block
    exactly when the range has an end: the end of the range, moved by the
    capacity of the undo buffer if there is one. Without an end the
    earlier variant asks for [MaxUint64] and the present one for [0]. *)
Theorem Legacy_stopBlock_agrees_iff_bounded s :
  Legacy.stopBlock s = adjustedEndBlock s
  <-> exists r e, blockRange s = Some r /\ Range_EndBlock r = Some e.
Proof.
  unfold Legacy.stopBlock, Legacy.adjustStreamRange_EndBlock, adjustedEndBlock.
  destruct (blockRange s) as [r|].
  - destruct (Range_EndBlock r) as [e|] eqn:Er.
    + split; [eauto |]; intros _; destruct (buffer s); reflexivity.
    + split; [destruct (buffer s); discriminate |].
      intros (r' & e & [= <-] & E); congruence.
  - split; [destruct (buffer s); discriminate |].
    intros (r' & e & [=] & _).
Qed.

(** X20. The two variants classify an error of [stream.Recv] in the same
    way except for two codes: [Canceled], which the earlier variant
    returned as a stream failure and the present one retries, and
    [InvalidArgument], which the earlier variant retried and the present
    one returns as an invalid stream. *)
Theorem Legacy_recvError_differs_on_two_codes err :
  (errors_Is err io_EOF = true
   \/ (AsGRPCError err <> Some codes.Canceled
       /\ AsGRPCError err <> Some codes.InvalidArgument) ->
   Legacy_recvError err = recvError err)
  /\ (errors_Is err io_EOF = false ->
      AsGRPCError err = Some codes.Canceled ->
      Legacy_recvError err = fmt_Errorf "stream failure" err
      /\ recvError err = retryable err)
  /\ (errors_Is err io_EOF = false ->
      AsGRPCError err = Some codes.InvalidArgument ->
      Legacy_recvError err = retryable err
      /\ recvError err = fmt_Errorf "stream invalid" err).
Proof.
  unfold Legacy_recvError, recvError.
  destruct (errors_Is err io_EOF).
  - split; [reflexivity | split; discriminate].
  - split; [| split; intros _ ->; auto].
    intros [? | [Hc Hi]]; [discriminate |].
    destruct (AsGRPCError err) as [[]|]; congruence.
Qed.

(** X21. The two accessors of the output type agree: on a sinker whose
    output module and its output are not [nil], the prefixed type is
    ["proto:"] followed by the unprefixed type, and the type of the module
    is one of the two; on a [nil] output module or output, both panic. *)
Theorem OutputModuleType_prefixed_unprefixed s :
  (forall m o,
     outputModule s = Some m -> Output m = Some o ->
     exists u,
       OutputModuleTypeUnprefixed s = Ret u
       /\ OutputModuleTypePrefixed s = Ret ("proto:" +:+ u)
       /\ (Output_Type o = u \/ Output_Type o = "proto:" +:+ u))
  /\ (outputModule s = None
      \/ (exists m, outputModule s = Some m /\ Output m = None) ->
      exists what,
        OutputModuleTypeUnprefixed s = Panic what
        /\ OutputModuleTypePrefixed s = Panic what).
Proof.
  unfold OutputModuleTypeUnprefixed, OutputModuleTypePrefixed,
    outputModuleType.
  split.
  - intros m o -> ->.
    exists (sanitizeModuleType (Output_Type o)).1.
    rewrite sanitizeModuleType_prefixed.
    split; [reflexivity | split; [reflexivity |]].
    unfold sanitizeModuleType, TrimPrefix.
    destruct (HasPrefix (Output_Type o) "proto:") eqn:Hp; cbn [fst];
      [right; apply HasPrefix_true, Hp | left; reflexivity].
  - intros [-> | (m & -> & ->)]; eauto.
Qed.

End Variants.

(** ** The cursor given to the handler *)

Section OwnCursor.
Context `{Collaborators}.

Lemma ownCursor_same s s' c :
  livenessChecker s' = livenessChecker s -> ownCursor s c -> ownCursor s' c.
Proof.
  intros E; destruct c; cbn [ownCursor]; auto.
  unfold blockCall; rewrite E; auto.
Qed.

Lemma ownStep_refl st : ownStep st st.
Proof. split; [reflexivity |]; exists []; rewrite app_nil_r; auto. Qed.

Lemma ownStep_trans st1 st2 st3 :
  ownStep st1 st2 -> ownStep st2 st3 -> ownStep st1 st3.
Proof.
  intros (L1 & cs1 & K1 & F1) (L2 & cs2 & K2 & F2).
  split; [congruence |].
  exists (cs1 ++ cs2); rewrite K2, K1, <- app_assoc.
  split; [reflexivity | apply Forall_app; split; [exact F1 |]].
  eapply Forall_impl; [exact F2 |].
  intros c; apply ownCursor_same; congruence.
Qed.

Lemma ownStep_quiet st st' :
  livenessChecker (sinker st') = livenessChecker (sinker st) ->
  calls st' = calls st -> ownStep st st'.
Proof.
  intros El Ek; split; [exact El |].
  exists []; rewrite app_nil_r; auto.
Qed.

Lemma ownStep_traceSt msg st : ownStep st (traceSt msg st).
Proof.
  unfold traceSt; destruct (tracer _);
    [apply ownStep_quiet; reflexivity | apply ownStep_refl].
Qed.

Lemma ownStep_adjustedEndBlock_log st : ownStep st (adjustedEndBlock_log st).
Proof.
  unfold adjustedEndBlock_log.
  destruct (blockRange _); [| apply ownStep_refl].
  destruct (Range_EndBlock _); [| apply ownStep_refl].
  destruct (buffer _); [apply ownStep_quiet; reflexivity | apply ownStep_refl].
Qed.

Lemma ownStep_call h k st :
  ownCursor (sinker st) k -> ownStep st (call h k st).1.
Proof.
  intros Hk; split; [reflexivity |].
  exists [k]; split; [reflexivity | auto].
Qed.

Lemma ownStep_handleProgress msg st : ownStep st (handleProgress msg st).
Proof.
  unfold handleProgress.
  destruct (fold_left _ _ _) as [[t l] j].
  destruct (stagesLoop _ _ _ _ _) as [m t'].
  eapply ownStep_trans; [| apply ownStep_traceSt].
  apply ownStep_quiet; reflexivity.
Qed.

Lemma ownStep_processData h l st : ownStep st (processData h l st).1.
Proof.
  revert st; induction l as [|d l IH]; intros st; cbn [processData].
  - apply ownStep_refl.
  - destruct (NewCursor _) as [k|e] eqn:Ek; [| apply ownStep_refl].
    match goal with |- context [call h ?k' st] =>
      assert (Hc : ownStep st (call h k' st).1)
        by (apply ownStep_call; split; [exact Ek | reflexivity]);
      destruct (call h k' st) as [st1 [e|]]; cbn [fst] in *
    end; [exact Hc |].
    eapply ownStep_trans; [exact Hc | apply IH].
Qed.

Lemma ownStep_handleMessage h resp c st :
  ownStep st (handleMessage h resp c st).1.1.
Proof.
  destruct resp; unfold handleMessage, handleSession; cbv zeta; cbn [fst];
    try (apply ownStep_quiet; reflexivity).
  - apply ownStep_handleProgress.
  - unfold handleBlockScopedData; cbv zeta.
    match goal with |- context [set_metrics ?m (traceSt ?msg st)] =>
      assert (B : ownStep st (set_metrics m (traceSt msg st)));
      [eapply ownStep_trans;
         [apply ownStep_traceSt | apply ownStep_quiet; reflexivity] |];
      generalize dependent (set_metrics m (traceSt msg st))
    end.
    intros st0 B.
    destruct (NewCursor _) as [k|e]; cbn [fst]; [| exact B].
    destruct (buffer (sinker st0)) as [b|].
    + destruct (buffer_HandleBlockScopedData b data) as [b' [l|e]];
        cbn [fst].
      * match goal with |- context [processData h l ?x] =>
          pose proof (ownStep_processData h l x) as P;
          destruct (processData h l x) as [st2 e2]; cbn [fst] in *
        end.
        eapply ownStep_trans; [exact B |].
        eapply ownStep_trans; [| exact P].
        apply ownStep_quiet; reflexivity.
      * eapply ownStep_trans; [exact B | apply ownStep_quiet; reflexivity].
    + match goal with |- context [processData h ?l ?x] =>
        pose proof (ownStep_processData h l x) as P;
        destruct (processData h l x) as [st2 e2]; cbn [fst] in *
      end.
      eapply ownStep_trans; [exact B | exact P].
  - unfold handleBlockUndoSignal; cbv zeta.
    pose proof (ownStep_traceSt "received response BlockUndoSignal" st) as B.
    generalize dependent (traceSt "received response BlockUndoSignal" st).
    intros st0 B.
    destruct (NewCursor _) as [k|e] eqn:Ek; cbn [fst]; [| exact B].
    cbn [set_metrics sinker].
    destruct (buffer (sinker st0)) as [b|].
    + destruct (buffer_HandleBlockUndoSignal b undo) as [b' [e|]];
        cbn [fst];
        (eapply ownStep_trans; [exact B | apply ownStep_quiet; reflexivity]).
    + match goal with |- context [call h ?k' ?x] =>
        assert (Hc : ownStep x (call h k' x).1)
          by (apply ownStep_call; exact Ek);
        assert (Bx : ownStep st x)
          by (eapply ownStep_trans;
                [exact B | apply ownStep_quiet; reflexivity]);
        destruct (call h k' x) as [st1 [e|]]; cbn [fst] in *
      end; exact (ownStep_trans _ _ _ Bx Hc).
Qed.

Lemma ownStep_recvLoop h msgs final c recv st :
  ownStep st (recvLoop h msgs final c recv st).1.
Proof.
  revert c recv st; induction msgs as [|resp msgs IH]; intros c recv st;
    cbn [recvLoop].
  - apply ownStep_traceSt.
  - pose proof (ownStep_traceSt "substreams waiting to receive message" st)
      as B.
    match goal with |- context [handleMessage h resp c ?x] =>
      pose proof (ownStep_handleMessage h resp c x) as M;
      destruct (handleMessage h resp c x) as [[st1 c1] [e|]]; cbn [fst] in *
    end.
    + exact (ownStep_trans _ _ _ B M).
    + eapply ownStep_trans; [exact B |].
      eapply ownStep_trans; [exact M | apply IH].
Qed.

Lemma ownStep_runSession h sb eb hd a bo c st :
  ownStep st (runSession h sb eb hd a bo c st).1.1.1.
Proof.
  unfold runSession, doRequest; cbv zeta.
  match goal with |- context [logSt ?lvl ?msg (add_request ?r st)] =>
    assert (B : ownStep st (logSt lvl msg (add_request r st)))
      by (apply ownStep_quiet; reflexivity);
    generalize dependent (logSt lvl msg (add_request r st))
  end.
  intros st0 B.
  destruct (stream a) as [e|msgs final]; cbn [fst]; [exact B |].
  pose proof (ownStep_recvLoop h msgs final c false st0) as D.
  destruct (recvLoop h msgs final c false st0) as [st1 [[c1 recv] err]];
    cbn [fst] in *.
  exact (ownStep_trans _ _ _ B D).
Qed.

Lemma ownStep_runLoop h sb eb hd script bo c st :
  ownStep st (runLoop h sb eb hd script bo c st).1.
Proof.
  revert bo c st; induction script as [|a script IH]; intros bo c st;
    cbn [runLoop]; [apply ownStep_refl |].
  pose proof (ownStep_runSession h sb eb hd a bo c st) as S.
  destruct (runSession h sb eb hd a bo c st) as [[[st1 bo1] c1] err];
    cbn [fst] in *.
  assert (Hnext : forall bo2 st2,
    ownStep st1 st2 -> ownStep st (runLoop h sb eb hd script bo2 c1 st2).1).
  { intros bo2 st2 B.
    eapply ownStep_trans; [exact S |].
    eapply ownStep_trans; [exact B | apply IH]. }
  assert (Hstop : forall st2 (r : ended (option Cursor * option error)),
    ownStep st1 st2 -> ownStep st (st2, r).1).
  { intros st2 r B; exact (ownStep_trans _ _ _ S B). }
  destruct err as [err|]; [| apply Hnext, ownStep_refl].
  destruct (errors_Is err io_EOF); [apply Hstop, ownStep_refl |].
  destruct (ctxCanceled (ctxErr a));
    [apply Hstop, ownStep_quiet; reflexivity |].
  destruct (errors_As_Retryable err) as [cause|];
    [| apply Hstop, ownStep_quiet; reflexivity].
  destruct (if ctxDone a then _ else _) as [sleepFor bo2].
  destruct (sleepFor =? Stop);
    [apply Hstop | apply Hnext]; apply ownStep_quiet; reflexivity.
Qed.

Lemma ownStep_Run_prelude st : ownStep st (Run_prelude st).
Proof.
  unfold Run_prelude.
  eapply ownStep_trans; [| apply ownStep_quiet; reflexivity].
  destruct (_ =? 0); [apply ownStep_adjustedEndBlock_log |].
  eapply ownStep_trans; apply ownStep_adjustedEndBlock_log.
Qed.

Lemma ownStep_run h client script c st :
  ownStep st (run h client script c st).1.
Proof.
  unfold run; cbv zeta.
  destruct (clientErr client); [apply ownStep_refl |].
  destruct (run_headersArray _ _) as [hd|w|w]; try apply ownStep_refl.
  eapply ownStep_trans; [| apply ownStep_runLoop].
  eapply ownStep_trans; [| apply ownStep_adjustedEndBlock_log].
  destruct (negb _); apply ownStep_quiet; reflexivity.
Qed.

(** X22. The handler is given each block with the cursor of that block:
    in every call of [HandleBlockScopedData] made by [Run], the cursor is
    the one decoded from the block passed in the same call, and the
    liveness is the one of its clock, also when an undo buffer releases
    the block long after it was received; in every call of
    [HandleBlockUndoSignal], the cursor is the last valid cursor of the
    signal. A message whose cursor does not decode is never passed to the
    handler. *)
Theorem handler_gets_the_cursor_of_the_block h client script ce c st :
  exists cs,
    calls (Run h client script ce c st).1 = calls st ++ cs
    /\ Forall (ownCursor (sinker st)) cs.
Proof.
  cut (ownStep st (Run h client script ce c st).1); [intros [_ ?]; auto |].
  unfold Run; cbv zeta; fold (Run_prelude st).
  pose proof (ownStep_Run_prelude st) as P.
  pose proof (ownStep_run h client script c (Run_prelude st)) as R.
  destruct (run h client script c (Run_prelude st)) as [st1 [[lc err]|w|]];
    cbn [fst] in *; try exact (ownStep_trans _ _ _ P R).
  assert (B : ownStep st st1) by exact (ownStep_trans _ _ _ P R).
  clear P R.
  assert (L : forall lvl msg st2,
    ownStep st st2 -> ownStep st (logSt lvl msg st2)).
  { intros lvl msg st2 B2; eapply ownStep_trans; [exact B2 |].
    apply ownStep_quiet; reflexivity. }
  unfold Shutdown; destruct err as [err|]; cbn [fst]; [auto |].
  destruct (isCompletionHandler h); [| cbn [fst]; auto].
  match goal with |- context [call h ?k ?x] =>
    assert (Bx : ownStep st x) by auto;
    pose proof (ownStep_call h k x I) as Hc;
    destruct (call h k x) as [st2 [e'|]]; cbn [fst] in *
  end; apply L; exact (ownStep_trans _ _ _ Bx Hc).
Qed.

(** X23. If the client cannot be created, [Run] ends with that error,
    wrapped, or with no error if the context is canceled by then: no
    request is sent, the handler is not called, not even for
    completion, and nothing is slept. *)
Theorem client_error_ends_the_run h client script ce c st err :
  clientErr client = Some err ->
  (Run h client script ce c st).2
  = Returned (if bool_decide (ce = Some context_Canceled) then None
              else Some (fmt_Errorf "new substreams client" err))
  /\ calls (Run h client script ce c st).1 = calls st
  /\ requests (Run h client script ce c st).1 = requests st
  /\ sleeps (Run h client script ce c st).1 = sleeps st.
Proof.
  intros Hc; unfold Run, run; cbv zeta; rewrite Hc; unfold Shutdown.
  cbn [fst snd]; split; [reflexivity |].
  pose proof (runStep_Run_prelude st) as (_ & K & R).
  rewrite app_nil_r in K, R; fold (Run_prelude st).
  split; [exact K | split; [exact R |]].
  unfold Run_prelude, logSt; cbn.
  destruct (_ =? 0); rewrite ?sleeps_adjustedEndBlock_log; reflexivity.
Qed.

End OwnCursor.

(** * The further properties on the scenarios *)

Section MoreScenarios.
Import Sample SampleManifest SampleRun.
#[local] Existing Instance collaborators.
#[local] Existing Instance library.

Lemma sanitizeModuleType_normal_form_witness :
  HasPrefix (sanitizeModuleType "proto:acme.Events").1 "proto:" = false
  /\ sanitizeModuleType (sanitizeModuleType "proto:acme.Events").1
     = sanitizeModuleType "proto:acme.Events".
Proof.
  split; [reflexivity |].
  apply (proj2 (proj2 (proj2 (sanitizeModuleType_normal_form
                                "proto:acme.Events")))).
  reflexivity.
Defined.

Lemma ReadManifestAndModule_success_witness :
  exists zlog',
    ReadManifestAndModule "substreams.yaml" InferOutputModuleFromPackage
      "acme.Events" infoLogger
    = Ret (zlog', inl (manifestPackage, events, [171; 205]))
    /\ mm_KindMap events = true
    /\ SinkModule manifestPackage <> EmptyString.
Proof.
  eexists; split; [reflexivity |].
  edestruct (ReadManifestAndModule_success "substreams.yaml"
               InferOutputModuleFromPackage "acme.Events" infoLogger)
    as (reader & modules & graph & output & _ & _ & _ & _ & Hs & _ & Hk & _);
    [reflexivity |].
  split; [exact Hk | apply Hs; reflexivity].
Defined.

Lemma GetTokenAndType_key_wins_witness :
  os_Getenv bothSet "SUBSTREAMS_API_KEY" <> EmptyString
  /\ GetTokenAndType bothSet
       (newAuthenticator "SUBSTREAMS_API_KEY" "SUBSTREAMS_API_TOKEN")
     = ("key-1", client.ApiKey).
Proof.
  split; [vm_compute; discriminate |].
  apply (proj1 (GetTokenAndType_key_wins bothSet
                  (newAuthenticator "SUBSTREAMS_API_KEY"
                     "SUBSTREAMS_API_TOKEN"))).
  vm_compute; discriminate.
Defined.

Lemma parseHeaders_last_wins_witness :
  parseHeaders
    (Some (["x-tenant: a"]
           ++ ["x-tenant" +:+ NBSP +:+ ":" +:+ NBSP +:+ "b" +:+ NEL]))
  = Ret (Some (<["x-tenant" := "b"]> ∅))
  /\ exists m',
       parseHeaders (Some ["x-tenant: a"]) = Ret (Some m')
       /\ <["x-tenant" := "b"]> ∅
          = <[TrimSpace ("x-tenant" +:+ NBSP)
              := TrimSpace (NBSP +:+ "b" +:+ NEL)]> m'.
Proof.
  split; [vm_compute; reflexivity |].
  destruct (parseHeaders_last_wins ["x-tenant: a"]
              ("x-tenant" +:+ NBSP +:+ ":" +:+ NBSP +:+ "b" +:+ NEL)
              (<["x-tenant" := "b"]> ∅))
    as (k & v & m' & Hs & Hp & Hm & _); [vm_compute; reflexivity |].
  vm_compute in Hs; injection Hs as <- <-; eauto.
Defined.

Lemma run_headersArray_contents_witness :
  exists r rs,
    requests (run plainHandler okClient [attempt blocksStream None] None
                (initial (headerSinker ["x-tenant: a"]))).1
    = r :: rs
    /\ Forall (fun r => outgoingHeaders r
                        = ["x-tenant"; "a"; "x-tenant"; "a"]) (r :: rs).
Proof.
  destruct (run_headersArray_contents plainHandler okClient
              (attempt blocksStream None) [] None
              (initial (headerSinker ["x-tenant: a"]))
              ["x-tenant"; "a"; "x-tenant"; "a"])
    as (_ & r & rs & R & F); [reflexivity | vm_compute; reflexivity |].
  exists r, rs; split; [exact R | exact F].
Defined.

Lemma malformed_header_exits_witness :
  (Run plainHandler okClient [attempt blocksStream None] None None
     (initial (headerSinker ["x-tenant"]))).2
  = Exited "invalid header format".
Proof.
  destruct (malformed_header_exits plainHandler okClient
              [attempt blocksStream None] None None
              (initial (headerSinker ["x-tenant"])) ["x-tenant"])
    as (_ & E & _); [reflexivity | reflexivity | | exact E].
  constructor; unfold wellFormedHeader; vm_compute; lia.
Defined.

Lemma handler_retryable_failure_witness :
  exists r rs,
    requests (runLoop (failingOn 104 databaseDown) 100 105 []
                [attempt blocksStream None; attempt blocksStream None]
                NewExponentialBackOff None (initial boundedSinker)).1
    = newRequest boundedSinker 100 105 [] None :: r :: rs
    /\ StartCursor r = "c104".
Proof.
  destruct (handler_retryable_failure_resumes_from_failed_block
              (failingOn 104 databaseDown) 100 105 []
              (attempt blocksStream None) NewExponentialBackOff None
              (initial boundedSinker)
              [Response_BlockScopedData (block 103 "c103")]
              (block 104 "c104") [] io_EOF "c104"
              databaseDown (errors_New "database is down"))
    with (a' := attempt blocksStream None) (script := @nil Attempt)
    as (r & cs0 & cs & rs & R & S & _).
  - reflexivity.
  - reflexivity.
  - repeat constructor; exists "c103"; split; [reflexivity |].
    intros l; reflexivity.
  - reflexivity.
  - intros l; reflexivity.
  - reflexivity.
  - reflexivity.
  - reflexivity.
  - reflexivity.
  - vm_compute; discriminate.
  - exists r, rs; split; [exact R | exact S].
Defined.

Lemma handler_error_wrapping_EOF_witness :
  (runLoop (failingOn 104 sinkClosed) 100 105 []
     [attempt blocksStream None] NewExponentialBackOff None
     (initial boundedSinker)).2
  = Returned (Some "c104", None).
Proof.
  destruct (handler_error_wrapping_EOF_ends_the_run
              (failingOn 104 sinkClosed) 100 105 []
              (attempt blocksStream None) [] NewExponentialBackOff None
              (initial boundedSinker)
              [Response_BlockScopedData (block 103 "c103")]
              (block 104 "c104") [] io_EOF "c104" sinkClosed)
    as (E & _).
  - reflexivity.
  - reflexivity.
  - repeat constructor; exists "c103"; split; [reflexivity |].
    intros l; reflexivity.
  - reflexivity.
  - intros l; reflexivity.
  - reflexivity.
  - exact E.
Defined.

Lemma handler_error_is_returned_witness :
  (runLoop (failingOn 104 constraintViolated) 100 105 []
     [attempt blocksStream None] NewExponentialBackOff None
     (initial boundedSinker)).2
  = Returned (Some "c104",
              Some (fmt_Errorf "handle BlockScopedData message at block"
                      constraintViolated)).
Proof.
  destruct (handler_error_is_returned_at_once
              (failingOn 104 constraintViolated) 100 105 []
              (attempt blocksStream None) [] NewExponentialBackOff None
              (initial boundedSinker)
              [Response_BlockScopedData (block 103 "c103")]
              (block 104 "c104") [] io_EOF "c104" constraintViolated)
    as (E & _).
  - reflexivity.
  - reflexivity.
  - repeat constructor; exists "c103"; split; [reflexivity |].
    intros l; reflexivity.
  - reflexivity.
  - intros l; reflexivity.
  - reflexivity.
  - reflexivity.
  - reflexivity.
  - exact E.
Defined.

Lemma undo_buffer_hides_undo_signals_witness :
  Forall (fun k => isUndoCall k = false)
    (calls (Run plainHandler okClient [attempt undoStream None] None None
              (initial bufferedSinker)).1).
Proof.
  destruct (undo_buffer_hides_undo_signals plainHandler okClient
              [attempt undoStream None] None None (initial bufferedSinker))
    as (_ & cs & K & F); [eexists; reflexivity |].
  rewrite K; exact F.
Defined.

Lemma handleProgress_stage_gauges_witness :
  metrics (handleProgress jobsProgress (initial boundedSinker))
    !! ("ProgressMessageRunningJobs", stageString 0) = Some 2
  /\ exists v,
       metrics (handleProgress jobsProgress (initial boundedSinker))
         !! ("ProgressMessageLastBlock", stageString 0) = Some v
       /\ 220 <= v.
Proof.
  destruct (handleProgress_stage_gauges jobsProgress (initial boundedSinker) 0)
    as (_ & G); [repeat constructor; simpl; lia | lia |].
  destruct G as (J & v & L & _ & M); [discriminate |].
  split; [exact J |].
  exists v; split; [exact L |].
  apply (M {| job_Stage := 0; job_StartBlock := 200; ProcessedBlocks := 20 |}).
  simpl; auto.
Defined.

Lemma infinite_retry_never_expires_witness :
  (run plainHandler okClient (replicate 16 unavailableAttempt) None
     (initial infiniteSinker)).2 = Running.
Proof.
  destruct (infinite_retry_never_expires plainHandler okClient
              (replicate 16 unavailableAttempt) None (initial infiniteSinker))
    as (_ & K);
    [reflexivity | exact NewExponentialBackOff_neverStops
    | repeat constructor |].
  destruct K as (R & _);
    [reflexivity | eexists; reflexivity
    | repeat (constructor; [eexists; reflexivity |]); constructor |].
  exact R.
Defined.

Lemma Legacy_recvError_differs_witness :
  Legacy_recvError canceled = fmt_Errorf "stream failure" canceled
  /\ recvError canceled = retryable canceled.
Proof.
  apply (proj1 (proj2 (Legacy_recvError_differs_on_two_codes canceled)));
    reflexivity.
Defined.

Lemma OutputModuleType_prefixed_unprefixed_witness :
  exists u,
    OutputModuleTypeUnprefixed boundedSinker = Ret u
    /\ OutputModuleTypePrefixed boundedSinker = Ret ("proto:" +:+ u).
Proof.
  destruct (proj1 (OutputModuleType_prefixed_unprefixed boundedSinker)
              mapper {| Output_Type := "proto:events" |})
    as (u & U & P & _); try reflexivity.
  exists u; split; [exact U | exact P].
Defined.

Lemma client_error_ends_the_run_witness :
  (Run plainHandler noClient [attempt blocksStream None] None None
     (initial boundedSinker)).2
  = Returned (Some (fmt_Errorf "new substreams client"
                      (errors_New "invalid endpoint"))).
Proof.
  destruct (client_error_ends_the_run plainHandler noClient
              [attempt blocksStream None] None None (initial boundedSinker)
              (errors_New "invalid endpoint")) as (E & _); [reflexivity |].
  exact E.
Defined.

(** White space of Unicode is trimmed like the white space of ASCII: the
    type after a comma and U+2003, and the key and the value next to
    U+00A0 and U+0085. *)
Lemma sanitizeModuleTypes_trims_Unicode_space :
  sanitizeModuleTypes ("a," +:+ EMSP +:+ "b")
  = (["a"; "b"], ["proto:a"; "proto:b"])
  /\ validateOutputType ("a," +:+ EMSP +:+ "b") "b" = Datatypes.None.
Proof. split; vm_compute; reflexivity. Qed.

Lemma parseHeaders_trims_Unicode_space :
  parseHeaders (Some ["k:" +:+ NBSP +:+ "v" +:+ NEL; "k" +:+ NBSP +:+ ": w"])
  = Ret (Some (<["k" := "w"]> ∅)).
Proof. vm_compute; reflexivity. Qed.

End MoreScenarios.
